(** * Corrade string view search kernels and CPU feature sets

    A shallow embedding of the byte and substring search routines of
    [src/Corrade/Containers/StringView.cpp] (namespace
    [Corrade::Containers::Implementation]) together with the feature-set
    comparison exercised by [src/Corrade/Test/SimdTest.cpp].

    Pointers are addresses in [Z], the null pointer is address [0]. Memory is
    a partial map from addresses to bytes; a read of an unmapped address is a
    fault, so a theorem stating that a routine returns a value also states
    that every read it made stayed inside mapped memory. Every routine
    additionally logs the reads it issues, which is what distinguishes a
    scalar scan from a vector load.

    Pointer arithmetic and pointer comparison are exact arithmetic on
    addresses; the one place where the code goes through an integer of fixed
    width, the [std::uintptr_t] cast that aligns the scan pointer, is
    written out with its wrap-around. Loops take a fuel argument that the
    top-level routine sets from [size]; running out of it is a fault like
    any other, so "returns a value" includes termination.

    The second half of the file covers the routines built on these
    kernels: comparison, prefix and suffix tests, splitting, partitioning
    and joining of views from [StringView.cpp], and the in-place case
    conversion, character replacement, number-sequence parser and
    [std::string] trimming and partitioning helpers of
    [Utility/String.cpp]. *)

From Stdlib Require Import String Ascii ZArith List Bool Lia.
Import ListNotations.
Local Open Scope Z_scope.

(** ** Pointers, bytes, memory *)

Abbreviation ptr := Z (only parsing).
Abbreviation char := Z (only parsing).
Definition nullptr : ptr := 0.

(** [std::uintptr_t] on the x86-64 targets the vector kernels are built for. *)
Definition uintptr_bits : Z := 64.
Definition to_uintptr (x : Z) : Z := x mod 2 ^ uintptr_bits.

(** [int] and [unsigned] are 32 bits wide; conversions wrap. *)
Definition to_uint32 (x : Z) : Z := x mod 2 ^ 32.
Definition to_int32 (x : Z) : Z := (x + 2 ^ 31) mod 2 ^ 32 - 2 ^ 31.

Definition memory := ptr -> option char.

(** ** Faults, read log and the execution monad *)

Inductive fault : Type :=
| BadRead (a : ptr)        (* read of an unmapped byte *)
| Misaligned (a : ptr)     (* aligned vector load from an unaligned address *)
| AssertFailed             (* CORRADE_INTERNAL_DEBUG_ASSERT *)
| Unreachable              (* CORRADE_INTERNAL_DEBUG_ASSERT_UNREACHABLE *)
| OutOfFuel.               (* loop budget exhausted *)

Inductive outcome (A : Type) : Type :=
| Val (a : A)
| Fault (f : fault).
Arguments Val {A} a.
Arguments Fault {A} f.

Inductive access : Type :=
| Rd8 (a : ptr)                       (* one byte, scalar *)
| RdVec (width : Z) (aligned : bool) (a : ptr)  (* [width] bytes, one vector load *)
| Memcmp (a b : ptr) (n : Z).        (* one std::memcmp() call over [n] bytes *)

Definition M (A : Type) : Type := (outcome A * list access)%type.

Definition ret {A} (a : A) : M A := (Val a, []).
Definition fail {A} (f : fault) : M A := (Fault f, []).
Definition log (e : access) : M unit := (Val tt, [e]).

Definition bind {A B} (m : M A) (k : A -> M B) : M B :=
  match m with
  | (Val a, t) => let (r, t') := k a in (r, t ++ t')
  | (Fault f, t) => (Fault f, t)
  end.

Notation "x <- m ;; k" := (bind m (fun x => k))
  (at level 61, m at next level, right associativity).
Notation "m ;;; k" := (bind m (fun _ => k))
  (at level 61, right associativity).

Definition result {A} (m : M A) : outcome A := fst m.
Definition trace {A} (m : M A) : list access := snd m.

Definition assert (b : bool) : M unit :=
  if b then ret tt else fail AssertFailed.

Definition is_scalar_read (e : access) : Prop :=
  match e with Rd8 _ => True | _ => False end.

Definition is_vector_load (e : access) : Prop :=
  match e with RdVec _ _ _ => True | _ => False end.

Section Kernels.

Variable mem : memory.

(** [*p] for a [const char*]. *)
Definition load8 (p : ptr) : M char :=
  match mem p with
  | Some b => (Val b, [Rd8 p])
  | None => (Fault (BadRead p), [Rd8 p])
  end.

(** The [n] bytes starting at [p], without logging; [None] when one of them
    is unmapped. *)
Fixpoint peek (n : nat) (p : ptr) : option (list char) :=
  match n with
  | O => Some []
  | S n' =>
      match mem p, peek n' (p + 1) with
      | Some b, Some bs => Some (b :: bs)
      | _, _ => None
      end
  end.

(** *** C library: [std::memchr] and [std::memcmp]

    [memchr] behaves as if it read the bytes in order and stopped at the
    first match. [memcmp] may read all [n] bytes of both operands, so both
    ranges must be mapped; it orders the operands by their first differing
    byte. *)

Fixpoint memchr_loop (n : nat) (p : ptr) (c : char) : M ptr :=
  match n with
  | O => ret nullptr
  | S n' =>
      b <- load8 p ;;
      if b =? c then ret p else memchr_loop n' (p + 1) c
  end.

Definition memchr (p : ptr) (c : char) (n : Z) : M ptr :=
  memchr_loop (Z.to_nat n) p c.

Fixpoint compare_bytes (xs ys : list char) : Z :=
  match xs, ys with
  | x :: xs', y :: ys' =>
      if x =? y then compare_bytes xs' ys'
      else if x <? y then -1 else 1
  | _, _ => 0
  end.

Definition memcmp (a b : ptr) (n : Z) : M Z :=
  log (Memcmp a b n) ;;;
  match peek (Z.to_nat n) a, peek (Z.to_nat n) b with
  | Some xs, Some ys => ret (compare_bytes xs ys)
  | None, _ => fail (BadRead a)
  | _, None => fail (BadRead b)
  end.

(** *** Substring search, [StringView.cpp] lines 107-149 *)

(** The [for] loop of [stringFindString]: [data] advances up to [max]. *)
Fixpoint stringFindString_loop (fuel : nat) (data max substring : ptr)
    (substringSize : Z) : M ptr :=
  if data <=? max then
    match fuel with
    | O => fail OutOfFuel
    | S fuel' =>
        r <- memcmp data substring substringSize ;;
        if r =? 0 then ret data
        else stringFindString_loop fuel' (data + 1) max substring substringSize
    end
  else ret nullptr.

Definition stringFindString (data : ptr) (size : Z) (substring : ptr)
    (substringSize : Z) : M ptr :=
  if substringSize <=? size then
    if size =? 0 then ret data
    else stringFindString_loop (S (Z.to_nat size)) data
           (data + size - substringSize) substring substringSize
  else ret nullptr.

(** The [for] loop of [stringFindLastString]: [i] retreats down to [data]. *)
Fixpoint stringFindLastString_loop (fuel : nat) (i data substring : ptr)
    (substringSize : Z) : M ptr :=
  if i >=? data then
    match fuel with
    | O => fail OutOfFuel
    | S fuel' =>
        r <- memcmp i substring substringSize ;;
        if r =? 0 then ret i
        else stringFindLastString_loop fuel' (i - 1) data substring substringSize
    end
  else ret nullptr.

Definition stringFindLastString (data : ptr) (size : Z) (substring : ptr)
    (substringSize : Z) : M ptr :=
  if substringSize <=? size then
    if size =? 0 then ret data
    else stringFindLastString_loop (S (Z.to_nat size))
           (data + size - substringSize) data substring substringSize
  else ret nullptr.

(** *** Backward byte search, lines 399-407 *)

Fixpoint stringFindLastCharacter_loop (fuel : nat) (i data : ptr)
    (character : char) : M ptr :=
  if i >=? data then
    match fuel with
    | O => fail OutOfFuel
    | S fuel' =>
        b <- load8 i ;;
        if b =? character then ret i
        else stringFindLastCharacter_loop fuel' (i - 1) data character
    end
  else ret nullptr.

Definition stringFindLastCharacter (data : ptr) (size : Z) (character : char)
    : M ptr :=
  if negb (data =? nullptr) then
    stringFindLastCharacter_loop (Z.to_nat size) (data + size - 1) data character
  else ret nullptr.

(** *** Any-of-set searches, lines 430-455

    The four loops differ in direction and in whether a hit of [memchr] in
    the character set accepts or rejects the byte. *)

Fixpoint stringFindAny_loop (fuel : nat) (i end_ characters : ptr)
    (characterCount : Z) : M ptr :=
  if negb (i =? end_) then
    match fuel with
    | O => fail OutOfFuel
    | S fuel' =>
        b <- load8 i ;;
        p <- memchr characters b characterCount ;;
        if negb (p =? nullptr) then ret i
        else stringFindAny_loop fuel' (i + 1) end_ characters characterCount
    end
  else ret nullptr.

Definition stringFindAny (data : ptr) (size : Z) (characters : ptr)
    (characterCount : Z) : M ptr :=
  stringFindAny_loop (Z.to_nat size) data (data + size) characters characterCount.

Fixpoint stringFindLastAny_loop (fuel : nat) (i data characters : ptr)
    (characterCount : Z) : M ptr :=
  if negb (i =? data) then
    match fuel with
    | O => fail OutOfFuel
    | S fuel' =>
        b <- load8 (i - 1) ;;
        p <- memchr characters b characterCount ;;
        if negb (p =? nullptr) then ret (i - 1)
        else stringFindLastAny_loop fuel' (i - 1) data characters characterCount
    end
  else ret nullptr.

Definition stringFindLastAny (data : ptr) (size : Z) (characters : ptr)
    (characterCount : Z) : M ptr :=
  stringFindLastAny_loop (Z.to_nat size) (data + size) data characters characterCount.

Fixpoint stringFindNotAny_loop (fuel : nat) (i end_ characters : ptr)
    (characterCount : Z) : M ptr :=
  if negb (i =? end_) then
    match fuel with
    | O => fail OutOfFuel
    | S fuel' =>
        b <- load8 i ;;
        p <- memchr characters b characterCount ;;
        if p =? nullptr then ret i
        else stringFindNotAny_loop fuel' (i + 1) end_ characters characterCount
    end
  else ret nullptr.

Definition stringFindNotAny (data : ptr) (size : Z) (characters : ptr)
    (characterCount : Z) : M ptr :=
  stringFindNotAny_loop (Z.to_nat size) data (data + size) characters characterCount.

Fixpoint stringFindLastNotAny_loop (fuel : nat) (i data characters : ptr)
    (characterCount : Z) : M ptr :=
  if negb (i =? data) then
    match fuel with
    | O => fail OutOfFuel
    | S fuel' =>
        b <- load8 (i - 1) ;;
        p <- memchr characters b characterCount ;;
        if p =? nullptr then ret (i - 1)
        else stringFindLastNotAny_loop fuel' (i - 1) data characters characterCount
    end
  else ret nullptr.

Definition stringFindLastNotAny (data : ptr) (size : Z) (characters : ptr)
    (characterCount : Z) : M ptr :=
  stringFindLastNotAny_loop (Z.to_nat size) (data + size) data characters characterCount.

(** *** Vector intrinsics

    A vector register is the list of its byte lanes, lane 0 first (the byte
    at the lowest address). The 128-bit and 256-bit intrinsics differ only in
    the lane count, selected by the same tag the source overloads on
    ([Cpu::Sse2T], [Cpu::Avx2T]). *)

Inductive Tag : Type := Sse2 | Avx2.

Definition vectorWidth (t : Tag) : Z :=
  match t with Sse2 => 16 | Avx2 => 32 end.

Definition vec := list char.

(** [_mm_set1_epi8] / [_mm256_set1_epi8] *)
Definition mm_set1_epi8 (t : Tag) (c : char) : vec :=
  repeat c (Z.to_nat (vectorWidth t)).

(** [_mm_loadu_si128] / [_mm256_loadu_si256] *)
Definition mm_loadu (t : Tag) (at_ : ptr) : M vec :=
  log (RdVec (vectorWidth t) false at_) ;;;
  match peek (Z.to_nat (vectorWidth t)) at_ with
  | Some v => ret v
  | None => fail (BadRead at_)
  end.

(** [_mm_load_si128] / [_mm256_load_si256]: the address has to be a multiple
    of the vector width. *)
Definition mm_load (t : Tag) (at_ : ptr) : M vec :=
  log (RdVec (vectorWidth t) true at_) ;;;
  if to_uintptr at_ mod vectorWidth t =? 0 then
    match peek (Z.to_nat (vectorWidth t)) at_ with
    | Some v => ret v
    | None => fail (BadRead at_)
    end
  else fail (Misaligned at_).

(** [_mm_cmpeq_epi8] / [_mm256_cmpeq_epi8] *)
Definition mm_cmpeq_epi8 (a b : vec) : vec :=
  map (fun xy => if fst xy =? snd xy then 255 else 0) (combine a b).

(** [_mm_or_si128] / [_mm256_or_si256] *)
Definition mm_or (a b : vec) : vec :=
  map (fun xy => Z.lor (fst xy) (snd xy)) (combine a b).

(** Bit [k] of the mask is the top bit of lane [k]. *)
Fixpoint movemask_bits (v : vec) : Z :=
  match v with
  | [] => 0
  | x :: v' => Z.b2z (Z.testbit x 7) + 2 * movemask_bits v'
  end.

(** [_mm_movemask_epi8] / [_mm256_movemask_epi8]; the result type is [int],
    so 32 lanes with the last one set give a negative mask. *)
Definition mm_movemask_epi8 (v : vec) : Z := to_int32 (movemask_bits v).

Fixpoint tzcnt_loop (n : nat) (k : Z) (x : Z) : Z :=
  match n with
  | O => k
  | S n' => if Z.testbit x k then k else tzcnt_loop n' (k + 1) x
  end.

(** [_tzcnt_u32]: the argument is converted to [unsigned]; 32 for zero. *)
Definition tzcnt_u32 (x : Z) : Z := tzcnt_loop 32 0 (to_uint32 x).

(** *** Vector byte search, lines 203-377 *)

Definition findCharacterSingleVectorUnaligned (t : Tag) (at_ : ptr) (vn1 : vec)
    : M ptr :=
  chunk <- mm_loadu t at_ ;;
  let mask := mm_movemask_epi8 (mm_cmpeq_epi8 chunk vn1) in
  if negb (mask =? 0) then ret (at_ + tzcnt_u32 mask) else ret nullptr.

Definition findCharacterSingleVector (t : Tag) (at_ : ptr) (vn1 : vec) : M ptr :=
  assert (to_uintptr at_ mod vectorWidth t =? 0) ;;;
  chunk <- mm_load t at_ ;;
  let mask := mm_movemask_epi8 (mm_cmpeq_epi8 chunk vn1) in
  if negb (mask =? 0) then ret (at_ + tzcnt_u32 mask) else ret nullptr.

(** "Handle remaining less than a vector with an unaligned search". *)
Definition findCharacter_tail (t : Tag) (i end_ : ptr) (vn1 : vec) : M ptr :=
  if i <? end_ then
    assert (i + vectorWidth t >? end_) ;;;
    findCharacterSingleVectorUnaligned t (end_ - vectorWidth t) vn1
  else ret nullptr.

(** "Handle remaining less than four vectors"; falls through to the tail. *)
Fixpoint findCharacter_single_loop (t : Tag) (fuel : nat) (i end_ : ptr)
    (vn1 : vec) : M ptr :=
  if i + vectorWidth t <=? end_ then
    match fuel with
    | O => fail OutOfFuel
    | S fuel' =>
        found <- findCharacterSingleVector t i vn1 ;;
        if negb (found =? nullptr) then ret found
        else findCharacter_single_loop t fuel' (i + vectorWidth t) end_ vn1
    end
  else findCharacter_tail t i end_ vn1.

(** "Go four vectors at a time with the aligned pointer"; falls through to
    the one-vector loop. *)
Fixpoint findCharacter_batch_loop (t : Tag) (fuel : nat) (i end_ : ptr)
    (vn1 : vec) : M ptr :=
  let W := vectorWidth t in
  if i + 4 * W <? end_ then
    match fuel with
    | O => fail OutOfFuel
    | S fuel' =>
        a <- mm_load t (i + 0 * W) ;;
        b <- mm_load t (i + 1 * W) ;;
        c <- mm_load t (i + 2 * W) ;;
        d <- mm_load t (i + 3 * W) ;;
        let eqa := mm_cmpeq_epi8 vn1 a in
        let eqb := mm_cmpeq_epi8 vn1 b in
        let eqc := mm_cmpeq_epi8 vn1 c in
        let eqd := mm_cmpeq_epi8 vn1 d in
        let or1 := mm_or eqa eqb in
        let or2 := mm_or eqc eqd in
        let or3 := mm_or or1 or2 in
        if negb (mm_movemask_epi8 or3 =? 0) then
          if negb (mm_movemask_epi8 eqa =? 0) then
            ret (i + 0 * W + tzcnt_u32 (mm_movemask_epi8 eqa))
          else if negb (mm_movemask_epi8 eqb =? 0) then
            ret (i + 1 * W + tzcnt_u32 (mm_movemask_epi8 eqb))
          else if negb (mm_movemask_epi8 eqc =? 0) then
            ret (i + 2 * W + tzcnt_u32 (mm_movemask_epi8 eqc))
          else if negb (mm_movemask_epi8 eqd =? 0) then
            ret (i + 3 * W + tzcnt_u32 (mm_movemask_epi8 eqd))
          else fail Unreachable
        else findCharacter_batch_loop t fuel' (i + 4 * W) end_ vn1
    end
  else findCharacter_single_loop t fuel i end_ vn1.

(** The part of both vector implementations that runs once the input is at
    least one vector long (lines 232-287 with [t = Sse2], lines 319-375 with
    [t = Avx2]): unaligned first vector, align, batches, single vectors,
    unaligned last vector. *)
Definition findCharacter_vector (t : Tag) (data : ptr) (size : Z)
    (character : char) : M ptr :=
  let W := vectorWidth t in
  let end_ := data + size in
  let vn1 := mm_set1_epi8 t character in
  found <- findCharacterSingleVectorUnaligned t data vn1 ;;
  if negb (found =? nullptr) then ret found
  else
    let i := Z.land (to_uintptr (data + W)) (to_uintptr (Z.lnot (W - 1))) in
    assert ((i >=? data) && (to_uintptr i mod W =? 0)) ;;;
    findCharacter_batch_loop t (Z.to_nat size) i end_ vn1.

(** "If we have less than 16 bytes, do it the stupid way". *)
Fixpoint findCharacter_short_loop (fuel : nat) (i end_ : ptr) (character : char)
    : M ptr :=
  if negb (i =? end_) then
    match fuel with
    | O => fail OutOfFuel
    | S fuel' =>
        b <- load8 i ;;
        if b =? character then ret i
        else findCharacter_short_loop fuel' (i + 1) end_ character
    end
  else ret nullptr.

(** [stringFindCharacterImplementation(Cpu::Sse2|Cpu::Bmi1)] *)
Definition stringFindCharacterImplementation_Sse2Bmi1 (data : ptr) (size : Z)
    (character : char) : M ptr :=
  let end_ := data + size in
  if size <? 16 then findCharacter_short_loop (Z.to_nat size) data end_ character
  else findCharacter_vector Sse2 data size character.

(** [stringFindCharacterImplementation(Cpu::Avx2|Cpu::Bmi1)] *)
Definition stringFindCharacterImplementation_Avx2Bmi1 (data : ptr) (size : Z)
    (character : char) : M ptr :=
  if size <? 32 then stringFindCharacterImplementation_Sse2Bmi1 data size character
  else findCharacter_vector Avx2 data size character.

(** [stringFindCharacterImplementation(Cpu::Scalar)] *)
Definition stringFindCharacterImplementation_Scalar (data : ptr) (size : Z)
    (character : char) : M ptr :=
  memchr data character size.

(** The dispatcher macros of [Corrade/Cpu.h] pick one of the three
    implementations from the detected CPU features; the choice is a
    parameter here. *)
Inductive Tier : Type := Scalar | Sse2Bmi1 | Avx2Bmi1.

Definition stringFindCharacter (tier : Tier) (data : ptr) (size : Z)
    (character : char) : M ptr :=
  match tier with
  | Scalar => stringFindCharacterImplementation_Scalar data size character
  | Sse2Bmi1 => stringFindCharacterImplementation_Sse2Bmi1 data size character
  | Avx2Bmi1 => stringFindCharacterImplementation_Avx2Bmi1 data size character
  end.

End Kernels.

(** ** CPU feature sets

    The [Features] class (declared in [Corrade/Simd.h]) is not among the
    sources; [SimdTest.cpp] fixes the mask width and the tag values
    ([Sse3] is 2, [Sse3|Sse2] is 3, [Sse3|Sse2|Ssse3] is 7, [Sse41] is 8,
    [~Scalar] is [0xffffffff]). *)

Module Simd.

(** Modelled from the spec: the [Features] bitmask type, missing from the
    sources: "an immutable set of Capability values, represented as a
    fixed-width bitmask"; a [std::uint32_t] by [SimdTest.cpp]. *)
Definition Features := Z.

Definition Scalar : Features := 0.
Definition Sse2 : Features := 1.
Definition Sse3 : Features := 2.
Definition Ssse3 : Features := 4.
Definition Sse41 : Features := 8.

(** Capability number [i] (a bit position below 32) is in the set. *)
Definition has (a : Features) (i : Z) : bool := Z.testbit a i.

(** Modelled from the spec: the operators of [Features], missing from the
    sources: "union, intersect, symmetricDifference, complement: pure
    bitmask operations". *)
Definition union (a b : Features) : Features := Z.lor a b.
Definition intersect (a b : Features) : Features := Z.land a b.
Definition symmetricDifference (a b : Features) : Features := Z.lxor a b.
Definition complement (a : Features) : Features := to_uint32 (Z.lnot a).

(** Modelled from the spec: [contains], missing from the sources:
    "contains(a, b): true iff every capability in b is also in a",
    on a bitmask the test that masking [a] with [b] leaves [b]. *)
Definition contains (a b : Features) : bool := Z.land a b =? b.

(** Modelled from the spec: [operator<=] and [operator>=] of [Features],
    missing from the sources: "defined purely in terms of contains". *)
Definition le (a b : Features) : bool := contains b a.
Definition ge (a b : Features) : bool := contains a b.

End Simd.

(** ** Concrete memories *)

(** The memory that maps exactly the bytes of [bytes] at [base]. *)
Definition mem_of (base : ptr) (bytes : list char) : memory :=
  fun a =>
    if (base <=? a) && (a <? base + Z.of_nat (length bytes))
    then nth_error bytes (Z.to_nat (a - base)) else None.

Definition mem_union (m1 m2 : memory) : memory :=
  fun a => match m1 a with Some b => Some b | None => m2 a end.

Definition bytes_of_string (s : string) : list char :=
  map (fun b => Z.of_N (Byte.to_N b)) (list_byte_of_string s).

Definition byte_of_ascii (a : ascii) : char := Z.of_N (N_of_ascii a).

(** ** Buffers and reference results on lists *)

(** [bytes] is laid out at [data]: every byte is mapped, a non-empty buffer
    does not start at the null pointer and ends inside the address space. *)
Definition valid_buffer (mem : memory) (data : ptr) (bytes : list char) : Prop :=
  0 <= data /\
  (bytes <> [] -> 0 < data) /\
  data + Z.of_nat (length bytes) < 2 ^ uintptr_bits /\
  forall k, (k < length bytes)%nat ->
    mem (data + Z.of_nat k) = Some (nth k bytes 0).

Definition valid_bufferb (mem : memory) (data : ptr) (bytes : list char) : bool :=
  (0 <=? data) &&
  (match bytes with [] => true | _ => 0 <? data end) &&
  (data + Z.of_nat (length bytes) <? 2 ^ uintptr_bits) &&
  forallb (fun k => match mem (data + Z.of_nat k) with
                    | Some b => b =? nth k bytes 0
                    | None => false
                    end) (seq 0 (length bytes)).

(** Index of the first, respectively last, element satisfying [p]. *)
Fixpoint find_first (p : char -> bool) (l : list char) : option nat :=
  match l with
  | [] => None
  | x :: l' => if p x then Some O else option_map S (find_first p l')
  end.

Fixpoint find_last (p : char -> bool) (l : list char) : option nat :=
  match l with
  | [] => None
  | x :: l' =>
      match find_last p l' with
      | Some k => Some (S k)
      | None => if p x then Some O else None
      end
  end.

(** The pointer a search reports for an optional offset. *)
Definition at_offset (data : ptr) (o : option nat) : ptr :=
  match o with
  | Some k => data + Z.of_nat k
  | None => nullptr
  end.

Definition is_char (c : char) : char -> bool := fun b => b =? c.
Definition in_set (chars : list char) : char -> bool :=
  fun b => existsb (is_char b) chars.
Definition not_in_set (chars : list char) : char -> bool :=
  fun b => negb (in_set chars b).

(** The [m] bytes of [l] starting at offset [o]. *)
Definition sub (l : list char) (o m : nat) : list char := firstn m (skipn o l).

(** Whether the needle occurs in the haystack at offset [o], decided the way
    the code does: a zero result of the byte comparison. *)
Definition matches_at (hay needle : list char) (o : nat) : bool :=
  compare_bytes (sub hay o (length needle)) needle =? 0.

(** First accepted offset among [start, start + count), and the offsets
    tried on the way, in the order tried. *)
Fixpoint first_from (f : nat -> bool) (start count : nat) : option nat :=
  match count with
  | O => None
  | S c => if f start then Some start else first_from f (S start) c
  end.

Fixpoint tried_from (f : nat -> bool) (start count : nat) : list nat :=
  match count with
  | O => []
  | S c => start :: (if f start then [] else tried_from f (S start) c)
  end.

(** Last accepted offset below [count], and the offsets tried on the way. *)
Fixpoint last_below (f : nat -> bool) (count : nat) : option nat :=
  match count with
  | O => None
  | S c => if f c then Some c else last_below f c
  end.

Fixpoint tried_below (f : nat -> bool) (count : nat) : list nat :=
  match count with
  | O => []
  | S c => c :: (if f c then [] else tried_below f c)
  end.

(** The bytes of [l] are mapped, in order, from address [p] on. *)
Definition mapped (mem : memory) (p : ptr) (l : list char) : Prop :=
  forall k, (k < length l)%nat -> mem (p + Z.of_nat k) = Some (nth k l 0).

(** What a pointer reported for a search over [l] laid out at [data] can be:
    null when no offset is a hit, otherwise a non-null pointer to a hit that
    lies, with its [extent] bytes, inside [l]. *)
Definition null_or_hit (data : ptr) (l : list char) (extent : nat)
    (hit : nat -> Prop) (r : ptr) : Prop :=
  (r = nullptr /\ forall o, (o + extent <= length l)%nat -> ~ hit o) \/
  (exists o, r = data + Z.of_nat o /\ r <> nullptr /\
             (o + extent <= length l)%nat /\ hit o).

(** Lane count of a vector, as a number of list elements. *)
Definition lanes (t : Tag) : nat := Z.to_nat (vectorWidth t).

(** The mask the comparison of [v] against a broadcast [c] produces. *)
Fixpoint matchmask (c : char) (v : vec) : Z :=
  match v with
  | [] => 0
  | x :: v' => Z.b2z (x =? c) + 2 * matchmask c v'
  end.

(** A buffer long enough to reach every phase of the vector kernels, at an
    address that is not a multiple of the vector width. *)
Definition sample : list char :=
  bytes_of_string "the quick brown fox jumps over the lazy dog".

Definition sample_mem : memory := mem_of 4099 sample.

(** 200 bytes, all 'b' except a 'Q' at offset 150. *)
Definition long_sample : list char := repeat 98 150 ++ [81] ++ repeat 98 49.

(** ** String views

    A view is a pointer and a size. The source keeps the size and two flag
    bits in one word ([_sizePlusFlags]) and masks the flags off wherever it
    needs the size; the flags play no part in any routine below, so the view
    is kept as the pointer and the masked size. *)

Record StringView : Type := { _data : ptr; _size : Z }.

(** [std::size_t] arithmetic wraps at 64 bits. *)
Definition to_size_t (x : Z) : Z := x mod 2 ^ 64.

Section Views.

Variable mem : memory.

(** *** Comparison operators, [StringView.cpp] lines 700-752 *)

Definition operator_eq (a b : StringView) : M bool :=
  let aSize := _size a in
  if aSize =? _size b then
    r <- memcmp mem (_data a) (_data b) aSize ;;
    ret (r =? 0)
  else ret false.

Definition operator_ne (a b : StringView) : M bool :=
  let aSize := _size a in
  if negb (aSize =? _size b) then ret true
  else
    r <- memcmp mem (_data a) (_data b) aSize ;;
    ret (negb (r =? 0)).

Definition operator_lt (a b : StringView) : M bool :=
  let aSize := _size a in
  let bSize := _size b in
  result <- memcmp mem (_data a) (_data b) (Z.min aSize bSize) ;;
  if negb (result =? 0) then ret (result <? 0)
  else if aSize <? bSize then ret true
  else ret false.

Definition operator_le (a b : StringView) : M bool :=
  let aSize := _size a in
  let bSize := _size b in
  result <- memcmp mem (_data a) (_data b) (Z.min aSize bSize) ;;
  if negb (result =? 0) then ret (result <? 0)
  else if aSize <=? bSize then ret true
  else ret false.

Definition operator_ge (a b : StringView) : M bool :=
  let aSize := _size a in
  let bSize := _size b in
  result <- memcmp mem (_data a) (_data b) (Z.min aSize bSize) ;;
  if negb (result =? 0) then ret (result >? 0)
  else if aSize >=? bSize then ret true
  else ret false.

Definition operator_gt (a b : StringView) : M bool :=
  let aSize := _size a in
  let bSize := _size b in
  result <- memcmp mem (_data a) (_data b) (Z.min aSize bSize) ;;
  if negb (result =? 0) then ret (result >? 0)
  else if aSize >? bSize then ret true
  else ret false.

(** *** Prefix and suffix tests, lines 614-637 *)

Definition hasPrefix (this prefix : StringView) : M bool :=
  let prefixSize := _size prefix in
  if _size this <? prefixSize then ret false
  else
    r <- memcmp mem (_data this) (_data prefix) prefixSize ;;
    ret (r =? 0).

Definition hasPrefix_char (this : StringView) (prefix : char) : M bool :=
  let size := _size this in
  if negb (size =? 0) then
    b <- load8 mem (_data this) ;;
    ret (b =? prefix)
  else ret false.

Definition hasSuffix (this suffix : StringView) : M bool :=
  let size := _size this in
  let suffixSize := _size suffix in
  if size <? suffixSize then ret false
  else
    r <- memcmp mem (_data this + size - suffixSize) (_data suffix) suffixSize ;;
    ret (r =? 0).

Definition hasSuffix_char (this : StringView) (suffix : char) : M bool :=
  let size := _size this in
  if negb (size =? 0) then
    b <- load8 mem (_data this + size - 1) ;;
    ret (b =? suffix)
  else ret false.

End Views.

(** ** Sub-views, splitting and stripping *)

Section Splitting.

Variable mem : memory.

(** Modelled from the spec: [slice], [prefix], [suffix], [exceptPrefix],
    [exceptSuffix] and [isEmpty] are declared in [StringView.h], which is
    not among the sources. The spec gives a view as a byte range (base
    pointer, length); the sub-view between two pointers of a view is taken
    to be that range, and asking for one that leaves the view is an
    assertion failure. *)
Definition slice (this : StringView) (begin end_ : ptr) : M StringView :=
  assert ((_data this <=? begin) && (begin <=? end_)
          && (end_ <=? _data this + _size this)) ;;;
  ret {| _data := begin; _size := end_ - begin |}.

Definition prefix (this : StringView) (end_ : ptr) : M StringView :=
  slice this (_data this) end_.

Definition suffix (this : StringView) (begin : ptr) : M StringView :=
  slice this begin (_data this + _size this).

Definition exceptPrefix (this : StringView) (size : Z) : M StringView :=
  slice this (_data this + size) (_data this + _size this).

Definition exceptSuffix (this : StringView) (size : Z) : M StringView :=
  slice this (_data this) (_data this + _size this - size).

Definition isEmpty (this : StringView) : bool := _size this =? 0.

(** *** [exceptPrefix(StringView)] and [exceptSuffix(StringView)],
    lines 639-655

    A failed [CORRADE_ASSERT] is the fault [AssertFailed]. *)
Definition exceptPrefix_view (this prefix : StringView) : M StringView :=
  h <- hasPrefix mem this prefix ;;
  assert h ;;;
  exceptPrefix this (_size prefix).

Definition exceptSuffix_view (this suffix : StringView) : M StringView :=
  h <- hasSuffix mem this suffix ;;
  assert h ;;;
  exceptSuffix this (_size suffix).

(** *** [split(char)], lines 69-83

    The loop leaves [oldpos] behind for the part after the last delimiter. *)
Fixpoint split_loop (fuel : nat) (this : StringView) (delimiter : char)
    (end_ oldpos : ptr) (parts : list StringView)
    : M (ptr * list StringView) :=
  if oldpos <? end_ then
    pos <- memchr mem oldpos delimiter (end_ - oldpos) ;;
    if negb (pos =? nullptr) then
      match fuel with
      | O => fail OutOfFuel
      | S fuel' =>
          part <- slice this oldpos pos ;;
          split_loop fuel' this delimiter end_ (pos + 1) (parts ++ [part])
      end
    else ret (oldpos, parts)
  else ret (oldpos, parts).

Definition split (this : StringView) (delimiter : char) : M (list StringView) :=
  let end_ := _data this + _size this in
  r <- split_loop (Z.to_nat (_size this)) this delimiter end_ (_data this) [] ;;
  let (oldpos, parts) := r in
  if negb (isEmpty this) then
    last <- suffix this oldpos ;;
    ret (parts ++ [last])
  else ret parts.

(** *** [splitWithoutEmptyParts(char)], lines 85-103 *)
Fixpoint splitWithoutEmptyParts_loop (fuel : nat) (this : StringView)
    (delimiter : char) (end_ oldpos : ptr) (parts : list StringView)
    : M (list StringView) :=
  if oldpos <? end_ then
    match fuel with
    | O => fail OutOfFuel
    | S fuel' =>
        found <- memchr mem oldpos delimiter (end_ - oldpos) ;;
        let pos := if found =? nullptr then end_ else found in
        if negb (pos =? oldpos) then
          part <- slice this oldpos pos ;;
          splitWithoutEmptyParts_loop fuel' this delimiter end_ (pos + 1)
            (parts ++ [part])
        else
          splitWithoutEmptyParts_loop fuel' this delimiter end_ (pos + 1) parts
    end
  else ret parts.

Definition splitWithoutEmptyParts (this : StringView) (delimiter : char)
    : M (list StringView) :=
  let end_ := _data this + _size this in
  splitWithoutEmptyParts_loop (Z.to_nat (_size this)) this delimiter end_
    (_data this) [].

(** *** [splitOnAnyWithoutEmptyParts], lines 459-478 *)
Fixpoint splitOnAnyWithoutEmptyParts_loop (fuel : nat) (this : StringView)
    (characters : ptr) (characterCount : Z) (end_ oldpos : ptr)
    (parts : list StringView) : M (list StringView) :=
  if oldpos <? end_ then
    match fuel with
    | O => fail OutOfFuel
    | S fuel' =>
        pos <- stringFindAny mem oldpos (end_ - oldpos) characters characterCount ;;
        if negb (pos =? nullptr) then
          if negb (pos =? oldpos) then
            part <- slice this oldpos pos ;;
            splitOnAnyWithoutEmptyParts_loop fuel' this characters
              characterCount end_ (pos + 1) (parts ++ [part])
          else
            splitOnAnyWithoutEmptyParts_loop fuel' this characters
              characterCount end_ (pos + 1) parts
        else
          part <- slice this oldpos end_ ;;
          ret (parts ++ [part])
    end
  else ret parts.

Definition splitOnAnyWithoutEmptyParts (this delimiters : StringView)
    : M (list StringView) :=
  let characters := _data delimiters in
  let characterCount := _size delimiters in
  let end_ := _data this + _size this in
  splitOnAnyWithoutEmptyParts_loop (Z.to_nat (_size this)) this characters
    characterCount end_ (_data this) [].


End Splitting.

(** ** Building strings, [StringView.cpp] lines 538-612 and 754-787

    A [String] under construction is its array of cells, [None] for a cell
    not written yet ([String{NoInit, size}]). [std::memcpy] into it reads
    the source bytes from memory and writes them at offset [out]; a write
    outside the array is dropped here, and the routines' own final
    accounting ([out == end]) is what shows that none was. *)

Abbreviation String := (list (option Z)) (only parsing).

Definition set_cell (buf : String) (i : nat) (b : char) : String :=
  firstn i buf ++
  match skipn i buf with
  | [] => []
  | _ :: rest => Some b :: rest
  end.

Fixpoint write_at (buf : String) (i : nat) (bs : list char) : String :=
  match bs with
  | [] => buf
  | b :: bs' => write_at (set_cell buf i b) (S i) bs'
  end.

Section Building.

Variable mem : memory.

Definition memcpy_into (buf : String) (out : Z) (src : ptr) (n : Z) : M String :=
  match peek mem (Z.to_nat n) src with
  | Some bs => ret (write_at buf (Z.to_nat out) bs)
  | None => fail (BadRead src)
  end.

(** One round of the copying loop of [join]: the string, then the delimiter
    unless the output is full. *)
Definition join_step (delimiter : StringView) (delimiterSize end_ : Z)
    (string : StringView) (state : String * Z) : M (String * Z) :=
  let (buf, out) := state in
  let stringSize := _size string in
  s1 <- (if negb (stringSize =? 0) then
           buf' <- memcpy_into buf out (_data string) stringSize ;;
           ret (buf', out + stringSize)
         else ret (buf, out)) ;;
  let (buf1, out1) := s1 in
  if negb (delimiterSize =? 0) && negb (out1 =? end_) then
    buf' <- memcpy_into buf1 out1 (_data delimiter) delimiterSize ;;
    ret (buf', out1 + delimiterSize)
  else ret (buf1, out1).

Fixpoint join_loop (delimiter : StringView) (delimiterSize end_ : Z)
    (strings : list StringView) (state : String * Z) : M (String * Z) :=
  match strings with
  | [] => ret state
  | string :: rest =>
      state' <- join_step delimiter delimiterSize end_ string state ;;
      join_loop delimiter delimiterSize end_ rest state'
  end.

(** [join]: [this] is the delimiter. *)
Definition join (this : StringView) (strings : list StringView) : M String :=
  let delimiterSize := _size this in
  let totalSize0 :=
    match strings with
    | [] => 0
    | _ => to_size_t ((Z.of_nat (length strings) - 1) * delimiterSize)
    end in
  let totalSize :=
    fold_left (fun total s => to_size_t (total + _size s)) strings totalSize0 in
  let result := repeat None (Z.to_nat totalSize) in
  state <- join_loop this delimiterSize totalSize strings (result, 0) ;;
  let (buf, out) := state in
  assert (out =? totalSize) ;;;
  ret buf.

Fixpoint joinWithoutEmptyParts_loop (delimiter : StringView)
    (delimiterSize end_ : Z) (strings : list StringView) (state : String * Z)
    : M (String * Z) :=
  match strings with
  | [] => ret state
  | string :: rest =>
      if isEmpty string then
        joinWithoutEmptyParts_loop delimiter delimiterSize end_ rest state
      else
        state' <- join_step delimiter delimiterSize end_ string state ;;
        joinWithoutEmptyParts_loop delimiter delimiterSize end_ rest state'
  end.

Definition joinWithoutEmptyParts (this : StringView) (strings : list StringView)
    : M String :=
  let delimiterSize := _size this in
  let totalSize1 :=
    fold_left (fun total s =>
                 if isEmpty s then total
                 else to_size_t (total + to_size_t (_size s + delimiterSize)))
              strings 0 in
  let totalSize :=
    if negb (totalSize1 =? 0) then to_size_t (totalSize1 - delimiterSize)
    else totalSize1 in
  let result := repeat None (Z.to_nat totalSize) in
  state <- joinWithoutEmptyParts_loop this delimiterSize totalSize strings
             (result, 0) ;;
  let (buf, out) := state in
  assert (out =? totalSize) ;;;
  ret buf.

(** [operator+] *)
Definition operator_plus (a b : StringView) : M String :=
  let aSize := _size a in
  let bSize := _size b in
  let result := repeat None (Z.to_nat (to_size_t (aSize + bSize))) in
  r1 <- (if negb (aSize =? 0) then memcpy_into result 0 (_data a) aSize
         else ret result) ;;
  if negb (bSize =? 0) then memcpy_into r1 aSize (_data b) bSize
  else ret r1.

(** The copying loop of [operator*], [i] running up to [count]. *)
Fixpoint operator_times_loop (string : StringView) (size : Z) (todo : nat)
    (i : Z) (buf : String) : M String :=
  match todo with
  | O => ret buf
  | S todo' =>
      buf' <- memcpy_into buf (to_size_t (i * size)) (_data string) size ;;
      operator_times_loop string size todo' (i + 1) buf'
  end.

Definition operator_times (string : StringView) (count : Z) : M String :=
  let size := _size string in
  let result := repeat None (Z.to_nat (to_size_t (size * count))) in
  if negb (size =? 0) then
    operator_times_loop string size (Z.to_nat count) 0 result
  else ret result.

End Building.

(** ** [Utility::String]: case conversion and character replacement

    These routines write through a mutable view: the memory after the call
    is part of the result. A [char] holds a byte; the arithmetic below is
    carried out modulo 256, which is what it comes to whether [char] is
    signed or not. *)

Definition store8 (mem : memory) (p : ptr) (b : char) : memory :=
  fun a => if a =? p then Some b else mem a.

Definition to_uint8 (x : Z) : Z := x mod 256.

(** [c += (std::uint8_t(c - 'A') < 26) << 5] *)
Definition lowercase_char (c : char) : char :=
  to_uint8 (c + Z.shiftl (Z.b2z (to_uint8 (c - byte_of_ascii "A") <? 26)) 5).

(** [c -= (std::uint8_t(c - 'a') < 26) << 5] *)
Definition uppercase_char (c : char) : char :=
  to_uint8 (c - Z.shiftl (Z.b2z (to_uint8 (c - byte_of_ascii "a") <? 26)) 5).

Fixpoint lowercaseInPlace_loop (mem : memory) (n : nat) (p : ptr) : M memory :=
  match n with
  | O => ret mem
  | S n' =>
      c <- load8 mem p ;;
      lowercaseInPlace_loop (store8 mem p (lowercase_char c)) n' (p + 1)
  end.

Definition lowercaseInPlace (mem : memory) (string : StringView) : M memory :=
  lowercaseInPlace_loop mem (Z.to_nat (_size string)) (_data string).

Fixpoint uppercaseInPlace_loop (mem : memory) (n : nat) (p : ptr) : M memory :=
  match n with
  | O => ret mem
  | S n' =>
      c <- load8 mem p ;;
      uppercaseInPlace_loop (store8 mem p (uppercase_char c)) n' (p + 1)
  end.

Definition uppercaseInPlace (mem : memory) (string : StringView) : M memory :=
  uppercaseInPlace_loop mem (Z.to_nat (_size string)) (_data string).

(** [for(char& c: string) if(c == search) c = replace;] *)
Fixpoint replaceAllInPlace_loop (mem : memory) (n : nat) (p : ptr)
    (search replace : char) : M memory :=
  match n with
  | O => ret mem
  | S n' =>
      c <- load8 mem p ;;
      if c =? search then
        replaceAllInPlace_loop (store8 mem p replace) n' (p + 1) search replace
      else replaceAllInPlace_loop mem n' (p + 1) search replace
  end.

Definition replaceAllInPlace (mem : memory) (string : StringView)
    (search replace : char) : M memory :=
  replaceAllInPlace_loop mem (Z.to_nat (_size string)) (_data string)
    search replace.

(** ** [Utility::String::parseNumberSequence]

    The parser state is the five locals of the function. The diagnostic
    printed for an unrecognized character is not modelled; the empty
    [Optional] returned with it is [None]. *)

Record ParseState : Type := {
  out : list Z;          (* the numbers collected so far *)
  hasNumber : bool;      (* whether we have a number already *)
  number : Z;            (* value of that number *)
  overflow : bool;       (* if we've overflown the 32 bits during parsing *)
  rangeStart : Z         (* if not ~0u, we're in a range *)
}.

Definition no_range : Z := to_uint32 (Z.lnot 0).

Definition is_sequence_delimiter (c : char) : bool :=
  (c =? byte_of_ascii ",") || (c =? byte_of_ascii ";")
  || (c =? byte_of_ascii " ") || (c =? 9) || (c =? 12) || (c =? 11)
  || (c =? 13) || (c =? 10).

(** [for(std::uint32_t& j: ...) j = rangeStart++] *)
Fixpoint fill_range (count : nat) (start : Z) : list Z :=
  match count with
  | O => []
  | S count' => start :: fill_range count' (to_uint32 (start + 1))
  end.

(** "End of string or a delimiter" *)
Definition at_delimiter (min max : Z) (s : ParseState) : ParseState :=
  if overflow s then
    {| out := out s; hasNumber := false; number := 0; overflow := false;
       rangeStart := rangeStart s |}
  else if negb (rangeStart s =? no_range) then
    let rangeEnd :=
      if hasNumber s && (number s <? max) then to_uint32 (number s + 1)
      else max in
    {| out := if rangeEnd >? rangeStart s
              then out s ++ fill_range
                              (Z.to_nat (to_uint32 (rangeEnd - rangeStart s)))
                              (rangeStart s)
              else out s;
       hasNumber := false; number := 0; overflow := false;
       rangeStart := no_range |}
  else if hasNumber s && (number s >=? min) && (number s <? max) then
    {| out := out s ++ [number s]; hasNumber := false; number := 0;
       overflow := false; rangeStart := rangeStart s |}
  else
    {| out := out s; hasNumber := false; number := 0; overflow := false;
       rangeStart := rangeStart s |}.

(** "Number" *)
Definition at_digit (c : char) (s : ParseState) : ParseState :=
  let next := (number s * 10 + (c - byte_of_ascii "0")) mod 2 ^ 64 in
  {| out := out s; hasNumber := true; number := to_uint32 next;
     overflow := if next >? no_range then true else overflow s;
     rangeStart := rangeStart s |}.

(** "Range specification" *)
Definition at_dash (min : Z) (s : ParseState) : ParseState :=
  {| out := out s; hasNumber := false; number := 0; overflow := overflow s;
     rangeStart := if hasNumber s && (number s >=? min) then number s else min |}.

(** The loop body for [i < string.size()], then the extra iteration for
    [i == string.size()], which takes the delimiter branch. *)
Fixpoint parseNumberSequence_loop (mem : memory) (n : nat) (p : ptr)
    (min max : Z) (s : ParseState) : M (option (list Z)) :=
  match n with
  | O => ret (Some (out (at_delimiter min max s)))
  | S n' =>
      c <- load8 mem p ;;
      if is_sequence_delimiter c then
        parseNumberSequence_loop mem n' (p + 1) min max (at_delimiter min max s)
      else if (c >=? byte_of_ascii "0") && (c <=? byte_of_ascii "9") then
        parseNumberSequence_loop mem n' (p + 1) min max (at_digit c s)
      else if c =? byte_of_ascii "-" then
        parseNumberSequence_loop mem n' (p + 1) min max (at_dash min s)
      else ret None
  end.

Definition parseNumberSequence (mem : memory) (string : StringView)
    (min max : Z) : M (option (list Z)) :=
  parseNumberSequence_loop mem (Z.to_nat (_size string)) (_data string) min max
    {| out := []; hasNumber := false; number := 0; overflow := false;
       rangeStart := no_range |}.

(** ** [std::string] helpers of [Utility::String]

    A [std::string] is the list of its bytes, and an
    [ArrayView<const char>] argument the list of the bytes it views.
    Positions are [std::size_t] values and [npos] is the largest of them.
    The members of [std::basic_string] the helpers call are given as the
    C++ standard describes them; one that throws [std::out_of_range]
    returns [None]. *)
Module Std.

Definition npos : Z := to_size_t (-1).

Definition size (string : list char) : Z := Z.of_nat (length string).

(** [find_first_not_of(s, 0, n)]: the lowest position holding none of the
    [n] characters at [s], [npos] if there is none. *)
Definition find_first_not_of (string characters : list char) : Z :=
  match find_first (not_in_set characters) string with
  | Some k => Z.of_nat k
  | None => npos
  end.

(** [find_last_not_of(s, npos, n)]: the highest such position. *)
Definition find_last_not_of (string characters : list char) : Z :=
  match find_last (not_in_set characters) string with
  | Some k => Z.of_nat k
  | None => npos
  end.

(** [erase(index, count)]: removes [min(count, size() - index)] characters
    starting at [index]; throws if [index > size()]. *)
Definition erase (string : list char) (index count : Z) : option (list char) :=
  if index >? size string then None
  else
    let n := Z.min count (size string - index) in
    Some (firstn (Z.to_nat index) string ++ skipn (Z.to_nat (index + n)) string).

(** [substr(pos, n)]: the [min(n, size() - pos)] characters starting at
    [pos]; throws if [pos > size()]. *)
Definition substr (string : list char) (pos n : Z) : option (list char) :=
  if pos >? size string then None
  else Some (sub string (Z.to_nat pos) (Z.to_nat (Z.min n (size string - pos)))).

(** [find(s, 0, n)]: the lowest position at which the [n] characters at [s]
    occur, [npos] if they do not. *)
Definition find (string separator : list char) : Z :=
  match first_from (matches_at string separator) 0
          (length string + 1 - length separator) with
  | Some k => Z.of_nat k
  | None => npos
  end.

(** [rfind(s, npos, n)]: the highest such position. *)
Definition rfind (string separator : list char) : Z :=
  match last_below (matches_at string separator)
          (length string + 1 - length separator) with
  | Some k => Z.of_nat k
  | None => npos
  end.

End Std.

(** *** Trimming, [String.cpp] lines 42-53 *)

Definition ltrimInPlace (string characters : list char) : option (list char) :=
  Std.erase string 0 (Std.find_first_not_of string characters).

Definition rtrimInPlace (string characters : list char) : option (list char) :=
  Std.erase string (to_size_t (Std.find_last_not_of string characters + 1))
    Std.npos.

Definition trimInPlace (string characters : list char) : option (list char) :=
  match rtrimInPlace string characters with
  | Some string' => ltrimInPlace string' characters
  | None => None
  end.

(** *** Partitioning, [String.cpp] lines 183-199 *)

Definition partitionInternal (string separator : list char)
    : option (list char * list char * list char) :=
  let pos := Std.find string separator in
  match Std.substr string 0 pos,
        (if pos =? Std.npos then Some []
         else Std.substr string pos (Std.size separator)),
        (if pos =? Std.npos then Some []
         else Std.substr string (to_size_t (pos + Std.size separator)) Std.npos)
  with
  | Some a, Some b, Some c => Some (a, b, c)
  | _, _, _ => None
  end.

Definition rpartitionInternal (string separator : list char)
    : option (list char * list char * list char) :=
  let pos := Std.rfind string separator in
  match (if pos =? Std.npos then Some [] else Std.substr string 0 pos),
        (if pos =? Std.npos then Some []
         else Std.substr string pos (Std.size separator)),
        (if pos =? Std.npos then Std.substr string 0 Std.npos
         else Std.substr string (to_size_t (pos + Std.size separator)) Std.npos)
  with
  | Some a, Some b, Some c => Some (a, b, c)
  | _, _, _ => None
  end.

(** ** Reference notions for views, splitting, joining and parsing *)

(** [v] views the bytes [bytes], laid out validly in [mem]. *)
Definition view_of (mem : memory) (v : StringView) (bytes : list char) : Prop :=
  valid_buffer mem (_data v) bytes /\ _size v = Z.of_nat (length bytes).

(** Lexicographic comparison of byte strings, a proper prefix being smaller. *)
Fixpoint lex_compare (xs ys : list char) : comparison :=
  match xs, ys with
  | [], [] => Eq
  | [], _ :: _ => Lt
  | _ :: _, [] => Gt
  | x :: xs', y :: ys' =>
      if x =? y then lex_compare xs' ys'
      else if x <? y then Lt else Gt
  end.

(** The bytes a view shows, read from memory. *)
Definition view_bytes (mem : memory) (v : StringView) : option (list char) :=
  peek mem (Z.to_nat (_size v)) (_data v).

(** The view of [n] bytes at offset [s] of a buffer at [data]. *)
Definition span_view (data : ptr) (sn : nat * nat) : StringView :=
  {| _data := data + Z.of_nat (fst sn); _size := Z.of_nat (snd sn) |}.

(** The maximal runs between the elements satisfying [p], as (offset,
    length) pairs: [start] and [len] describe the run being collected. *)
Fixpoint spans (p : char -> bool) (l : list char) (start len : nat)
    : list (nat * nat) :=
  match l with
  | [] => [(start, len)]
  | x :: l' =>
      if p x then (start, len) :: spans p l' (start + len + 1) 0
      else spans p l' start (S len)
  end.

(** The same runs as lists of bytes. *)
Fixpoint chunks (p : char -> bool) (l : list char) : list (list char) :=
  match l with
  | [] => [[]]
  | x :: l' =>
      if p x then [] :: chunks p l'
      else match chunks p l' with
           | c :: cs => (x :: c) :: cs
           | [] => [[x]]
           end
  end.

(** [ls] joined with [sep] between neighbours. *)
Fixpoint intercalate (sep : list char) (ls : list (list char)) : list char :=
  match ls with
  | [] => []
  | [c] => c
  | c :: rest => c ++ sep ++ intercalate sep rest
  end.

(** Non-empty runs and views. *)
Definition nonempty_span (sn : nat * nat) : bool := negb (snd sn =? 0)%nat.
Definition nonempty_view (v : StringView) : bool := negb (_size v =? 0).

(** The view [v] shows the bytes [c]: they are what memory holds under it. *)
Definition shows (mem : memory) (v : StringView) (c : list char) : Prop :=
  view_bytes mem v = Some c /\ _size v = Z.of_nat (length c).

(** The values a byte of memory can hold. *)
Definition is_byte (b : Z) : Prop := 0 <= b < 256.

(** The characters [parseNumberSequence] accepts: delimiters, decimal
    digits and the range dash. *)
Definition sequence_char (c : char) : bool :=
  is_sequence_delimiter c
  || ((byte_of_ascii "0" <=? c) && (c <=? byte_of_ascii "9"))
  || (c =? byte_of_ascii "-").

(** What the loop of [parseNumberSequence] keeps true of its locals. *)
Definition parse_inv (min max : Z) (s : ParseState) : Prop :=
  Forall (fun n => min <= n < max) (out s) /\
  0 <= number s < 2 ^ 32 /\
  min <= rangeStart s < 2 ^ 32.

(** *** Well-formed number sequences

    A piece is a number or a range whose ends may be missing; numbers are
    given by their decimal digits, most significant first. *)
Inductive Piece : Type :=
| Single (digits : list Z)
| Range (first last : list Z).

Definition digits_value_from (n : Z) (ds : list Z) : Z :=
  fold_left (fun n d => n * 10 + d) ds n.

Definition digits_value (ds : list Z) : Z := digits_value_from 0 ds.

Definition digit_chars (ds : list Z) : list char :=
  map (fun d => byte_of_ascii "0" + d) ds.

Definition piece_chars (p : Piece) : list char :=
  match p with
  | Single ds => digit_chars ds
  | Range a b => digit_chars a ++ byte_of_ascii "-" :: digit_chars b
  end.

(** Pieces, each followed by a delimiter, and a last piece. *)
Definition sequence_chars (ps : list (Piece * char)) (last : Piece) : list char :=
  concat (map (fun pd => piece_chars (fst pd) ++ [snd pd]) ps) ++ piece_chars last.

(** [count] consecutive numbers from [start]. *)
Definition Zseq (start : Z) (count : nat) : list Z :=
  map (fun k => start + Z.of_nat k) (seq 0 count).

Definition range_low (min : Z) (a : list Z) : Z :=
  match a with [] => min | _ => Z.max min (digits_value a) end.

Definition range_high (max : Z) (b : list Z) : Z :=
  match b with [] => max | _ => Z.min max (digits_value b + 1) end.

(** The numbers a piece stands for, within [[min, max)]. *)
Definition piece_numbers (min max : Z) (p : Piece) : list Z :=
  match p with
  | Single [] => []
  | Single ds =>
      if (min <=? digits_value ds) && (digits_value ds <? max)
      then [digits_value ds] else []
  | Range a b =>
      Zseq (range_low min a) (Z.to_nat (range_high max b - range_low min a))
  end.

Definition digits_ok (ds : list Z) : Prop :=
  Forall (fun d => 0 <= d <= 9) ds /\ digits_value ds < 2 ^ 32.

(** Numbers fit 32 bits, and a range does not start at the largest 32-bit
    value, which the parser uses to mean that it is not inside a range. *)
Definition piece_ok (min : Z) (p : Piece) : Prop :=
  match p with
  | Single ds => digits_ok ds
  | Range a b => digits_ok a /\ digits_ok b /\ range_low min a <> 2 ^ 32 - 1
  end.

(** The parser's locals between pieces, and after the characters of a
    piece. *)
Definition between_pieces (o : list Z) : ParseState :=
  {| out := o; hasNumber := false; number := 0; overflow := false;
     rangeStart := no_range |}.

Definition after_piece (min : Z) (o : list Z) (p : Piece) : ParseState :=
  match p with
  | Single ds =>
      {| out := o; hasNumber := negb (length ds =? 0)%nat;
         number := digits_value ds; overflow := false; rangeStart := no_range |}
  | Range a b =>
      {| out := o; hasNumber := negb (length b =? 0)%nat;
         number := digits_value b; overflow := false;
         rangeStart := range_low min a |}
  end.

(** The list without its longest prefix of elements satisfying [p]. *)
Fixpoint drop_while (p : char -> bool) (l : list char) : list char :=
  match l with
  | [] => []
  | x :: l' => if p x then drop_while p l' else l
  end.

(** [needle] occurs in [hay] at offset [o]. *)
Definition occurs_at (hay needle : list char) (o : nat) : Prop :=
  exists before after, hay = before ++ needle ++ after /\ length before = o.

(** ** Sample views

    Two texts side by side in memory, and views of them. *)
Definition view_at (p : ptr) (bytes : list char) : StringView :=
  {| _data := p; _size := Z.of_nat (length bytes) |}.

Definition banana : list char := bytes_of_string "banana".
Definition band : list char := bytes_of_string "band".
Definition ban : list char := bytes_of_string "ban".

Definition two_texts : memory := mem_union (mem_of 4096 banana) (mem_of 8192 band).

Definition greeting : list char := bytes_of_string "Hello, World".

Definition numbers_text : list char := bytes_of_string "1,3-5;70".

(** ** Monad laws used by the proofs *)

Lemma bind_val {A B} (m : M A) (k : A -> M B) a t :
  m = (Val a, t) -> bind m k = (result (k a), t ++ trace (k a)).
Proof.
  intros ->. unfold bind, result, trace. destruct (k a); reflexivity.
Qed.

Lemma result_bind {A B} (m : M A) (k : A -> M B) a :
  result m = Val a -> result (bind m k) = result (k a).
Proof.
  destruct m as [[x|f] t]; simpl; intros H; inversion H; subst.
  unfold bind, result. destruct (k a); reflexivity.
Qed.

Lemma trace_bind {A B} (m : M A) (k : A -> M B) a :
  result m = Val a -> trace (bind m k) = trace m ++ trace (k a).
Proof.
  destruct m as [[x|f] t]; simpl; intros H; inversion H; subst.
  unfold bind, trace. destruct (k a); reflexivity.
Qed.

(** ** Facts about the list references *)

Lemma find_first_Some p l k :
  find_first p l = Some k ->
  (k < length l)%nat /\ p (nth k l 0) = true /\
  forall j, (j < k)%nat -> p (nth j l 0) = false.
Proof.
  revert k. induction l as [|x l IH]; simpl; intros k H; [discriminate|].
  destruct (p x) eqn:Hx.
  - inversion H; subst. repeat split; [lia | assumption | intros; lia].
  - destruct (find_first p l) as [k'|]; simpl in H; inversion H; subst.
    destruct (IH k' eq_refl) as (Hlt & Hk & Hmin).
    repeat split; [lia | assumption |].
    intros [|j] Hj; [assumption | apply Hmin; lia].
Qed.

Lemma find_first_None p l :
  find_first p l = None ->
  forall j, (j < length l)%nat -> p (nth j l 0) = false.
Proof.
  induction l as [|x l IH]; simpl; intros H j Hj; [lia|].
  destruct (p x) eqn:Hx; [discriminate|].
  destruct (find_first p l); [discriminate|].
  destruct j; [assumption | apply IH; [reflexivity | lia]].
Qed.

Lemma find_first_unique p l k :
  (k < length l)%nat -> p (nth k l 0) = true ->
  (forall j, (j < k)%nat -> p (nth j l 0) = false) ->
  find_first p l = Some k.
Proof.
  intros Hk Hp Hmin. destruct (find_first p l) as [k'|] eqn:E.
  - destruct (find_first_Some _ _ _ E) as (Hk' & Hp' & Hmin').
    f_equal. destruct (Nat.lt_trichotomy k' k) as [Hlt|[Heq|Hgt]]; [|assumption|].
    + rewrite (Hmin _ Hlt) in Hp'. discriminate.
    + rewrite (Hmin' _ Hgt) in Hp. discriminate.
  - rewrite (find_first_None _ _ E _ Hk) in Hp. discriminate.
Qed.

Lemma find_first_absent p l :
  (forall j, (j < length l)%nat -> p (nth j l 0) = false) ->
  find_first p l = None.
Proof.
  intros H. destruct (find_first p l) as [k|] eqn:E; [|reflexivity].
  destruct (find_first_Some _ _ _ E) as (Hk & Hp & _).
  rewrite (H _ Hk) in Hp. discriminate.
Qed.

Lemma find_last_snoc p l x :
  find_last p (l ++ [x]) =
  if p x then Some (length l) else find_last p l.
Proof.
  induction l as [|y l IH]; simpl.
  - destruct (p x); reflexivity.
  - rewrite IH. destruct (p x); [reflexivity|].
    destruct (find_last p l); reflexivity.
Qed.

Lemma find_last_Some p l k :
  find_last p l = Some k ->
  (k < length l)%nat /\ p (nth k l 0) = true /\
  forall j, (k < j < length l)%nat -> p (nth j l 0) = false.
Proof.
  revert k. induction l as [|x l IH] using rev_ind; intros k H.
  - discriminate.
  - rewrite find_last_snoc in H. rewrite length_app; simpl.
    destruct (p x) eqn:Hx.
    + inversion H; subst. repeat split; [lia | | intros; lia].
      rewrite app_nth2, Nat.sub_diag by lia. assumption.
    + destruct (IH _ H) as (Hlt & Hk & Hmax).
      repeat split; [lia | rewrite app_nth1 by lia; assumption |].
      intros j Hj. destruct (Nat.eq_dec j (length l)) as [->|Hne].
      * rewrite app_nth2, Nat.sub_diag by lia. assumption.
      * rewrite app_nth1 by lia. apply Hmax. lia.
Qed.

Lemma find_last_None p l :
  find_last p l = None ->
  forall j, (j < length l)%nat -> p (nth j l 0) = false.
Proof.
  induction l as [|x l IH] using rev_ind; intros H j Hj; [simpl in Hj; lia|].
  rewrite find_last_snoc in H. rewrite length_app in Hj; simpl in Hj.
  destruct (p x) eqn:Hx; [discriminate|].
  destruct (Nat.eq_dec j (length l)) as [->|Hne].
  - rewrite app_nth2, Nat.sub_diag by lia. assumption.
  - rewrite app_nth1 by lia. apply IH; [assumption | lia].
Qed.

Lemma at_offset_first_bounds data p l :
  0 <= data -> (l <> [] -> 0 < data) ->
  at_offset data (find_first p l) = nullptr /\ find_first p l = None \/
  data <= at_offset data (find_first p l) < data + Z.of_nat (length l) /\
  at_offset data (find_first p l) <> nullptr.
Proof.
  intros H0 Hnn. destruct (find_first p l) as [k|] eqn:E; [right | left; auto].
  destruct (find_first_Some _ _ _ E) as (Hk & _). simpl. unfold nullptr.
  assert (l <> []) by (destruct l; [simpl in Hk; lia | discriminate]).
  specialize (Hnn H). lia.
Qed.

Lemma valid_bufferb_sound mem data bytes :
  valid_bufferb mem data bytes = true -> valid_buffer mem data bytes.
Proof.
  unfold valid_bufferb, valid_buffer. rewrite !andb_true_iff.
  intros [[[H0 Hnn] Hend] Hall]. repeat split.
  - lia.
  - destruct bytes; [congruence | lia].
  - lia.
  - intros k Hk. rewrite forallb_forall in Hall.
    specialize (Hall k). rewrite in_seq in Hall.
    assert (Hin : (0 <= k < 0 + length bytes)%nat) by lia.
    specialize (Hall Hin).
    destruct (mem (data + Z.of_nat k)); [|discriminate].
    apply Z.eqb_eq in Hall. congruence.
Qed.

(** ** Scalar routines against the list references *)

Section Scalar.

Variable mem : memory.

Lemma valid_buffer_mapped data bytes :
  valid_buffer mem data bytes -> mapped mem data bytes.
Proof. intros (_ & _ & _ & H). exact H. Qed.

Lemma mapped_cons p x l : mapped mem p (x :: l) -> mem p = Some x /\ mapped mem (p + 1) l.
Proof.
  intros H. split.
  - specialize (H O). simpl in H. rewrite Z.add_0_r in H. apply H. lia.
  - intros k Hk. specialize (H (S k)). simpl in H.
    replace (p + 1 + Z.of_nat k) with (p + Z.pos (Pos.of_succ_nat k)) by lia.
    apply H. lia.
Qed.

Lemma mapped_snoc p l x :
  mapped mem p (l ++ [x]) -> mapped mem p l /\ mem (p + Z.of_nat (length l)) = Some x.
Proof.
  intros H. split.
  - intros k Hk. specialize (H k). rewrite app_nth1 in H by lia.
    apply H. rewrite length_app. simpl. lia.
  - specialize (H (length l)). rewrite app_nth2, Nat.sub_diag in H by lia.
    apply H. rewrite length_app. simpl. lia.
Qed.

Lemma mapped_sub p l o m :
  mapped mem p l -> (o + m <= length l)%nat -> mapped mem (p + Z.of_nat o) (sub l o m).
Proof.
  intros H Hom k Hk. unfold sub in *.
  rewrite length_firstn, length_skipn in Hk.
  rewrite nth_firstn. replace (k <? m)%nat with true by (symmetry; apply Nat.ltb_lt; lia).
  rewrite nth_skipn.
  replace (p + Z.of_nat o + Z.of_nat k) with (p + Z.of_nat (o + k)) by lia.
  apply H. lia.
Qed.

Lemma length_sub l o m : (o + m <= length l)%nat -> length (sub l o m) = m.
Proof. intros H. unfold sub. rewrite length_firstn, length_skipn. lia. Qed.

Lemma load8_mapped p b : mem p = Some b -> load8 mem p = (Val b, [Rd8 p]).
Proof. intros H. unfold load8. rewrite H. reflexivity. Qed.

Lemma peek_mapped l : forall p, mapped mem p l -> peek mem (length l) p = Some l.
Proof.
  induction l as [|x l IH]; intros p H; [reflexivity|].
  destruct (mapped_cons _ _ _ H) as [Hx Hl]. simpl.
  rewrite Hx, (IH _ Hl). reflexivity.
Qed.

(** *** [memchr] *)

Lemma memchr_loop_scalar n : forall p c,
  Forall is_scalar_read (trace (memchr_loop mem n p c)).
Proof.
  induction n as [|n IH]; intros p c; simpl; [constructor|].
  unfold load8. destruct (mem p) as [b|].
  - rewrite (bind_val _ _ b [Rd8 p]) by reflexivity. simpl.
    constructor; [exact I|].
    destruct (b =? c); [constructor | apply IH].
  - simpl. constructor; [exact I | constructor].
Qed.

Lemma memchr_loop_spec c l : forall p,
  mapped mem p l ->
  result (memchr_loop mem (length l) p c)
  = Val (at_offset p (find_first (is_char c) l)).
Proof.
  induction l as [|x l IH]; intros p H; [reflexivity|].
  destruct (mapped_cons _ _ _ H) as [Hx Hl]. simpl.
  rewrite (result_bind _ _ x) by (rewrite (load8_mapped _ _ Hx); reflexivity).
  unfold is_char at 1. destruct (x =? c).
  - simpl. f_equal. lia.
  - rewrite (IH _ Hl). destruct (find_first (is_char c) l); simpl; f_equal. lia.
Qed.

Lemma memchr_spec p l c :
  mapped mem p l ->
  result (memchr mem p c (Z.of_nat (length l)))
  = Val (at_offset p (find_first (is_char c) l)).
Proof.
  intros H. unfold memchr. rewrite Nat2Z.id. apply memchr_loop_spec, H.
Qed.

Lemma find_first_existsb p l :
  existsb p l = match find_first p l with Some _ => true | None => false end.
Proof.
  induction l as [|x l IH]; simpl; [reflexivity|].
  destruct (p x); simpl; [reflexivity|].
  rewrite IH. destruct (find_first p l); reflexivity.
Qed.

(** Whether [memchr] over a character set reports a hit. *)
Lemma memchr_in_set characters chars b :
  valid_buffer mem characters chars ->
  exists q, result (memchr mem characters b (Z.of_nat (length chars))) = Val q /\
            negb (q =? nullptr) = in_set chars b.
Proof.
  intros Hv. pose proof (valid_buffer_mapped _ _ Hv) as Hm.
  destruct Hv as (H0 & Hnn & _).
  eexists. split; [apply memchr_spec, Hm|].
  unfold in_set. rewrite find_first_existsb.
  destruct (at_offset_first_bounds characters (is_char b) chars H0 Hnn)
    as [[E1 E2]|[_ E]].
  - rewrite E1, E2. reflexivity.
  - destruct (find_first (is_char b) chars); [|exfalso; apply E; reflexivity].
    apply negb_true_iff, Z.eqb_neq, E.
Qed.

(** *** The short path of the 128-bit implementation is the [memchr] scan *)

Lemma findCharacter_short_loop_memchr c n : forall p,
  findCharacter_short_loop mem n p (p + Z.of_nat n) c = memchr_loop mem n p c.
Proof.
  induction n as [|n IH]; intros p.
  - simpl. rewrite Z.add_0_r, Z.eqb_refl. reflexivity.
  - cbn [findCharacter_short_loop memchr_loop].
    replace (p =? p + Z.of_nat (S n)) with false by (symmetry; apply Z.eqb_neq; lia).
    cbn [negb].
    replace (p + Z.of_nat (S n)) with (p + 1 + Z.of_nat n) by lia.
    unfold bind, load8. destruct (mem p) as [b|]; [|reflexivity].
    rewrite IH. reflexivity.
Qed.

(** *** [stringFindLastCharacter] *)

Lemma stringFindLastCharacter_loop_spec data c l :
  mapped mem data l ->
  result (stringFindLastCharacter_loop mem (length l)
            (data + Z.of_nat (length l) - 1) data c)
  = Val (at_offset data (find_last (is_char c) l)).
Proof.
  induction l as [|x l IH] using rev_ind; intros H.
  - simpl. rewrite Z.geb_leb.
    replace (data <=? data + 0 - 1) with false by (symmetry; apply Z.leb_gt; lia).
    reflexivity.
  - destruct (mapped_snoc _ _ _ H) as [Hl Hx].
    rewrite length_app, Nat.add_1_r. cbn [length].
    replace (data + Z.of_nat (S (length l)) - 1)
      with (data + Z.of_nat (length l)) by lia.
    cbn [stringFindLastCharacter_loop]. rewrite Z.geb_leb.
    replace (data <=? data + Z.of_nat (length l)) with true
      by (symmetry; apply Z.leb_le; lia).
    rewrite (result_bind _ _ x) by (rewrite (load8_mapped _ _ Hx); reflexivity).
    rewrite find_last_snoc. unfold is_char at 1. destruct (x =? c).
    + reflexivity.
    + apply IH, Hl.
Qed.

Lemma stringFindLastCharacter_spec data bytes c :
  valid_buffer mem data bytes ->
  result (stringFindLastCharacter mem data (Z.of_nat (length bytes)) c)
  = Val (at_offset data (find_last (is_char c) bytes)).
Proof.
  intros Hv. pose proof (valid_buffer_mapped _ _ Hv) as Hm.
  destruct Hv as (H0 & Hnn & _).
  unfold stringFindLastCharacter. destruct (data =? nullptr) eqn:E.
  - apply Z.eqb_eq in E. unfold nullptr in E.
    destruct bytes; [reflexivity|].
    assert (0 < data) by (apply Hnn; discriminate). lia.
  - cbn [negb]. rewrite Nat2Z.id. apply stringFindLastCharacter_loop_spec, Hm.
Qed.

(** *** Any-of-set searches

    [Hset] is all the loops need from the character set: what [memchr]
    answers for each byte. *)

Section AnyOfSet.

Variables (characters : ptr) (characterCount : Z) (chars : list char).
Hypothesis Hset : forall b, exists q,
  result (memchr mem characters b characterCount) = Val q /\
  negb (q =? nullptr) = in_set chars b.

Lemma stringFindAny_loop_spec l : forall p end_,
  mapped mem p l -> end_ = p + Z.of_nat (length l) ->
  result (stringFindAny_loop mem (length l) p end_ characters characterCount)
  = Val (at_offset p (find_first (in_set chars) l)).
Proof.
  induction l as [|x l IH]; intros p end_ H ->.
  - simpl. rewrite Z.add_0_r, Z.eqb_refl. reflexivity.
  - destruct (mapped_cons _ _ _ H) as [Hx Hl].
    cbn [stringFindAny_loop length].
    replace (p =? p + Z.of_nat (S (length l))) with false
      by (symmetry; apply Z.eqb_neq; lia).
    cbn [negb].
    rewrite (result_bind _ _ x) by (rewrite (load8_mapped _ _ Hx); reflexivity).
    destruct (Hset x) as (q & Hq & Hqn).
    rewrite (result_bind _ _ q Hq), Hqn. cbn [find_first].
    destruct (in_set chars x).
    + simpl. f_equal. lia.
    + rewrite (IH (p + 1) _ Hl) by lia.
      destruct (find_first (in_set chars) l); simpl; f_equal. lia.
Qed.

Lemma stringFindNotAny_loop_spec l : forall p end_,
  mapped mem p l -> end_ = p + Z.of_nat (length l) ->
  result (stringFindNotAny_loop mem (length l) p end_ characters characterCount)
  = Val (at_offset p (find_first (not_in_set chars) l)).
Proof.
  induction l as [|x l IH]; intros p end_ H ->.
  - simpl. rewrite Z.add_0_r, Z.eqb_refl. reflexivity.
  - destruct (mapped_cons _ _ _ H) as [Hx Hl].
    cbn [stringFindNotAny_loop length].
    replace (p =? p + Z.of_nat (S (length l))) with false
      by (symmetry; apply Z.eqb_neq; lia).
    cbn [negb].
    rewrite (result_bind _ _ x) by (rewrite (load8_mapped _ _ Hx); reflexivity).
    destruct (Hset x) as (q & Hq & Hqn).
    rewrite (result_bind _ _ q Hq).
    replace (q =? nullptr) with (not_in_set chars x)
      by (unfold not_in_set; rewrite <- Hqn, negb_involutive; reflexivity).
    cbn [find_first]. destruct (not_in_set chars x).
    + simpl. f_equal. lia.
    + rewrite (IH (p + 1) _ Hl) by lia.
      destruct (find_first (not_in_set chars) l); simpl; f_equal. lia.
Qed.

Lemma stringFindLastAny_loop_spec data l :
  mapped mem data l ->
  result (stringFindLastAny_loop mem (length l) (data + Z.of_nat (length l))
            data characters characterCount)
  = Val (at_offset data (find_last (in_set chars) l)).
Proof.
  induction l as [|x l IH] using rev_ind; intros H.
  - simpl. rewrite Z.add_0_r, Z.eqb_refl. reflexivity.
  - destruct (mapped_snoc _ _ _ H) as [Hl Hx].
    rewrite length_app, Nat.add_1_r.
    cbn [stringFindLastAny_loop].
    replace (data + Z.of_nat (S (length l)) =? data) with false
      by (symmetry; apply Z.eqb_neq; lia).
    cbn [negb].
    replace (data + Z.of_nat (S (length l)) - 1)
      with (data + Z.of_nat (length l)) by lia.
    rewrite (result_bind _ _ x) by (rewrite (load8_mapped _ _ Hx); reflexivity).
    destruct (Hset x) as (q & Hq & Hqn).
    rewrite (result_bind _ _ q Hq), Hqn, find_last_snoc.
    destruct (in_set chars x); [reflexivity | apply IH, Hl].
Qed.

Lemma stringFindLastNotAny_loop_spec data l :
  mapped mem data l ->
  result (stringFindLastNotAny_loop mem (length l) (data + Z.of_nat (length l))
            data characters characterCount)
  = Val (at_offset data (find_last (not_in_set chars) l)).
Proof.
  induction l as [|x l IH] using rev_ind; intros H.
  - simpl. rewrite Z.add_0_r, Z.eqb_refl. reflexivity.
  - destruct (mapped_snoc _ _ _ H) as [Hl Hx].
    rewrite length_app, Nat.add_1_r.
    cbn [stringFindLastNotAny_loop].
    replace (data + Z.of_nat (S (length l)) =? data) with false
      by (symmetry; apply Z.eqb_neq; lia).
    cbn [negb].
    replace (data + Z.of_nat (S (length l)) - 1)
      with (data + Z.of_nat (length l)) by lia.
    rewrite (result_bind _ _ x) by (rewrite (load8_mapped _ _ Hx); reflexivity).
    destruct (Hset x) as (q & Hq & Hqn).
    rewrite (result_bind _ _ q Hq).
    replace (q =? nullptr) with (not_in_set chars x)
      by (unfold not_in_set; rewrite <- Hqn, negb_involutive; reflexivity).
    rewrite find_last_snoc.
    destruct (not_in_set chars x); [reflexivity | apply IH, Hl].
Qed.

End AnyOfSet.

(** With no characters to look for, [memchr] never reports a hit. *)
Lemma empty_set_memchr characters b :
  exists q, result (memchr mem characters b 0) = Val q /\
            negb (q =? nullptr) = in_set [] b.
Proof. exists nullptr. split; reflexivity. Qed.

End Scalar.

(** ** Substring search against the list references *)

Lemma compare_bytes_eq xs : forall ys,
  length xs = length ys -> (compare_bytes xs ys =? 0) = true <-> xs = ys.
Proof.
  induction xs as [|x xs IH]; intros [|y ys] Hl; simpl in *; try discriminate.
  - split; reflexivity.
  - destruct (x =? y) eqn:E.
    + apply Z.eqb_eq in E. subst y. rewrite IH by lia.
      split; [intros ->; reflexivity | intros H; inversion H; reflexivity].
    + apply Z.eqb_neq in E. split.
      * destruct (x <? y); discriminate.
      * intros H. inversion H. contradiction.
Qed.

Lemma matches_at_iff hay needle o :
  (o + length needle <= length hay)%nat ->
  matches_at hay needle o = true <-> sub hay o (length needle) = needle.
Proof.
  intros H. unfold matches_at. apply compare_bytes_eq, length_sub, H.
Qed.

Lemma first_from_Some f : forall count start k,
  first_from f start count = Some k ->
  (start <= k < start + count)%nat /\ f k = true /\
  (forall j, (start <= j < k)%nat -> f j = false) /\
  tried_from f start count = seq start (S k - start).
Proof.
  induction count as [|c IH]; intros start k H; simpl in H; [discriminate|].
  cbn [tried_from]. destruct (f start) eqn:E.
  - inversion H; subst.
    split; [lia | split; [assumption | split; [intros; lia|]]].
    replace (S k - k)%nat with 1%nat by lia. reflexivity.
  - destruct (IH _ _ H) as (Hr & Hk & Hmin & Ht).
    split; [lia | split; [assumption | split]].
    + intros j Hj. destruct (Nat.eq_dec j start) as [->|]; [assumption|].
      apply Hmin. lia.
    + rewrite Ht. replace (S k - start)%nat with (S (S k - S start)) by lia.
      reflexivity.
Qed.

Lemma first_from_None f : forall count start,
  first_from f start count = None ->
  (forall j, (start <= j < start + count)%nat -> f j = false) /\
  tried_from f start count = seq start count.
Proof.
  induction count as [|c IH]; intros start H; simpl in H.
  - split; [intros; lia | reflexivity].
  - cbn [tried_from]. destruct (f start) eqn:E; [discriminate|].
    destruct (IH _ H) as (Hall & Ht). split.
    + intros j Hj. destruct (Nat.eq_dec j start) as [->|]; [assumption|].
      apply Hall. lia.
    + rewrite Ht. reflexivity.
Qed.

Lemma last_below_Some f : forall count k,
  last_below f count = Some k ->
  (k < count)%nat /\ f k = true /\
  (forall j, (k < j < count)%nat -> f j = false) /\
  tried_below f count = rev (seq k (count - k)).
Proof.
  induction count as [|c IH]; intros k H; simpl in H; [discriminate|].
  cbn [tried_below]. destruct (f c) eqn:E.
  - inversion H; subst.
    split; [lia | split; [assumption | split; [intros; lia|]]].
    replace (S k - k)%nat with 1%nat by lia. reflexivity.
  - destruct (IH _ H) as (Hr & Hk & Hmax & Ht).
    split; [lia | split; [assumption | split]].
    + intros j Hj. destruct (Nat.eq_dec j c) as [->|]; [assumption|].
      apply Hmax. lia.
    + rewrite Ht. replace (S c - k)%nat with (S (c - k)) by lia.
      rewrite seq_S, rev_app_distr. simpl.
      replace (k + (c - k))%nat with c by lia. reflexivity.
Qed.

Lemma last_below_None f : forall count,
  last_below f count = None ->
  (forall j, (j < count)%nat -> f j = false) /\
  tried_below f count = rev (seq 0 count).
Proof.
  induction count as [|c IH]; intros H; simpl in H.
  - split; [intros; lia | reflexivity].
  - cbn [tried_below]. destruct (f c) eqn:E; [discriminate|].
    destruct (IH H) as (Hall & Ht). split.
    + intros j Hj. destruct (Nat.eq_dec j c) as [->|]; [assumption|].
      apply Hall. lia.
    + rewrite Ht, seq_S, rev_app_distr. reflexivity.
Qed.

Section Substring.

Variables (mem : memory) (data substring : ptr) (hay needle : list char).
Hypothesis Hhay : mapped mem data hay.
Hypothesis Hneedle : mapped mem substring needle.
Hypothesis Hfits : (length needle <= length hay)%nat.

Let n := length hay.
Let m := length needle.

Definition memcmp_event (o : nat) : access :=
  Memcmp (data + Z.of_nat o) substring (Z.of_nat m).

Lemma memcmp_at o :
  (o + m <= n)%nat ->
  memcmp mem (data + Z.of_nat o) substring (Z.of_nat m)
  = (Val (compare_bytes (sub hay o m) needle), [memcmp_event o]).
Proof.
  intros Ho.
  pose proof (peek_mapped mem _ _ (mapped_sub mem _ _ _ _ Hhay Ho)) as E1.
  rewrite (length_sub hay o m Ho) in E1.
  pose proof (peek_mapped mem _ _ Hneedle) as E2. fold m in E2.
  unfold memcmp. rewrite Nat2Z.id, E1, E2. reflexivity.
Qed.

Lemma stringFindString_loop_spec : forall count start fuel,
  (start + count = n - m + 1)%nat -> (count <= fuel)%nat ->
  stringFindString_loop mem fuel (data + Z.of_nat start)
    (data + Z.of_nat n - Z.of_nat m) substring (Z.of_nat m)
  = (Val (at_offset data (first_from (matches_at hay needle) start count)),
     map memcmp_event (tried_from (matches_at hay needle) start count)).
Proof.
  induction count as [|c IH]; intros start fuel Hs Hf.
  - replace (stringFindString_loop mem fuel (data + Z.of_nat start)
               (data + Z.of_nat n - Z.of_nat m) substring (Z.of_nat m))
      with (@ret Z nullptr); [reflexivity|].
    destruct fuel; simpl;
      (replace (data + Z.of_nat start <=? data + Z.of_nat n - Z.of_nat m)
         with false by (symmetry; apply Z.leb_gt; lia)); reflexivity.
  - destruct fuel as [|fuel]; [lia|].
    cbn [stringFindString_loop].
    replace (data + Z.of_nat start <=? data + Z.of_nat n - Z.of_nat m)
      with true by (symmetry; apply Z.leb_le; lia).
    rewrite (bind_val _ _ _ _ (memcmp_at start ltac:(lia))).
    cbn [first_from tried_from]. unfold matches_at at 1 3. fold m.
    destruct (compare_bytes (sub hay start m) needle =? 0).
    + reflexivity.
    + replace (data + Z.of_nat start + 1) with (data + Z.of_nat (S start)) by lia.
      rewrite (IH (S start) fuel) by lia. reflexivity.
Qed.

Lemma stringFindLastString_loop_spec : forall count fuel,
  (count <= n - m + 1)%nat -> (count <= fuel)%nat ->
  stringFindLastString_loop mem fuel (data + Z.of_nat count - 1) data
    substring (Z.of_nat m)
  = (Val (at_offset data (last_below (matches_at hay needle) count)),
     map memcmp_event (tried_below (matches_at hay needle) count)).
Proof.
  induction count as [|c IH]; intros fuel Hs Hf.
  - replace (stringFindLastString_loop mem fuel (data + Z.of_nat 0 - 1) data
               substring (Z.of_nat m))
      with (@ret Z nullptr); [reflexivity|].
    destruct fuel; simpl; rewrite Z.geb_leb;
      (replace (data <=? data + 0 - 1)
         with false by (symmetry; apply Z.leb_gt; lia)); reflexivity.
  - destruct fuel as [|fuel]; [lia|].
    replace (data + Z.of_nat (S c) - 1) with (data + Z.of_nat c) by lia.
    cbn [stringFindLastString_loop]. rewrite Z.geb_leb.
    replace (data <=? data + Z.of_nat c) with true
      by (symmetry; apply Z.leb_le; lia).
    rewrite (bind_val _ _ _ _ (memcmp_at c ltac:(lia))).
    cbn [last_below tried_below]. unfold matches_at at 1 3. fold m.
    destruct (compare_bytes (sub hay c m) needle =? 0).
    + reflexivity.
    + rewrite (IH fuel) by lia. reflexivity.
Qed.

Lemma stringFindString_spec :
  (0 < n)%nat ->
  stringFindString mem data (Z.of_nat n) substring (Z.of_nat m)
  = (Val (at_offset data (first_from (matches_at hay needle) 0 (n - m + 1))),
     map memcmp_event (tried_from (matches_at hay needle) 0 (n - m + 1))).
Proof.
  intros Hn. unfold stringFindString.
  replace (Z.of_nat m <=? Z.of_nat n) with true
    by (symmetry; apply Z.leb_le; unfold n, m; lia).
  replace (Z.of_nat n =? 0) with false by (symmetry; apply Z.eqb_neq; lia).
  rewrite Nat2Z.id.
  rewrite <- (Z.add_0_r data) at 1. change 0 with (Z.of_nat 0) at 1.
  apply stringFindString_loop_spec; unfold n, m in *; lia.
Qed.

Lemma stringFindLastString_spec :
  (0 < n)%nat ->
  stringFindLastString mem data (Z.of_nat n) substring (Z.of_nat m)
  = (Val (at_offset data (last_below (matches_at hay needle) (n - m + 1))),
     map memcmp_event (tried_below (matches_at hay needle) (n - m + 1))).
Proof.
  intros Hn. unfold stringFindLastString.
  replace (Z.of_nat m <=? Z.of_nat n) with true
    by (symmetry; apply Z.leb_le; unfold n, m; lia).
  replace (Z.of_nat n =? 0) with false by (symmetry; apply Z.eqb_neq; lia).
  rewrite Nat2Z.id.
  replace (data + Z.of_nat n - Z.of_nat m)
    with (data + Z.of_nat (n - m + 1) - 1) by (unfold n, m in *; lia).
  apply stringFindLastString_loop_spec; unfold n, m in *; lia.
Qed.

End Substring.

(** ** Vector lanes, masks and trailing zeros *)

Lemma to_int32_zero z : 0 <= z < 2 ^ 32 -> (to_int32 z =? 0) = (z =? 0).
Proof.
  intros Hz. unfold to_int32.
  change (2 ^ 32) with 4294967296 in *. change (2 ^ 31) with 2147483648.
  destruct (z =? 0) eqn:E.
  - apply Z.eqb_eq in E. subst z. reflexivity.
  - apply Z.eqb_neq in E. apply Z.eqb_neq.
    Z.div_mod_to_equations. lia.
Qed.

Lemma to_uint32_to_int32 z : 0 <= z < 2 ^ 32 -> to_uint32 (to_int32 z) = z.
Proof.
  intros Hz. unfold to_uint32, to_int32.
  change (2 ^ 32) with 4294967296 in *. change (2 ^ 31) with 2147483648.
  Z.div_mod_to_equations. lia.
Qed.

Lemma tzcnt_loop_found x k : forall n s,
  0 <= s <= k -> k < s + Z.of_nat n ->
  Z.testbit x k = true ->
  (forall j, s <= j < k -> Z.testbit x j = false) ->
  tzcnt_loop n s x = k.
Proof.
  induction n as [|n IH]; intros s Hs Hn Hk Hlow; [lia|].
  cbn [tzcnt_loop]. destruct (Z.testbit x s) eqn:E.
  - destruct (Z.eq_dec s k) as [|Hne]; [assumption|].
    rewrite Hlow in E by lia. discriminate.
  - apply IH; try lia; [|assumption | intros; apply Hlow; lia].
    destruct (Z.eq_dec s k) as [->|]; [congruence | lia].
Qed.

Lemma movemask_cmpeq_l c v :
  movemask_bits (mm_cmpeq_epi8 v (repeat c (length v))) = matchmask c v.
Proof.
  unfold mm_cmpeq_epi8. induction v as [|x v IH]; [reflexivity|].
  cbn [length repeat combine map movemask_bits matchmask fst snd].
  rewrite IH. destruct (x =? c); reflexivity.
Qed.

Lemma movemask_cmpeq_r c v :
  movemask_bits (mm_cmpeq_epi8 (repeat c (length v)) v) = matchmask c v.
Proof.
  unfold mm_cmpeq_epi8. induction v as [|x v IH]; [reflexivity|].
  cbn [length repeat combine map movemask_bits matchmask fst snd].
  rewrite IH, (Z.eqb_sym c x). destruct (x =? c); reflexivity.
Qed.

Lemma movemask_bits_range v : 0 <= movemask_bits v < 2 ^ Z.of_nat (length v).
Proof.
  induction v as [|x v IH]; [simpl; lia|].
  cbn [movemask_bits length]. rewrite Nat2Z.inj_succ, Z.pow_succ_r by lia.
  destruct (Z.testbit x 7); simpl Z.b2z; lia.
Qed.

Lemma matchmask_range c v : 0 <= matchmask c v < 2 ^ Z.of_nat (length v).
Proof.
  rewrite <- movemask_cmpeq_l.
  pose proof (movemask_bits_range (mm_cmpeq_epi8 v (repeat c (length v)))) as H.
  unfold mm_cmpeq_epi8 in H at 3.
  rewrite length_map, length_combine, repeat_length, Nat.min_id in H. exact H.
Qed.

Lemma matchmask_testbit c v : forall k,
  (k < length v)%nat ->
  Z.testbit (matchmask c v) (Z.of_nat k) = is_char c (nth k v 0).
Proof.
  induction v as [|x v IH]; intros k Hk; [simpl in Hk; lia|].
  cbn [matchmask]. rewrite Z.add_comm. destruct k as [|k].
  - change (Z.of_nat 0) with 0. rewrite Z.testbit_0_r. reflexivity.
  - rewrite Nat2Z.inj_succ, Z.testbit_succ_r by lia.
    apply IH. simpl in Hk. lia.
Qed.

Lemma matchmask_none c v :
  find_first (is_char c) v = None -> matchmask c v = 0.
Proof.
  induction v as [|x v IH]; [reflexivity|].
  cbn [find_first matchmask]. unfold is_char at 1.
  destruct (x =? c); [discriminate|].
  destruct (find_first (is_char c) v); [discriminate|].
  intros _. rewrite IH by reflexivity. reflexivity.
Qed.

Lemma matchmask_some c v k :
  (length v <= 32)%nat ->
  find_first (is_char c) v = Some k ->
  matchmask c v <> 0 /\ tzcnt_u32 (to_int32 (matchmask c v)) = Z.of_nat k.
Proof.
  intros Hlen H. destruct (find_first_Some _ _ _ H) as (Hk & Hp & Hmin).
  assert (Hbit : Z.testbit (matchmask c v) (Z.of_nat k) = true)
    by (rewrite matchmask_testbit; assumption).
  pose proof (matchmask_range c v) as Hr.
  assert (H32 : 2 ^ Z.of_nat (length v) <= 2 ^ 32)
    by (apply Z.pow_le_mono_r; lia).
  split.
  - intros E. rewrite E, Z.testbit_0_l in Hbit. discriminate.
  - unfold tzcnt_u32. rewrite to_uint32_to_int32 by lia.
    apply tzcnt_loop_found; try lia; [assumption|].
    intros j Hj. replace j with (Z.of_nat (Z.to_nat j)) by lia.
    rewrite matchmask_testbit by lia. apply Hmin. lia.
Qed.

Lemma matchmask_zero_iff c v :
  (length v <= 32)%nat ->
  (mm_movemask_epi8 (mm_cmpeq_epi8 v (repeat c (length v))) =? 0)
  = match find_first (is_char c) v with Some _ => false | None => true end.
Proof.
  intros Hlen. unfold mm_movemask_epi8. rewrite movemask_cmpeq_l.
  pose proof (matchmask_range c v) as Hr.
  assert (H32 : 2 ^ Z.of_nat (length v) <= 2 ^ 32)
    by (apply Z.pow_le_mono_r; lia).
  rewrite to_int32_zero by lia.
  destruct (find_first (is_char c) v) as [k|] eqn:E.
  - apply Z.eqb_neq. apply (matchmask_some c v k Hlen E).
  - apply Z.eqb_eq, matchmask_none, E.
Qed.

Lemma length_cmpeq a b : length a = length b -> length (mm_cmpeq_epi8 a b) = length a.
Proof.
  intros H. unfold mm_cmpeq_epi8.
  rewrite length_map, length_combine, <- H, Nat.min_id. reflexivity.
Qed.

Lemma length_or a b : length a = length b -> length (mm_or a b) = length a.
Proof.
  intros H. unfold mm_or.
  rewrite length_map, length_combine, <- H, Nat.min_id. reflexivity.
Qed.

Lemma movemask_or_zero u : forall v,
  length u = length v ->
  movemask_bits (mm_or u v) = 0 <->
  movemask_bits u = 0 /\ movemask_bits v = 0.
Proof.
  unfold mm_or. induction u as [|x u IH]; intros [|y v] Hl; simpl in Hl;
    try discriminate.
  - simpl. tauto.
  - cbn [combine map movemask_bits fst snd].
    rewrite Z.lor_spec.
    pose proof (movemask_bits_range u) as Hu.
    pose proof (movemask_bits_range v) as Hv.
    pose proof (movemask_bits_range
                  (map (fun xy => Z.lor (fst xy) (snd xy)) (combine u v))) as Huv.
    specialize (IH v ltac:(lia)).
    destruct (Z.testbit x 7), (Z.testbit y 7); cbn [orb Z.b2z]; lia.
Qed.

(** Rounding an address down to a multiple of [2 ^ w], as the mask
    [~(2 ^ w - 1)] does on a [std::uintptr_t]. *)
Lemma align_down_mask w p :
  0 <= w < uintptr_bits -> 0 <= p < 2 ^ uintptr_bits ->
  Z.land (to_uintptr p) (to_uintptr (Z.lnot (2 ^ w - 1))) = 2 ^ w * (p / 2 ^ w).
Proof.
  intros Hw Hp. unfold to_uintptr. rewrite (Z.mod_small p) by lia.
  replace (2 ^ w - 1) with (Z.ones w) by (rewrite Z.ones_equiv; lia).
  rewrite <- Z.shiftr_div_pow2, Z.mul_comm, <- Z.shiftl_mul_pow2 by lia.
  apply Z.bits_inj'. intros k Hk.
  rewrite Z.land_spec, Z.shiftl_spec by lia.
  destruct (Z.lt_ge_cases k uintptr_bits) as [Hlt|Hge].
  - rewrite Z.mod_pow2_bits_low, Z.lnot_spec, Z.testbit_ones by lia.
    destruct (Z.lt_ge_cases k w) as [Hkw|Hkw].
    + rewrite (Z.testbit_neg_r _ (k - w)) by lia.
      replace (0 <=? k) with true by (symmetry; apply Z.leb_le; lia).
      replace (k <? w) with true by (symmetry; apply Z.ltb_lt; lia).
      apply andb_false_r.
    + rewrite Z.shiftr_spec by lia.
      replace (k <? w) with false by (symmetry; apply Z.ltb_ge; lia).
      rewrite andb_false_r. cbn [negb]. rewrite andb_true_r.
      f_equal. lia.
  - rewrite Z.mod_pow2_bits_high, andb_false_r by (unfold uintptr_bits in *; lia).
    rewrite Z.shiftr_spec by lia.
    replace (k - w + w) with k by lia.
    symmetry. apply Z.bits_above_log2; [lia|].
    destruct (Z.eq_dec p 0) as [->|Hne]; [simpl; unfold uintptr_bits in *; lia|].
    apply Z.log2_lt_pow2; [lia|].
    apply Z.lt_le_trans with (2 ^ uintptr_bits); [lia|].
    apply Z.pow_le_mono_r; lia.
Qed.

(** ** The vector implementations against the list reference *)

Lemma vectorWidth_lanes t : vectorWidth t = Z.of_nat (lanes t).
Proof. destruct t; reflexivity. Qed.

Lemma lanes_range t : (0 < lanes t <= 32)%nat.
Proof. destruct t; unfold lanes; simpl; lia. Qed.

Lemma vectorWidth_pow2 t : exists w, 0 <= w < uintptr_bits /\ vectorWidth t = 2 ^ w.
Proof. destruct t; [exists 4 | exists 5]; split; unfold uintptr_bits; simpl; lia. Qed.

Lemma nth_sub l o m k : (k < m)%nat -> nth k (sub l o m) 0 = nth (o + k) l 0.
Proof.
  intros H. unfold sub. rewrite nth_firstn.
  replace (k <? m)%nat with true by (symmetry; apply Nat.ltb_lt; lia).
  apply nth_skipn.
Qed.

Lemma mm_loadu_ok mem t at_ v :
  peek mem (Z.to_nat (vectorWidth t)) at_ = Some v ->
  mm_loadu mem t at_ = (Val v, [RdVec (vectorWidth t) false at_]).
Proof. intros H. unfold mm_loadu, log, bind. rewrite H. reflexivity. Qed.

Lemma mm_load_ok mem t at_ v :
  to_uintptr at_ mod vectorWidth t = 0 ->
  peek mem (Z.to_nat (vectorWidth t)) at_ = Some v ->
  mm_load mem t at_ = (Val v, [RdVec (vectorWidth t) true at_]).
Proof.
  intros Ha H. unfold mm_load, log, bind. rewrite Ha, H. reflexivity.
Qed.

Section Vector.

Variables (mem : memory) (data : ptr) (bytes : list char) (c : char) (t : Tag).
Hypothesis Hv : valid_buffer mem data bytes.

Let n := length bytes.
Let W := lanes t.

(** No byte before offset [i] equals [c]. *)
Definition clean (i : nat) : Prop :=
  forall j, (j < i)%nat -> is_char c (nth j bytes 0) = false.

(** What one vector at offset [o] reports. *)
Definition chunk_result (o : nat) : ptr :=
  match find_first (is_char c) (sub bytes o W) with
  | Some k => data + Z.of_nat o + Z.of_nat k
  | None => nullptr
  end.

Lemma chunk_found i o k :
  clean i -> (o <= i)%nat -> (o + W <= n)%nat ->
  find_first (is_char c) (sub bytes o W) = Some k ->
  find_first (is_char c) bytes = Some (o + k)%nat.
Proof.
  intros Hc Hoi Hon H. destruct (find_first_Some _ _ _ H) as (Hk & Hp & Hmin).
  rewrite length_sub in Hk by assumption.
  apply find_first_unique.
  - fold n. lia.
  - rewrite <- nth_sub with (m := W) by assumption. assumption.
  - intros j Hj. destruct (Nat.lt_ge_cases j o) as [Hlt|Hge].
    + apply Hc. lia.
    + replace j with (o + (j - o))%nat by lia.
      rewrite <- nth_sub with (m := W) by lia. apply Hmin. lia.
Qed.

Lemma chunk_clean i o :
  clean i -> (o <= i)%nat -> (o + W <= n)%nat ->
  find_first (is_char c) (sub bytes o W) = None ->
  clean (o + W).
Proof.
  intros Hc Hoi Hon H j Hj. destruct (Nat.lt_ge_cases j o) as [Hlt|Hge].
  - apply Hc. lia.
  - replace j with (o + (j - o))%nat by lia.
    rewrite <- nth_sub with (m := W) by lia.
    apply (find_first_None _ _ H). rewrite length_sub by assumption. lia.
Qed.

Lemma clean_weaken i j : clean i -> (j <= i)%nat -> clean j.
Proof. intros H Hj k Hk. apply H. lia. Qed.

Lemma clean_all : clean n -> find_first (is_char c) bytes = None.
Proof. intros H. apply find_first_absent. exact H. Qed.

Lemma chunk_result_found i o k :
  clean i -> (o <= i)%nat -> (o + W <= n)%nat ->
  find_first (is_char c) (sub bytes o W) = Some k ->
  chunk_result o = at_offset data (find_first (is_char c) bytes) /\
  negb (chunk_result o =? nullptr) = true.
Proof.
  intros Hc Hoi Hon H. unfold chunk_result.
  rewrite H, (chunk_found i o k Hc Hoi Hon H). cbn [at_offset]. split; [lia|].
  destruct Hv as (H0 & Hnn & _).
  assert (bytes <> []).
  { intros E. pose proof (lanes_range t). unfold n, W in Hon.
    rewrite E in Hon. simpl in Hon. lia. }
  specialize (Hnn H1). apply negb_true_iff, Z.eqb_neq. unfold nullptr. lia.
Qed.

Lemma peek_chunk o :
  (o + W <= n)%nat ->
  peek mem (Z.to_nat (vectorWidth t)) (data + Z.of_nat o) = Some (sub bytes o W).
Proof.
  intros Ho. fold (lanes t). fold W.
  rewrite <- (length_sub bytes o W Ho) at 1.
  apply peek_mapped, mapped_sub; [apply valid_buffer_mapped, Hv | exact Ho].
Qed.

(** The mask test followed by the trailing-zero count, on one chunk. *)
Lemma mask_to_pointer o at_ :
  (o + W <= n)%nat -> at_ = data + Z.of_nat o ->
  (let mask := mm_movemask_epi8 (mm_cmpeq_epi8 (sub bytes o W) (mm_set1_epi8 t c)) in
   if negb (mask =? 0) then @ret Z (at_ + tzcnt_u32 mask) else ret nullptr)
  = ret (chunk_result o).
Proof.
  intros Ho ->. cbv zeta. unfold mm_set1_epi8, chunk_result.
  fold (lanes t). fold W.
  pose proof (length_sub bytes o W Ho) as HL.
  assert (Hlen : (length (sub bytes o W) <= 32)%nat).
  { rewrite HL. apply lanes_range. }
  remember (sub bytes o W) as v eqn:Ev. rewrite <- HL.
  rewrite matchmask_zero_iff by assumption.
  unfold mm_movemask_epi8. rewrite movemask_cmpeq_l.
  destruct (find_first (is_char c) v) as [k|] eqn:E; cbn [negb].
  - destruct (matchmask_some c _ k Hlen E) as [_ Htz]. rewrite Htz. reflexivity.
  - reflexivity.
Qed.

Lemma findCharacterSingleVectorUnaligned_spec o :
  (o + W <= n)%nat ->
  result (findCharacterSingleVectorUnaligned mem t (data + Z.of_nat o)
            (mm_set1_epi8 t c))
  = Val (chunk_result o).
Proof.
  intros Ho. unfold findCharacterSingleVectorUnaligned.
  rewrite (bind_val _ _ _ _ (mm_loadu_ok _ _ _ _ (peek_chunk o Ho))).
  cbn [result fst]. rewrite (mask_to_pointer o) by auto. reflexivity.
Qed.

Lemma in_address_space o :
  (o <= n)%nat -> to_uintptr (data + Z.of_nat o) = data + Z.of_nat o.
Proof.
  intros Ho. destruct Hv as (H0 & _ & Hend & _). fold n in Hend.
  unfold to_uintptr. apply Z.mod_small. lia.
Qed.

Lemma findCharacterSingleVector_spec o :
  (o + W <= n)%nat -> (data + Z.of_nat o) mod vectorWidth t = 0 ->
  result (findCharacterSingleVector mem t (data + Z.of_nat o) (mm_set1_epi8 t c))
  = Val (chunk_result o).
Proof.
  intros Ho Ha. unfold findCharacterSingleVector.
  assert (Ha' : to_uintptr (data + Z.of_nat o) mod vectorWidth t = 0)
    by (rewrite in_address_space by lia; exact Ha).
  rewrite Ha', Z.eqb_refl. unfold assert.
  rewrite (bind_val _ _ tt []) by reflexivity.
  rewrite (bind_val _ _ _ _ (mm_load_ok _ _ _ _ Ha' (peek_chunk o Ho))).
  cbn [result fst]. rewrite (mask_to_pointer o) by auto. reflexivity.
Qed.

(** The batch loop compares with the operands swapped. *)
Definition chunk_mask (o : nat) : Z :=
  mm_movemask_epi8 (mm_cmpeq_epi8 (mm_set1_epi8 t c) (sub bytes o W)).

Lemma chunk_mask_spec o :
  (o + W <= n)%nat ->
  (chunk_mask o =? 0)
  = match find_first (is_char c) (sub bytes o W) with
    | Some _ => false | None => true end /\
  forall k, find_first (is_char c) (sub bytes o W) = Some k ->
            tzcnt_u32 (chunk_mask o) = Z.of_nat k.
Proof.
  intros Ho. unfold chunk_mask, mm_set1_epi8, mm_movemask_epi8.
  fold (lanes t). fold W.
  pose proof (length_sub bytes o W Ho) as HL.
  assert (Hlen : (length (sub bytes o W) <= 32)%nat).
  { rewrite HL. apply lanes_range. }
  remember (sub bytes o W) as v eqn:Ev. rewrite <- HL.
  rewrite movemask_cmpeq_r.
  pose proof (matchmask_zero_iff c v Hlen) as Hz.
  unfold mm_movemask_epi8 in Hz. rewrite movemask_cmpeq_l in Hz.
  split; [exact Hz|].
  intros k Hk. apply (matchmask_some c v k Hlen Hk).
Qed.

Lemma length_chunk_eq o :
  (o + W <= n)%nat ->
  length (mm_cmpeq_epi8 (mm_set1_epi8 t c) (sub bytes o W)) = W.
Proof.
  intros Ho. rewrite length_cmpeq; unfold mm_set1_epi8; fold (lanes t); fold W;
    rewrite repeat_length; [reflexivity|].
  symmetry. apply length_sub, Ho.
Qed.

Lemma movemask_or_zerob u v :
  length u = length v -> (length u <= 32)%nat ->
  (mm_movemask_epi8 (mm_or u v) =? 0)
  = (mm_movemask_epi8 u =? 0) && (mm_movemask_epi8 v =? 0).
Proof.
  intros Hl H32. unfold mm_movemask_epi8.
  pose proof (movemask_bits_range u) as Hu.
  pose proof (movemask_bits_range v) as Hv'.
  pose proof (movemask_bits_range (mm_or u v)) as Huv.
  rewrite (length_or u v Hl) in Huv. rewrite <- Hl in Hv'.
  assert (H2 : 2 ^ Z.of_nat (length u) <= 2 ^ 32)
    by (apply Z.pow_le_mono_r; lia).
  rewrite !to_int32_zero by lia.
  pose proof (movemask_or_zero u v Hl) as Hiff.
  destruct (movemask_bits (mm_or u v) =? 0) eqn:E1,
           (movemask_bits u =? 0) eqn:E2,
           (movemask_bits v =? 0) eqn:E3; try reflexivity;
    rewrite ?Z.eqb_eq, ?Z.eqb_neq in *; exfalso; tauto.
Qed.

Let vn1 := mm_set1_epi8 t c.
Let end_ := data + Z.of_nat n.
Let expected := at_offset data (find_first (is_char c) bytes).

Lemma findCharacter_tail_spec io :
  clean io -> (io <= n)%nat -> (W <= n)%nat -> (n < io + W)%nat ->
  result (findCharacter_tail mem t (data + Z.of_nat io) end_ vn1) = Val expected.
Proof.
  intros Hc Hio HW Hlast. unfold findCharacter_tail, end_, expected.
  destruct (data + Z.of_nat io <? data + Z.of_nat n) eqn:E.
  - rewrite vectorWidth_lanes. fold W. rewrite Z.gtb_ltb.
    replace (data + Z.of_nat n <? data + Z.of_nat io + Z.of_nat W) with true
      by (symmetry; apply Z.ltb_lt; lia).
    rewrite (result_bind _ _ tt) by reflexivity.
    replace (data + Z.of_nat n - Z.of_nat W) with (data + Z.of_nat (n - W)) by lia.
    unfold vn1. rewrite findCharacterSingleVectorUnaligned_spec by lia.
    f_equal.
    destruct (find_first (is_char c) (sub bytes (n - W) W)) as [k|] eqn:F.
    + apply (chunk_result_found io (n - W) k); auto; lia.
    + unfold chunk_result. rewrite F.
      rewrite clean_all; [reflexivity|].
      replace n with (n - W + W)%nat at 1 by lia.
      apply (chunk_clean io); auto; lia.
  - apply Z.ltb_ge in E. assert (io = n) by lia. subst io.
    rewrite clean_all by assumption. reflexivity.
Qed.

Lemma aligned_next a w : a mod w = 0 -> (a + w) mod w = 0.
Proof.
  intros H. replace (a + w) with (a + 1 * w) by lia.
  rewrite Z_mod_plus_full. exact H.
Qed.

Lemma findCharacter_single_loop_spec : forall fuel io,
  clean io -> (io <= n)%nat -> (W <= n)%nat ->
  (data + Z.of_nat io) mod vectorWidth t = 0 ->
  (n - io <= fuel)%nat ->
  result (findCharacter_single_loop mem t fuel (data + Z.of_nat io) end_ vn1)
  = Val expected.
Proof.
  pose proof (lanes_range t) as HWr. fold W in HWr.
  induction fuel as [|fuel IH]; intros io Hc Hio HW Ha Hf;
    cbn [findCharacter_single_loop]; unfold end_;
    rewrite vectorWidth_lanes; fold W;
    destruct (data + Z.of_nat io + Z.of_nat W <=? data + Z.of_nat n) eqn:E;
    try (apply Z.leb_le in E); try (apply Z.leb_gt in E).
  - lia.
  - apply findCharacter_tail_spec; auto; lia.
  - unfold vn1.
    rewrite (result_bind _ _ (chunk_result io))
      by (apply findCharacterSingleVector_spec; [lia | exact Ha]).
    destruct (find_first (is_char c) (sub bytes io W)) as [k|] eqn:F.
    + destruct (chunk_result_found io io k Hc (Nat.le_refl _) ltac:(lia) F)
        as [E1 E2].
      rewrite E2, E1. reflexivity.
    + unfold chunk_result at 1. rewrite F. cbn [nullptr Z.eqb negb].
      replace (data + Z.of_nat io + Z.of_nat W)
        with (data + Z.of_nat (io + W)) by lia.
      apply IH; try lia.
      * apply (chunk_clean io io); auto; lia.
      * replace (data + Z.of_nat (io + W))
          with (data + Z.of_nat io + vectorWidth t)
          by (rewrite vectorWidth_lanes; fold W; lia).
        apply aligned_next, Ha.
  - apply findCharacter_tail_spec; auto; lia.
Qed.

Lemma load_chunk o :
  (o + W <= n)%nat -> (data + Z.of_nat o) mod vectorWidth t = 0 ->
  result (mm_load mem t (data + Z.of_nat o)) = Val (sub bytes o W).
Proof.
  intros Ho Ha. erewrite mm_load_ok; [reflexivity | | apply peek_chunk, Ho].
  rewrite in_address_space by lia. exact Ha.
Qed.

Lemma findCharacter_batch_loop_spec : forall fuel io,
  clean io -> (io <= n)%nat -> (W <= n)%nat ->
  (data + Z.of_nat io) mod vectorWidth t = 0 ->
  (n - io <= fuel)%nat ->
  result (findCharacter_batch_loop mem t fuel (data + Z.of_nat io) end_ vn1)
  = Val expected.
Proof.
  pose proof (lanes_range t) as HWr. fold W in HWr.
  induction fuel as [|fuel IH]; intros io Hc Hio HW Ha Hf;
    cbn [findCharacter_batch_loop]; cbv zeta; unfold end_;
    rewrite !vectorWidth_lanes; fold W;
    destruct (data + Z.of_nat io + 4 * Z.of_nat W <? data + Z.of_nat n) eqn:E;
    try (apply Z.ltb_lt in E); try (apply Z.ltb_ge in E).
  - lia.
  - apply findCharacter_single_loop_spec; auto.
  - assert (Ha1 : (data + Z.of_nat (io + W)) mod vectorWidth t = 0).
    { replace (data + Z.of_nat (io + W))
        with (data + Z.of_nat io + vectorWidth t)
        by (rewrite vectorWidth_lanes; fold W; lia).
      apply aligned_next, Ha. }
    assert (Ha2 : (data + Z.of_nat (io + W + W)) mod vectorWidth t = 0).
    { replace (data + Z.of_nat (io + W + W))
        with (data + Z.of_nat (io + W) + vectorWidth t)
        by (rewrite vectorWidth_lanes; fold W; lia).
      apply aligned_next, Ha1. }
    assert (Ha3 : (data + Z.of_nat (io + W + W + W)) mod vectorWidth t = 0).
    { replace (data + Z.of_nat (io + W + W + W))
        with (data + Z.of_nat (io + W + W) + vectorWidth t)
        by (rewrite vectorWidth_lanes; fold W; lia).
      apply aligned_next, Ha2. }
    assert (Ha4 : (data + Z.of_nat (io + W + W + W + W)) mod vectorWidth t = 0).
    { replace (data + Z.of_nat (io + W + W + W + W))
        with (data + Z.of_nat (io + W + W + W) + vectorWidth t)
        by (rewrite vectorWidth_lanes; fold W; lia).
      apply aligned_next, Ha3. }
    replace (data + Z.of_nat io + 0 * Z.of_nat W) with (data + Z.of_nat io) by lia.
    replace (data + Z.of_nat io + 1 * Z.of_nat W)
      with (data + Z.of_nat (io + W)) by lia.
    replace (data + Z.of_nat io + 2 * Z.of_nat W)
      with (data + Z.of_nat (io + W + W)) by lia.
    replace (data + Z.of_nat io + 3 * Z.of_nat W)
      with (data + Z.of_nat (io + W + W + W)) by lia.
    replace (data + Z.of_nat io + 4 * Z.of_nat W)
      with (data + Z.of_nat (io + W + W + W + W)) by lia.
    rewrite (result_bind _ _ _ (load_chunk io ltac:(lia) Ha)).
    rewrite (result_bind _ _ _ (load_chunk (io + W) ltac:(lia) Ha1)).
    rewrite (result_bind _ _ _ (load_chunk (io + W + W) ltac:(lia) Ha2)).
    rewrite (result_bind _ _ _ (load_chunk (io + W + W + W) ltac:(lia) Ha3)).
    unfold vn1.
    rewrite !movemask_or_zerob
      by (rewrite ?length_or, ?length_chunk_eq; rewrite ?length_chunk_eq; lia).
    fold (chunk_mask io). fold (chunk_mask (io + W)).
    fold (chunk_mask (io + W + W)). fold (chunk_mask (io + W + W + W)).
    destruct (chunk_mask_spec io ltac:(lia)) as [Za Ta].
    destruct (chunk_mask_spec (io + W) ltac:(lia)) as [Zb Tb].
    destruct (chunk_mask_spec (io + W + W) ltac:(lia)) as [Zc Tc].
    destruct (chunk_mask_spec (io + W + W + W) ltac:(lia)) as [Zd Td].
    rewrite Za, Zb, Zc, Zd.
    destruct (find_first (is_char c) (sub bytes io W)) as [ka|] eqn:Fa.
    { cbn [andb negb]. rewrite (Ta _ eq_refl). unfold expected.
      rewrite (chunk_found io io ka Hc (Nat.le_refl _) ltac:(lia) Fa).
      cbn [result fst ret at_offset]. f_equal. lia. }
    pose proof (chunk_clean io io Hc (Nat.le_refl _) ltac:(lia) Fa) as Hc1.
    destruct (find_first (is_char c) (sub bytes (io + W) W)) as [kb|] eqn:Fb.
    { cbn [andb negb]. rewrite (Tb _ eq_refl). unfold expected.
      rewrite (chunk_found _ (io + W) kb Hc1 (Nat.le_refl _) ltac:(lia) Fb).
      cbn [result fst ret at_offset]. f_equal. lia. }
    pose proof (chunk_clean _ (io + W) Hc1 (Nat.le_refl _) ltac:(lia) Fb) as Hc2.
    destruct (find_first (is_char c) (sub bytes (io + W + W) W)) as [kc|] eqn:Fc.
    { cbn [andb negb]. rewrite (Tc _ eq_refl). unfold expected.
      rewrite (chunk_found _ (io + W + W) kc Hc2 (Nat.le_refl _) ltac:(lia) Fc).
      cbn [result fst ret at_offset]. f_equal. lia. }
    pose proof (chunk_clean _ (io + W + W) Hc2 (Nat.le_refl _) ltac:(lia) Fc) as Hc3.
    destruct (find_first (is_char c) (sub bytes (io + W + W + W) W))
      as [kd|] eqn:Fd.
    { cbn [andb negb]. rewrite (Td _ eq_refl). unfold expected.
      rewrite (chunk_found _ (io + W + W + W) kd Hc3 (Nat.le_refl _) ltac:(lia) Fd).
      cbn [result fst ret at_offset]. f_equal. lia. }
    pose proof (chunk_clean _ (io + W + W + W) Hc3 (Nat.le_refl _) ltac:(lia) Fd)
      as Hc4.
    cbn [andb negb]. apply IH; auto; lia.
  - apply findCharacter_single_loop_spec; auto.
Qed.

Lemma clean_0 : clean 0.
Proof. intros j Hj. lia. Qed.

Lemma findCharacter_vector_spec :
  (W <= n)%nat ->
  result (findCharacter_vector mem t data (Z.of_nat n) c) = Val expected.
Proof.
  intros HW. pose proof (lanes_range t) as HWr. fold W in HWr.
  unfold findCharacter_vector. cbv zeta.
  rewrite (result_bind _ _ (chunk_result 0)).
  2:{ rewrite <- (Z.add_0_r data) at 1. change 0 with (Z.of_nat 0) at 1.
      apply findCharacterSingleVectorUnaligned_spec. lia. }
  destruct (find_first (is_char c) (sub bytes 0 W)) as [k|] eqn:F.
  - destruct (chunk_result_found 0 0 k clean_0 (Nat.le_refl _) ltac:(lia) F)
      as [E1 E2].
    rewrite E2, E1. reflexivity.
  - unfold chunk_result at 1. rewrite F. cbn [nullptr Z.eqb negb].
    pose proof (chunk_clean 0 0 clean_0 (Nat.le_refl _) ltac:(lia) F) as HcW.
    destruct Hv as (H0 & _ & Hend & _). fold n in Hend.
    destruct (vectorWidth_pow2 t) as (w & Hw & EW).
    assert (HV : vectorWidth t = Z.of_nat W) by apply vectorWidth_lanes.
    assert (Hal : Z.land (to_uintptr (data + vectorWidth t))
                    (to_uintptr (Z.lnot (vectorWidth t - 1)))
                  = vectorWidth t * ((data + vectorWidth t) / vectorWidth t)).
    { rewrite EW. apply align_down_mask; [exact Hw|]. rewrite <- EW, HV. lia. }
    rewrite Hal. clear Hal.
    pose proof (Z.div_mod (data + vectorWidth t) (vectorWidth t)
                  ltac:(rewrite HV; lia)) as Hdm.
    pose proof (Z.mod_pos_bound (data + vectorWidth t) (vectorWidth t)
                  ltac:(rewrite HV; lia)) as Hr.
    assert (Hmod : (vectorWidth t * ((data + vectorWidth t) / vectorWidth t))
                     mod vectorWidth t = 0)
      by (rewrite Z.mul_comm; apply Z_mod_mult).
    set (i := vectorWidth t * ((data + vectorWidth t) / vectorWidth t)) in *.
    assert (Hi : data < i <= data + Z.of_nat W) by lia.
    replace i with (data + Z.of_nat (Z.to_nat (i - data))) in * by lia.
    set (io := Z.to_nat (i - data)) in *.
    assert (Hio : (0 < io <= W)%nat) by lia.
    rewrite in_address_space by lia.
    rewrite Hmod, Z.eqb_refl, Z.geb_leb.
    replace (data <=? data + Z.of_nat io) with true
      by (symmetry; apply Z.leb_le; lia).
    cbn [andb assert].
    rewrite (result_bind _ _ tt) by reflexivity.
    rewrite Nat2Z.id.
    apply findCharacter_batch_loop_spec; auto; try lia.
    apply (clean_weaken (0 + W)); [exact HcW | lia].
Qed.

End Vector.

(** *** The three implementations of [stringFindCharacter] *)

Lemma stringFindCharacterImplementation_Scalar_spec mem data bytes c :
  valid_buffer mem data bytes ->
  result (stringFindCharacterImplementation_Scalar mem data
            (Z.of_nat (length bytes)) c)
  = Val (at_offset data (find_first (is_char c) bytes)).
Proof.
  intros Hv. apply memchr_spec, valid_buffer_mapped, Hv.
Qed.

Lemma stringFindCharacterImplementation_Sse2Bmi1_short mem data size c :
  0 <= size < 16 ->
  stringFindCharacterImplementation_Sse2Bmi1 mem data size c
  = stringFindCharacterImplementation_Scalar mem data size c.
Proof.
  intros Hs. unfold stringFindCharacterImplementation_Sse2Bmi1,
    stringFindCharacterImplementation_Scalar, memchr.
  replace (size <? 16) with true by (symmetry; apply Z.ltb_lt; lia).
  cbv zeta. rewrite <- (Z2Nat.id size) at 2 by lia.
  apply findCharacter_short_loop_memchr.
Qed.

Lemma stringFindCharacterImplementation_Sse2Bmi1_spec mem data bytes c :
  valid_buffer mem data bytes ->
  result (stringFindCharacterImplementation_Sse2Bmi1 mem data
            (Z.of_nat (length bytes)) c)
  = Val (at_offset data (find_first (is_char c) bytes)).
Proof.
  intros Hv. destruct (Z.lt_ge_cases (Z.of_nat (length bytes)) 16) as [Hlt|Hge].
  - rewrite stringFindCharacterImplementation_Sse2Bmi1_short by lia.
    apply stringFindCharacterImplementation_Scalar_spec, Hv.
  - unfold stringFindCharacterImplementation_Sse2Bmi1.
    replace (Z.of_nat (length bytes) <? 16) with false
      by (symmetry; apply Z.ltb_ge; lia).
    cbv zeta. apply findCharacter_vector_spec; [exact Hv|].
    unfold lanes. simpl. lia.
Qed.

Lemma stringFindCharacterImplementation_Avx2Bmi1_spec mem data bytes c :
  valid_buffer mem data bytes ->
  result (stringFindCharacterImplementation_Avx2Bmi1 mem data
            (Z.of_nat (length bytes)) c)
  = Val (at_offset data (find_first (is_char c) bytes)).
Proof.
  intros Hv. unfold stringFindCharacterImplementation_Avx2Bmi1.
  destruct (Z.of_nat (length bytes) <? 32) eqn:E.
  - apply stringFindCharacterImplementation_Sse2Bmi1_spec, Hv.
  - apply Z.ltb_ge in E. apply findCharacter_vector_spec; [exact Hv|].
    unfold lanes. simpl. lia.
Qed.

Lemma stringFindCharacter_spec mem tier data bytes c :
  valid_buffer mem data bytes ->
  result (stringFindCharacter mem tier data (Z.of_nat (length bytes)) c)
  = Val (at_offset data (find_first (is_char c) bytes)).
Proof.
  intros Hv. destruct tier; cbn [stringFindCharacter].
  - apply stringFindCharacterImplementation_Scalar_spec, Hv.
  - apply stringFindCharacterImplementation_Sse2Bmi1_spec, Hv.
  - apply stringFindCharacterImplementation_Avx2Bmi1_spec, Hv.
Qed.

(** *** Any-of-set searches on whole buffers *)

Section AnyOfSetTop.

Variables (mem : memory) (data characters : ptr) (bytes chars : list char).
Hypothesis Hv : valid_buffer mem data bytes.

Lemma stringFindAny_spec :
  valid_buffer mem characters chars ->
  result (stringFindAny mem data (Z.of_nat (length bytes)) characters
            (Z.of_nat (length chars)))
  = Val (at_offset data (find_first (in_set chars) bytes)).
Proof.
  intros Hc. unfold stringFindAny. rewrite Nat2Z.id.
  apply stringFindAny_loop_spec; [| apply valid_buffer_mapped, Hv | reflexivity].
  intros b. apply memchr_in_set, Hc.
Qed.

Lemma stringFindNotAny_spec :
  valid_buffer mem characters chars ->
  result (stringFindNotAny mem data (Z.of_nat (length bytes)) characters
            (Z.of_nat (length chars)))
  = Val (at_offset data (find_first (not_in_set chars) bytes)).
Proof.
  intros Hc. unfold stringFindNotAny. rewrite Nat2Z.id.
  apply stringFindNotAny_loop_spec; [| apply valid_buffer_mapped, Hv | reflexivity].
  intros b. apply memchr_in_set, Hc.
Qed.

Lemma stringFindLastAny_spec :
  valid_buffer mem characters chars ->
  result (stringFindLastAny mem data (Z.of_nat (length bytes)) characters
            (Z.of_nat (length chars)))
  = Val (at_offset data (find_last (in_set chars) bytes)).
Proof.
  intros Hc. unfold stringFindLastAny. rewrite Nat2Z.id.
  apply stringFindLastAny_loop_spec; [| apply valid_buffer_mapped, Hv].
  intros b. apply memchr_in_set, Hc.
Qed.

Lemma stringFindLastNotAny_spec :
  valid_buffer mem characters chars ->
  result (stringFindLastNotAny mem data (Z.of_nat (length bytes)) characters
            (Z.of_nat (length chars)))
  = Val (at_offset data (find_last (not_in_set chars) bytes)).
Proof.
  intros Hc. unfold stringFindLastNotAny. rewrite Nat2Z.id.
  apply stringFindLastNotAny_loop_spec; [| apply valid_buffer_mapped, Hv].
  intros b. apply memchr_in_set, Hc.
Qed.

(** The same with no characters at all; the set pointer is never read. *)

Lemma stringFindAny_empty_set :
  result (stringFindAny mem data (Z.of_nat (length bytes)) characters 0)
  = Val (at_offset data (find_first (in_set []) bytes)).
Proof.
  unfold stringFindAny. rewrite Nat2Z.id.
  apply stringFindAny_loop_spec; [| apply valid_buffer_mapped, Hv | reflexivity].
  intros b. apply empty_set_memchr.
Qed.

Lemma stringFindNotAny_empty_set :
  result (stringFindNotAny mem data (Z.of_nat (length bytes)) characters 0)
  = Val (at_offset data (find_first (not_in_set []) bytes)).
Proof.
  unfold stringFindNotAny. rewrite Nat2Z.id.
  apply stringFindNotAny_loop_spec; [| apply valid_buffer_mapped, Hv | reflexivity].
  intros b. apply empty_set_memchr.
Qed.

Lemma stringFindLastAny_empty_set :
  result (stringFindLastAny mem data (Z.of_nat (length bytes)) characters 0)
  = Val (at_offset data (find_last (in_set []) bytes)).
Proof.
  unfold stringFindLastAny. rewrite Nat2Z.id.
  apply stringFindLastAny_loop_spec; [| apply valid_buffer_mapped, Hv].
  intros b. apply empty_set_memchr.
Qed.

Lemma stringFindLastNotAny_empty_set :
  result (stringFindLastNotAny mem data (Z.of_nat (length bytes)) characters 0)
  = Val (at_offset data (find_last (not_in_set []) bytes)).
Proof.
  unfold stringFindLastNotAny. rewrite Nat2Z.id.
  apply stringFindLastNotAny_loop_spec; [| apply valid_buffer_mapped, Hv].
  intros b. apply empty_set_memchr.
Qed.

End AnyOfSetTop.

(** The reads of the sequential byte scan: one byte after the other from the
    start, up to and including the first match. *)
Lemma memchr_loop_trace mem c l : forall p,
  mapped mem p l ->
  trace (memchr_loop mem (length l) p c)
  = map (fun k => Rd8 (p + Z.of_nat k))
        (seq 0 (match find_first (is_char c) l with
                | Some k => S k
                | None => length l
                end)).
Proof.
  induction l as [|x l IH]; intros p H; [reflexivity|].
  destruct (mapped_cons _ _ _ _ H) as [Hx Hl].
  cbn [length memchr_loop find_first].
  rewrite (trace_bind _ _ x) by (rewrite (load8_mapped _ _ _ Hx); reflexivity).
  rewrite (load8_mapped _ _ _ Hx). cbn [trace snd app].
  unfold is_char at 1. destruct (x =? c).
  - cbn [seq map]. rewrite Z.add_0_r. reflexivity.
  - rewrite (IH _ Hl).
    assert (E : forall j, map (fun k => Rd8 (p + 1 + Z.of_nat k)) (seq 0 j)
                          = map (fun k => Rd8 (p + Z.of_nat k)) (seq 1 j)).
    { intros j. rewrite <- seq_shift, map_map. apply map_ext.
      intros k. f_equal. lia. }
    destruct (find_first (is_char c) l) as [k|]; cbn [option_map];
      rewrite E; cbn [seq map]; rewrite Z.add_0_r; reflexivity.
Qed.

(** ** Runs of the model

    The sample buffer is 43 bytes at address 4099. The 128-bit kernel reads
    one unaligned vector, the aligned vector at 4112, and finds 'z' (offset
    37) in the unaligned last vector, the one that ends where the buffer
    ends; so does the 256-bit kernel, which has no room for an aligned
    vector at all. On the 200-byte buffer the kernels go through their
    four-vector batches before the remaining single vectors. A memory that
    maps one byte less than [size] claims makes the vector kernel fault
    instead of returning. *)

Example run_sse2 :
  stringFindCharacterImplementation_Sse2Bmi1 sample_mem 4099 43 (byte_of_ascii "z")
  = (Val (4099 + 37),
     [RdVec 16 false 4099; RdVec 16 true 4112; RdVec 16 false 4126]).
Proof. vm_compute. reflexivity. Qed.

Example run_avx2 :
  stringFindCharacterImplementation_Avx2Bmi1 sample_mem 4099 43 (byte_of_ascii "z")
  = (Val (4099 + 37), [RdVec 32 false 4099; RdVec 32 false 4110]).
Proof. vm_compute. reflexivity. Qed.

Example run_scalar_short :
  stringFindCharacterImplementation_Sse2Bmi1
    (mem_of 4099 (bytes_of_string "banana")) 4099 6 (byte_of_ascii "n")
  = (Val (4099 + 2), [Rd8 4099; Rd8 4100; Rd8 4101]).
Proof. vm_compute. reflexivity. Qed.

Example run_batches :
  stringFindCharacterImplementation_Sse2Bmi1 (mem_of 4099 long_sample) 4099 200
    (byte_of_ascii "Q")
  = (Val (4099 + 150),
     [RdVec 16 false 4099;
      RdVec 16 true 4112; RdVec 16 true 4128; RdVec 16 true 4144;
      RdVec 16 true 4160;
      RdVec 16 true 4176; RdVec 16 true 4192; RdVec 16 true 4208;
      RdVec 16 true 4224;
      RdVec 16 true 4240]).
Proof. vm_compute. reflexivity. Qed.

Example run_not_found :
  stringFindCharacterImplementation_Avx2Bmi1 (mem_of 4099 long_sample) 4099 200
    (byte_of_ascii "R")
  = (Val nullptr,
     [RdVec 32 false 4099;
      RdVec 32 true 4128; RdVec 32 true 4160; RdVec 32 true 4192;
      RdVec 32 true 4224;
      RdVec 32 true 4256;
      RdVec 32 false 4267]).
Proof. vm_compute. reflexivity. Qed.

Example run_past_the_end :
  result (stringFindCharacterImplementation_Sse2Bmi1 sample_mem 4099 44
            (byte_of_ascii "!"))
  = Fault (BadRead 4127).
Proof. vm_compute. reflexivity. Qed.

(** * The claims *)

(** ** Byte search across the implementation tiers *)

Lemma sample_valid : valid_buffer sample_mem 4099 sample.
Proof. apply valid_bufferb_sound. vm_compute. reflexivity. Qed.

(** C1. On every valid buffer the 128-bit (SSE2+BMI1) implementation returns
    what the scalar reference returns, which is a pointer to the leftmost
    occurrence of the byte, or null when the byte does not occur. Below 16
    bytes it is the very same per-byte scan, read for read, and every read
    it issues is a scalar one. *)
Theorem C1_sse2_matches_scalar mem data bytes c :
  valid_buffer mem data bytes ->
  let size := Z.of_nat (length bytes) in
  let sse := stringFindCharacterImplementation_Sse2Bmi1 mem data size c in
  let ref := stringFindCharacterImplementation_Scalar mem data size c in
  result sse = result ref /\
  (exists r, result ref = Val r /\
     ((r = nullptr /\ forall k, (k < length bytes)%nat -> nth k bytes 0 <> c) \/
      (exists k, (k < length bytes)%nat /\ r = data + Z.of_nat k /\
                 r <> nullptr /\ nth k bytes 0 = c /\
                 forall j, (j < k)%nat -> nth j bytes 0 <> c))) /\
  (size < 16 ->
     sse = ref /\
     Forall is_scalar_read (trace sse) /\
     (forall e, In e (trace sse) -> ~ is_vector_load e) /\
     exists j, (j <= length bytes)%nat /\
               trace sse = map (fun k => Rd8 (data + Z.of_nat k)) (seq 0 j)).
Proof.
  intros Hv size sse ref. subst size sse ref.
  rewrite stringFindCharacterImplementation_Sse2Bmi1_spec,
    stringFindCharacterImplementation_Scalar_spec by exact Hv.
  split; [reflexivity | split].
  - eexists. split; [reflexivity|].
    destruct (find_first (is_char c) bytes) as [k|] eqn:E.
    + right. destruct (find_first_Some _ _ _ E) as (Hk & Hp & Hmin).
      exists k. cbn [at_offset]. repeat split; try assumption.
      * destruct Hv as (H0 & Hnn & _).
        assert (bytes <> []) by (destruct bytes; [simpl in Hk; lia | discriminate]).
        specialize (Hnn H). unfold nullptr. lia.
      * apply Z.eqb_eq, Hp.
      * intros j Hj. apply Z.eqb_neq, Hmin, Hj.
    + left. split; [reflexivity|].
      intros k Hk. apply Z.eqb_neq. apply (find_first_None _ _ E k Hk).
  - intros Hs.
    rewrite stringFindCharacterImplementation_Sse2Bmi1_short by lia.
    unfold stringFindCharacterImplementation_Scalar, memchr.
    rewrite Nat2Z.id. split; [reflexivity | split; [|split]].
    + apply memchr_loop_scalar.
    + intros e He Hvec.
      pose proof (memchr_loop_scalar mem (length bytes) data c) as Hall.
      rewrite Forall_forall in Hall. specialize (Hall e He).
      destruct e; simpl in *; contradiction.
    + rewrite memchr_loop_trace by (apply valid_buffer_mapped, Hv).
      destruct (find_first (is_char c) bytes) as [k|] eqn:E.
      * exists (S k). split; [|reflexivity].
        destruct (find_first_Some _ _ _ E) as (Hk & _). lia.
      * exists (length bytes). split; [lia | reflexivity].
Qed.

Lemma C1_sse2_matches_scalar_witness :
  valid_buffer sample_mem 4099 sample /\
  result (stringFindCharacterImplementation_Sse2Bmi1 sample_mem 4099
            (Z.of_nat (length sample)) (byte_of_ascii "z"))
  = result (stringFindCharacterImplementation_Scalar sample_mem 4099
              (Z.of_nat (length sample)) (byte_of_ascii "z")).
Proof.
  split; [exact sample_valid|].
  exact (proj1 (C1_sse2_matches_scalar sample_mem 4099 sample
                  (byte_of_ascii "z") sample_valid)).
Defined.

(** C2. Below 32 bytes the 256-bit (AVX2+BMI1) implementation is the 128-bit
    one, on every input; on every valid buffer of any size it returns what
    the scalar reference returns. *)
Theorem C2_avx2_delegates_and_matches_scalar mem data c :
  (forall size, size < 32 ->
     stringFindCharacterImplementation_Avx2Bmi1 mem data size c
     = stringFindCharacterImplementation_Sse2Bmi1 mem data size c) /\
  (forall bytes, valid_buffer mem data bytes ->
     result (stringFindCharacterImplementation_Avx2Bmi1 mem data
               (Z.of_nat (length bytes)) c)
     = result (stringFindCharacterImplementation_Scalar mem data
                 (Z.of_nat (length bytes)) c)).
Proof.
  split.
  - intros size Hs. unfold stringFindCharacterImplementation_Avx2Bmi1.
    replace (size <? 32) with true by (symmetry; apply Z.ltb_lt; lia).
    reflexivity.
  - intros bytes Hv.
    rewrite stringFindCharacterImplementation_Avx2Bmi1_spec,
      stringFindCharacterImplementation_Scalar_spec by exact Hv.
    reflexivity.
Qed.

Lemma C2_avx2_delegates_and_matches_scalar_witness :
  stringFindCharacterImplementation_Avx2Bmi1 sample_mem 4099 17 (byte_of_ascii "q")
  = stringFindCharacterImplementation_Sse2Bmi1 sample_mem 4099 17 (byte_of_ascii "q") /\
  (valid_buffer sample_mem 4099 sample /\
   result (stringFindCharacterImplementation_Avx2Bmi1 sample_mem 4099
             (Z.of_nat (length sample)) (byte_of_ascii "q"))
   = result (stringFindCharacterImplementation_Scalar sample_mem 4099
               (Z.of_nat (length sample)) (byte_of_ascii "q"))).
Proof.
  pose proof (C2_avx2_delegates_and_matches_scalar sample_mem 4099
                (byte_of_ascii "q")) as [Hshort Hall].
  split; [apply Hshort; lia|].
  split; [exact sample_valid | exact (Hall sample sample_valid)].
Defined.

(** ** Substring search *)

Lemma memcmp_zero mem a b : memcmp mem a b 0 = (Val 0, [Memcmp a b 0]).
Proof. reflexivity. Qed.

(** C3 (as amended). With an empty needle the forward search reports the
    start of the haystack (offset 0) and the backward search reports its end
    (offset [size], which is offset 0 only for an empty haystack); a needle
    longer than the haystack is not found by either, without any read. *)
Theorem C3_empty_and_oversized_needle mem data size substring :
  0 <= size ->
  result (stringFindString mem data size substring 0) = Val data /\
  result (stringFindLastString mem data size substring 0) = Val (data + size) /\
  forall substringSize, size < substringSize ->
    stringFindString mem data size substring substringSize = (Val nullptr, []) /\
    stringFindLastString mem data size substring substringSize = (Val nullptr, []).
Proof.
  intros Hs. split; [|split].
  - unfold stringFindString.
    replace (0 <=? size) with true by (symmetry; apply Z.leb_le; lia).
    destruct (size =? 0); [reflexivity|].
    cbn [stringFindString_loop].
    replace (data <=? data + size - 0) with true by (symmetry; apply Z.leb_le; lia).
    rewrite (result_bind _ _ 0) by (rewrite memcmp_zero; reflexivity).
    reflexivity.
  - unfold stringFindLastString.
    replace (0 <=? size) with true by (symmetry; apply Z.leb_le; lia).
    destruct (size =? 0) eqn:E.
    + apply Z.eqb_eq in E. subst size. rewrite Z.add_0_r. reflexivity.
    + cbn [stringFindLastString_loop]. rewrite Z.geb_leb.
      replace (data <=? data + size - 0) with true by (symmetry; apply Z.leb_le; lia).
      rewrite (result_bind _ _ 0) by (rewrite memcmp_zero; reflexivity).
      cbn [Z.eqb result ret fst]. f_equal. lia.
  - intros substringSize Hlt. unfold stringFindString, stringFindLastString.
    replace (substringSize <=? size) with false by (symmetry; apply Z.leb_gt; lia).
    split; reflexivity.
Qed.

Lemma C3_empty_and_oversized_needle_witness :
  0 <= 6 /\
  result (stringFindString (mem_of 4096 (bytes_of_string "banana")) 4096 6 8192 0)
  = Val 4096 /\
  result (stringFindLastString (mem_of 4096 (bytes_of_string "banana")) 4096 6 8192 0)
  = Val (4096 + 6).
Proof.
  split; [lia|].
  destruct (C3_empty_and_oversized_needle
              (mem_of 4096 (bytes_of_string "banana")) 4096 6 8192 ltac:(lia))
    as (Hfirst & Hlast & _).
  split; [exact Hfirst | exact Hlast].
Defined.

(** C3 as stated fails for the backward search: on the one-byte haystack
    "a" an empty needle is reported at offset 1, not at offset 0. *)
Lemma C3_backward_empty_needle_not_at_offset_0 :
  valid_buffer (mem_of 4096 (bytes_of_string "a")) 4096 (bytes_of_string "a") /\
  result (stringFindLastString (mem_of 4096 (bytes_of_string "a")) 4096 1 4096 0)
  = Val (4096 + 1) /\
  result (stringFindLastString (mem_of 4096 (bytes_of_string "a")) 4096 1 4096 0)
  <> Val (4096 + 0).
Proof.
  split; [apply valid_bufferb_sound; vm_compute; reflexivity|].
  split; [vm_compute; reflexivity | vm_compute; discriminate].
Qed.

(** Both substring searches on a needle that fits: the offset found, and the
    comparisons made on the way. *)
Lemma substring_search_outcomes mem data substring hay needle :
  valid_buffer mem data hay ->
  valid_buffer mem substring needle ->
  (0 < length needle <= length hay)%nat ->
  let n := length hay in
  let m := length needle in
  let attempt := fun o : nat =>
    Memcmp (data + Z.of_nat o) substring (Z.of_nat m) in
  let occurs := fun o : nat => sub hay o m = needle in
  (exists r t,
     stringFindString mem data (Z.of_nat n) substring (Z.of_nat m) = (Val r, t) /\
     ((exists o, (o + m <= n)%nat /\ occurs o /\
                 (forall j, (j < o)%nat -> ~ occurs j) /\
                 r = data + Z.of_nat o /\ r <> nullptr /\
                 t = map attempt (seq 0 (S o)))
      \/ ((forall j, (j + m <= n)%nat -> ~ occurs j) /\
          r = nullptr /\ t = map attempt (seq 0 (n - m + 1))))) /\
  (exists r t,
     stringFindLastString mem data (Z.of_nat n) substring (Z.of_nat m) = (Val r, t) /\
     ((exists o, (o + m <= n)%nat /\ occurs o /\
                 (forall j, (o < j)%nat -> (j + m <= n)%nat -> ~ occurs j) /\
                 r = data + Z.of_nat o /\ r <> nullptr /\
                 t = map attempt (rev (seq o (n - m + 1 - o))))
      \/ ((forall j, (j + m <= n)%nat -> ~ occurs j) /\
          r = nullptr /\ t = map attempt (rev (seq 0 (n - m + 1)))))).
Proof.
  intros Hv Hvn Hlen. cbv zeta.
  pose proof (valid_buffer_mapped _ _ _ Hv) as Hhay.
  pose proof (valid_buffer_mapped _ _ _ Hvn) as Hneedle.
  assert (Hpos : 0 < data).
  { destruct Hv as (_ & Hnn & _). apply Hnn. destruct hay; [simpl in Hlen; lia|].
    discriminate. }
  assert (Hno : forall o, (o + length needle <= length hay)%nat ->
                          matches_at hay needle o = false ->
                          sub hay o (length needle) <> needle).
  { intros o Ho Hf Hocc. apply (matches_at_iff hay needle o Ho) in Hocc.
    congruence. }
  split.
  - rewrite (stringFindString_spec mem data substring hay needle Hhay Hneedle)
      by lia.
    do 2 eexists. split; [reflexivity|].
    destruct (first_from (matches_at hay needle) 0
                (length hay - length needle + 1)) as [o|] eqn:E.
    + left. destruct (first_from_Some _ _ _ _ E) as (Hr & Ho & Hmin & Ht).
      exists o. split; [lia|]. split; [apply matches_at_iff; [lia | exact Ho]|].
      split; [intros j Hj; apply Hno; [lia | apply Hmin; lia]|].
      split; [reflexivity|]. split; [cbn [at_offset]; unfold nullptr; lia|].
      rewrite Ht, Nat.sub_0_r. reflexivity.
    + right. destruct (first_from_None _ _ _ E) as (Hall & Ht).
      split; [intros j Hj; apply Hno; [lia | apply Hall; lia]|].
      split; [reflexivity|]. rewrite Ht. reflexivity.
  - rewrite (stringFindLastString_spec mem data substring hay needle Hhay Hneedle)
      by lia.
    do 2 eexists. split; [reflexivity|].
    destruct (last_below (matches_at hay needle)
                (length hay - length needle + 1)) as [o|] eqn:E.
    + left. destruct (last_below_Some _ _ _ E) as (Hr & Ho & Hmax & Ht).
      exists o. split; [lia|]. split; [apply matches_at_iff; [lia | exact Ho]|].
      split; [intros j Hj Hjn; apply Hno; [lia | apply Hmax; lia]|].
      split; [reflexivity|]. split; [cbn [at_offset]; unfold nullptr; lia|].
      rewrite Ht. reflexivity.
    + right. destruct (last_below_None _ _ E) as (Hall & Ht).
      split; [intros j Hj; apply Hno; [lia | apply Hall; lia]|].
      split; [reflexivity|]. rewrite Ht. reflexivity.
Qed.

(** C4. For a needle that is not empty and not longer than the haystack, the
    forward search returns the smallest offset at which the needle occurs
    and the backward search the largest, null when it occurs nowhere; the
    forward search compares at offsets 0, 1, 2, ... and the backward search
    at offsets [size - substringSize], one less, ... until the first hit,
    each time with one [memcmp] over [substringSize] bytes. *)
Theorem C4_substring_first_and_last mem data substring hay needle :
  valid_buffer mem data hay ->
  valid_buffer mem substring needle ->
  (0 < length needle <= length hay)%nat ->
  let n := length hay in
  let m := length needle in
  let attempt := fun o : nat =>
    Memcmp (data + Z.of_nat o) substring (Z.of_nat m) in
  let occurs := fun o : nat => sub hay o m = needle in
  (exists r t,
     stringFindString mem data (Z.of_nat n) substring (Z.of_nat m) = (Val r, t) /\
     ((exists o, (o + m <= n)%nat /\ occurs o /\
                 (forall j, (j < o)%nat -> ~ occurs j) /\
                 r = data + Z.of_nat o /\ r <> nullptr /\
                 t = map attempt (seq 0 (S o)))
      \/ ((forall j, (j + m <= n)%nat -> ~ occurs j) /\
          r = nullptr /\ t = map attempt (seq 0 (n - m + 1))))) /\
  (exists r t,
     stringFindLastString mem data (Z.of_nat n) substring (Z.of_nat m) = (Val r, t) /\
     ((exists o, (o + m <= n)%nat /\ occurs o /\
                 (forall j, (o < j)%nat -> (j + m <= n)%nat -> ~ occurs j) /\
                 r = data + Z.of_nat o /\ r <> nullptr /\
                 t = map attempt (rev (seq o (n - m + 1 - o))))
      \/ ((forall j, (j + m <= n)%nat -> ~ occurs j) /\
          r = nullptr /\ t = map attempt (rev (seq 0 (n - m + 1)))))).
Proof. exact (substring_search_outcomes mem data substring hay needle). Qed.

Lemma C4_substring_first_and_last_witness :
  let mem := mem_union (mem_of 4096 (bytes_of_string "banana"))
                       (mem_of 8192 (bytes_of_string "an")) in
  valid_buffer mem 4096 (bytes_of_string "banana") /\
  valid_buffer mem 8192 (bytes_of_string "an") /\
  (0 < length (bytes_of_string "an") <= length (bytes_of_string "banana"))%nat /\
  exists r t, stringFindString mem 4096 6 8192 2 = (Val r, t).
Proof.
  intros mem.
  assert (Hv : valid_buffer mem 4096 (bytes_of_string "banana"))
    by (apply valid_bufferb_sound; vm_compute; reflexivity).
  assert (Hn : valid_buffer mem 8192 (bytes_of_string "an"))
    by (apply valid_bufferb_sound; vm_compute; reflexivity).
  assert (Hl : (0 < length (bytes_of_string "an")
                <= length (bytes_of_string "banana"))%nat)
    by (vm_compute; lia).
  split; [exact Hv|]. split; [exact Hn|]. split; [exact Hl|].
  destruct (C4_substring_first_and_last mem 4096 8192 _ _ Hv Hn Hl)
    as [(r & t & E & _) _].
  exists r, t. exact E.
Defined.

(** ** Empty inputs *)

(** C5. With [size = 0] every byte search and every any-of-set search
    returns null and reads nothing: whatever the data pointer (null
    included), whatever the memory, whatever the character set, and at every
    implementation tier of [stringFindCharacter]. *)
Theorem C5_zero_size_not_found_without_reads
    mem tier data character characters characterCount :
  stringFindCharacter mem tier data 0 character = (Val nullptr, []) /\
  stringFindLastCharacter mem data 0 character = (Val nullptr, []) /\
  stringFindAny mem data 0 characters characterCount = (Val nullptr, []) /\
  stringFindLastAny mem data 0 characters characterCount = (Val nullptr, []) /\
  stringFindNotAny mem data 0 characters characterCount = (Val nullptr, []) /\
  stringFindLastNotAny mem data 0 characters characterCount = (Val nullptr, []).
Proof.
  assert (Hshort : findCharacter_short_loop mem 0 data (data + 0) character
                   = (Val nullptr, []))
    by (simpl; rewrite Z.add_0_r, Z.eqb_refl; reflexivity).
  repeat split.
  - destruct tier; cbn; try exact Hshort. reflexivity.
  - unfold stringFindLastCharacter. destruct (data =? nullptr); [reflexivity|].
    simpl. rewrite Z.geb_leb.
    replace (data <=? data + 0 - 1) with false by (symmetry; apply Z.leb_gt; lia).
    reflexivity.
  - unfold stringFindAny. simpl. rewrite Z.add_0_r, Z.eqb_refl. reflexivity.
  - unfold stringFindLastAny. simpl. rewrite Z.add_0_r, Z.eqb_refl. reflexivity.
  - unfold stringFindNotAny. simpl. rewrite Z.add_0_r, Z.eqb_refl. reflexivity.
  - unfold stringFindLastNotAny. simpl. rewrite Z.add_0_r, Z.eqb_refl. reflexivity.
Qed.

(** ** Feature sets *)

Lemma contains_superset a b :
  0 <= b < 2 ^ 32 ->
  Simd.contains a b = true <->
  forall i, 0 <= i < 32 -> Simd.has b i = true -> Simd.has a i = true.
Proof.
  intros Hb. unfold Simd.contains, Simd.has. rewrite Z.eqb_eq. split.
  - intros E i Hi Hbi. rewrite <- E, Z.land_spec in Hbi.
    apply andb_true_iff in Hbi. tauto.
  - intros H. apply Z.bits_inj'. intros i Hi. rewrite Z.land_spec.
    destruct (Z.testbit b i) eqn:Ebi; [|apply andb_false_r].
    rewrite andb_true_r. destruct (Z.lt_ge_cases i 32) as [Hlt|Hge].
    + apply H; [lia | exact Ebi].
    + exfalso. destruct (Z.eq_dec b 0) as [->|Hne].
      * rewrite Z.testbit_0_l in Ebi. discriminate.
      * rewrite Z.bits_above_log2 in Ebi; [discriminate | lia |].
        apply Z.lt_le_trans with 32; [|lia].
        apply Z.log2_lt_pow2; lia.
Qed.

(** The comparisons [SimdTest::featuresCompare] checks. *)
Example featuresCompare_checks :
  let features := Simd.union (Simd.union Simd.Sse41 Simd.Sse2) Simd.Sse3 in
  Simd.le Simd.Scalar Simd.Sse41 = true /\
  Simd.ge Simd.Sse41 Simd.Scalar = true /\
  Simd.le Simd.Sse41 Simd.Sse41 = true /\
  Simd.ge Simd.Sse41 Simd.Sse41 = true /\
  Simd.le Simd.Sse41 features = true /\
  Simd.ge features Simd.Sse41 = true /\
  Simd.le features features = true /\
  Simd.ge features features = true /\
  Simd.le features (Simd.union features Simd.Ssse3) = true /\
  Simd.ge features (Simd.union features Simd.Ssse3) = false.
Proof. vm_compute. repeat split. Qed.

(** The mask values [SimdTest.cpp] expects of the set operators. *)
Example featuresOperators_checks :
  let features := Simd.union (Simd.union Simd.Sse41 Simd.Sse2) Simd.Sse3 in
  let features2 := Simd.union (Simd.union Simd.Sse41 Simd.Sse2) Simd.Ssse3 in
  Simd.union (Simd.union Simd.Sse3 Simd.Sse2) Simd.Ssse3 = 7 /\
  Simd.intersect Simd.Sse3 Simd.Sse2 = 0 /\
  Simd.intersect features features2 = 9 /\
  Simd.symmetricDifference features Simd.Ssse3 = 15 /\
  Simd.symmetricDifference features features2 = 6 /\
  Simd.complement Simd.Scalar = 4294967295 /\
  Simd.complement (Simd.union Simd.Sse41 Simd.Sse3) = 4294967285 /\
  Simd.complement Simd.Sse41 = 4294967287.
Proof. vm_compute. repeat split. Qed.

(** C6. On 32-bit feature masks [a <= b] holds exactly when every capability
    of [a] is a capability of [b], and [a >= b] exactly when every capability
    of [b] is one of [a]. The relation is not total: two disjoint non-empty
    sets are related by neither. *)
Theorem C6_features_subset_order (a b : Simd.Features) :
  0 <= a < 2 ^ 32 -> 0 <= b < 2 ^ 32 ->
  (Simd.le a b = true <->
   forall i, 0 <= i < 32 -> Simd.has a i = true -> Simd.has b i = true) /\
  (Simd.ge a b = true <->
   forall i, 0 <= i < 32 -> Simd.has b i = true -> Simd.has a i = true) /\
  (Simd.le a b = Simd.contains b a /\ Simd.ge a b = Simd.contains a b) /\
  exists x y : Simd.Features,
    x <> Simd.Scalar /\ y <> Simd.Scalar /\
    Simd.intersect x y = Simd.Scalar /\
    Simd.le x y = false /\ Simd.ge x y = false.
Proof.
  intros Ha Hb. split; [|split; [|split]].
  - apply contains_superset, Ha.
  - apply contains_superset, Hb.
  - split; reflexivity.
  - exists Simd.Sse2, Simd.Sse3. vm_compute. repeat split; discriminate.
Qed.

Lemma C6_features_subset_order_witness :
  (0 <= 3 < 2 ^ 32 /\ 0 <= 11 < 2 ^ 32) /\
  (Simd.le 3 11 = true <->
   forall i, 0 <= i < 32 -> Simd.has 3 i = true -> Simd.has 11 i = true).
Proof.
  split; [lia|].
  exact (proj1 (C6_features_subset_order 3 11 ltac:(lia) ltac:(lia))).
Defined.

(** ** The documented scenarios *)

(** C7. Sixteen 'a' followed by 'X', wherever the buffer lies in memory: at
    every tier the forward search finds 'X' at offset 16 and does not find
    'Z'; the backward search finds 'a' at offset 15 and does not find 'Z'. *)
Theorem C7_sixteen_a_then_X mem data :
  valid_buffer mem data (bytes_of_string "aaaaaaaaaaaaaaaaX") ->
  (forall tier,
     result (stringFindCharacter mem tier data 17 (byte_of_ascii "X"))
     = Val (data + 16) /\
     result (stringFindCharacter mem tier data 17 (byte_of_ascii "Z"))
     = Val nullptr) /\
  result (stringFindLastCharacter mem data 17 (byte_of_ascii "a"))
  = Val (data + 15) /\
  result (stringFindLastCharacter mem data 17 (byte_of_ascii "Z"))
  = Val nullptr.
Proof.
  intros Hv.
  change 17 with (Z.of_nat (length (bytes_of_string "aaaaaaaaaaaaaaaaX"))).
  split; [intros tier; split | split].
  - rewrite stringFindCharacter_spec by exact Hv. reflexivity.
  - rewrite stringFindCharacter_spec by exact Hv. reflexivity.
  - rewrite stringFindLastCharacter_spec by exact Hv. reflexivity.
  - rewrite stringFindLastCharacter_spec by exact Hv. reflexivity.
Qed.

Lemma C7_sixteen_a_then_X_witness :
  let mem := mem_of 4099 (bytes_of_string "aaaaaaaaaaaaaaaaX") in
  valid_buffer mem 4099 (bytes_of_string "aaaaaaaaaaaaaaaaX") /\
  forall tier,
    result (stringFindCharacter mem tier 4099 17 (byte_of_ascii "X"))
    = Val (4099 + 16) /\
    result (stringFindCharacter mem tier 4099 17 (byte_of_ascii "Z"))
    = Val nullptr.
Proof.
  intros mem.
  assert (Hv : valid_buffer mem 4099 (bytes_of_string "aaaaaaaaaaaaaaaaX"))
    by (apply valid_bufferb_sound; vm_compute; reflexivity).
  split; [exact Hv|].
  exact (proj1 (C7_sixteen_a_then_X mem 4099 Hv)).
Defined.

(** C8. In "banana" the first byte from the set 'n', 'z' is at offset 2 and
    the last one at offset 4. *)
Theorem C8_banana_any_of_nz mem data characters :
  valid_buffer mem data (bytes_of_string "banana") ->
  valid_buffer mem characters (bytes_of_string "nz") ->
  result (stringFindAny mem data 6 characters 2) = Val (data + 2) /\
  result (stringFindLastAny mem data 6 characters 2) = Val (data + 4).
Proof.
  intros Hv Hc.
  change 6 with (Z.of_nat (length (bytes_of_string "banana"))).
  change 2 with (Z.of_nat (length (bytes_of_string "nz"))) at 1 3.
  split.
  - rewrite (stringFindAny_spec _ _ _ _ _ Hv Hc). reflexivity.
  - rewrite (stringFindLastAny_spec _ _ _ _ _ Hv Hc). reflexivity.
Qed.

Lemma C8_banana_any_of_nz_witness :
  let mem := mem_union (mem_of 4096 (bytes_of_string "banana"))
                       (mem_of 8192 (bytes_of_string "nz")) in
  valid_buffer mem 4096 (bytes_of_string "banana") /\
  valid_buffer mem 8192 (bytes_of_string "nz") /\
  result (stringFindAny mem 4096 6 8192 2) = Val (4096 + 2) /\
  result (stringFindLastAny mem 4096 6 8192 2) = Val (4096 + 4).
Proof.
  intros mem.
  assert (Hv : valid_buffer mem 4096 (bytes_of_string "banana"))
    by (apply valid_bufferb_sound; vm_compute; reflexivity).
  assert (Hc : valid_buffer mem 8192 (bytes_of_string "nz"))
    by (apply valid_bufferb_sound; vm_compute; reflexivity).
  split; [exact Hv|]. split; [exact Hc|].
  exact (C8_banana_any_of_nz mem 4096 8192 Hv Hc).
Defined.

(** ** Empty character set *)

Lemma find_first_never l : find_first (in_set []) l = None.
Proof. apply find_first_absent. intros; reflexivity. Qed.

Lemma find_last_never l : find_last (in_set []) l = None.
Proof.
  induction l as [|x l IH]; simpl; [reflexivity|]. rewrite IH. reflexivity.
Qed.

Lemma find_first_always l : l <> [] -> find_first (not_in_set []) l = Some O.
Proof. destruct l; [congruence | reflexivity]. Qed.

Lemma find_last_always l :
  l <> [] -> find_last (not_in_set []) l = Some (length l - 1)%nat.
Proof.
  induction l as [|x l IH] using rev_ind; [congruence|]. intros _.
  rewrite find_last_snoc, length_app. cbn [not_in_set in_set existsb negb length].
  f_equal. lia.
Qed.

(** C9. With an empty character set, on every valid buffer: the two any-of
    searches find nothing, and on a non-empty buffer the forward none-of
    search stops at offset 0 and the backward one at offset [size - 1]. The
    character set pointer is arbitrary. *)
Theorem C9_empty_character_set mem data bytes characters :
  valid_buffer mem data bytes ->
  let size := Z.of_nat (length bytes) in
  result (stringFindAny mem data size characters 0) = Val nullptr /\
  result (stringFindLastAny mem data size characters 0) = Val nullptr /\
  (0 < size ->
   result (stringFindNotAny mem data size characters 0) = Val data /\
   result (stringFindLastNotAny mem data size characters 0)
   = Val (data + size - 1)).
Proof.
  intros Hv size. subst size. split; [|split].
  - rewrite (stringFindAny_empty_set _ _ _ _ Hv), find_first_never. reflexivity.
  - rewrite (stringFindLastAny_empty_set _ _ _ _ Hv), find_last_never.
    reflexivity.
  - intros Hpos.
    assert (Hne : bytes <> []) by (destruct bytes; [simpl in Hpos; lia | discriminate]).
    split.
    + rewrite (stringFindNotAny_empty_set _ _ _ _ Hv), (find_first_always _ Hne).
      cbn [at_offset]. f_equal. lia.
    + rewrite (stringFindLastNotAny_empty_set _ _ _ _ Hv),
        (find_last_always _ Hne).
      cbn [at_offset]. f_equal. lia.
Qed.

Lemma C9_empty_character_set_witness :
  let mem := mem_of 4096 (bytes_of_string "banana") in
  valid_buffer mem 4096 (bytes_of_string "banana") /\
  result (stringFindAny mem 4096 6 0 0) = Val nullptr /\
  result (stringFindLastAny mem 4096 6 0 0) = Val nullptr /\
  (0 < 6 ->
   result (stringFindNotAny mem 4096 6 0 0) = Val 4096 /\
   result (stringFindLastNotAny mem 4096 6 0 0) = Val (4096 + 6 - 1)).
Proof.
  intros mem.
  assert (Hv : valid_buffer mem 4096 (bytes_of_string "banana"))
    by (apply valid_bufferb_sound; vm_compute; reflexivity).
  split; [exact Hv|].
  exact (C9_empty_character_set mem 4096 (bytes_of_string "banana") 0 Hv).
Defined.

(** ** Results stay inside the buffer *)

Section Within.

Variables (data : ptr) (l : list char) (p : char -> bool).
Hypothesis H0 : 0 <= data.
Hypothesis Hnn : l <> [] -> 0 < data.

Lemma nonempty_of_index k : (k < length l)%nat -> 0 < data.
Proof.
  intros Hk. apply Hnn. destruct l; [simpl in Hk; lia | discriminate].
Qed.

Lemma find_first_null_or_hit :
  null_or_hit data l 1 (fun o => p (nth o l 0) = true)
    (at_offset data (find_first p l)).
Proof.
  destruct (find_first p l) as [k|] eqn:E.
  - right. destruct (find_first_Some _ _ _ E) as (Hk & Hp & _).
    pose proof (nonempty_of_index k Hk).
    exists k. cbn [at_offset]. unfold nullptr. repeat split; try lia. exact Hp.
  - left. split; [reflexivity|]. intros o Ho.
    rewrite (find_first_None _ _ E o) by lia. discriminate.
Qed.

Lemma find_last_null_or_hit :
  null_or_hit data l 1 (fun o => p (nth o l 0) = true)
    (at_offset data (find_last p l)).
Proof.
  destruct (find_last p l) as [k|] eqn:E.
  - right. destruct (find_last_Some _ _ _ E) as (Hk & Hp & _).
    pose proof (nonempty_of_index k Hk).
    exists k. cbn [at_offset]. unfold nullptr. repeat split; try lia. exact Hp.
  - left. split; [reflexivity|]. intros o Ho.
    rewrite (find_last_None _ _ E o) by lia. discriminate.
Qed.

End Within.

(** C10. On valid buffers every search returns a value, and that value is
    either null, exactly when there is nothing to find, or a non-null
    pointer to a hit that lies inside the buffer: at an offset below [size]
    for the byte and any-of-set searches, at an offset [o] with
    [o + substringSize <= size] for the substring searches with a non-empty
    needle. *)
Theorem C10_results_in_bounds mem data bytes characters chars substring needle :
  valid_buffer mem data bytes ->
  valid_buffer mem characters chars ->
  valid_buffer mem substring needle ->
  (0 < length needle)%nat ->
  let size := Z.of_nat (length bytes) in
  let characterCount := Z.of_nat (length chars) in
  let substringSize := Z.of_nat (length needle) in
  let returns (m : M ptr) (extent : nat) (hit : nat -> Prop) :=
    exists r, result m = Val r /\ null_or_hit data bytes extent hit r in
  let byte_is p := fun o : nat => p (nth o bytes 0) = true in
  (forall tier c,
     returns (stringFindCharacter mem tier data size c) 1%nat (byte_is (is_char c))) /\
  (forall c,
     returns (stringFindLastCharacter mem data size c) 1%nat (byte_is (is_char c))) /\
  returns (stringFindAny mem data size characters characterCount)
    1%nat (byte_is (in_set chars)) /\
  returns (stringFindLastAny mem data size characters characterCount)
    1%nat (byte_is (in_set chars)) /\
  returns (stringFindNotAny mem data size characters characterCount)
    1%nat (byte_is (not_in_set chars)) /\
  returns (stringFindLastNotAny mem data size characters characterCount)
    1%nat (byte_is (not_in_set chars)) /\
  returns (stringFindString mem data size substring substringSize)
    (length needle) (fun o => sub bytes o (length needle) = needle) /\
  returns (stringFindLastString mem data size substring substringSize)
    (length needle) (fun o => sub bytes o (length needle) = needle).
Proof.
  intros Hv Hc Hn Hpos. cbv zeta.
  pose proof Hv as (H0 & Hnn & _).
  repeat match goal with |- _ /\ _ => split end.
  - intros tier c. eexists. split; [apply stringFindCharacter_spec, Hv|].
    apply find_first_null_or_hit; assumption.
  - intros c. eexists. split; [apply stringFindLastCharacter_spec, Hv|].
    apply find_last_null_or_hit; assumption.
  - eexists. split; [apply (stringFindAny_spec _ _ _ _ _ Hv Hc)|].
    apply find_first_null_or_hit; assumption.
  - eexists. split; [apply (stringFindLastAny_spec _ _ _ _ _ Hv Hc)|].
    apply find_last_null_or_hit; assumption.
  - eexists. split; [apply (stringFindNotAny_spec _ _ _ _ _ Hv Hc)|].
    apply find_first_null_or_hit; assumption.
  - eexists. split; [apply (stringFindLastNotAny_spec _ _ _ _ _ Hv Hc)|].
    apply find_last_null_or_hit; assumption.
  - destruct (Nat.le_gt_cases (length needle) (length bytes)) as [Hfit|Hbig].
    + destruct (substring_search_outcomes mem data substring bytes needle
                  Hv Hn ltac:(lia)) as [(r & t & E & Hr) _].
      exists r. split; [rewrite E; reflexivity|].
      destruct Hr as [(o & Ho & Hocc & _ & Er & Hne & _)|(Hall & Er & _)].
      * right. exists o. auto.
      * left. auto.
    + exists nullptr. split.
      * unfold stringFindString.
        replace (Z.of_nat (length needle) <=? Z.of_nat (length bytes))
          with false by (symmetry; apply Z.leb_gt; lia).
        reflexivity.
      * left. split; [reflexivity | intros o Ho; lia].
  - destruct (Nat.le_gt_cases (length needle) (length bytes)) as [Hfit|Hbig].
    + destruct (substring_search_outcomes mem data substring bytes needle
                  Hv Hn ltac:(lia)) as [_ (r & t & E & Hr)].
      exists r. split; [rewrite E; reflexivity|].
      destruct Hr as [(o & Ho & Hocc & _ & Er & Hne & _)|(Hall & Er & _)].
      * right. exists o. auto.
      * left. auto.
    + exists nullptr. split.
      * unfold stringFindLastString.
        replace (Z.of_nat (length needle) <=? Z.of_nat (length bytes))
          with false by (symmetry; apply Z.leb_gt; lia).
        reflexivity.
      * left. split; [reflexivity | intros o Ho; lia].
Qed.

Lemma C10_results_in_bounds_witness :
  let mem := mem_union (mem_of 4096 (bytes_of_string "banana"))
                       (mem_of 8192 (bytes_of_string "an")) in
  valid_buffer mem 4096 (bytes_of_string "banana") /\
  valid_buffer mem 8192 (bytes_of_string "an") /\
  (0 < length (bytes_of_string "an"))%nat /\
  exists r,
    result (stringFindLastString mem 4096 6 8192 2) = Val r /\
    null_or_hit 4096 (bytes_of_string "banana") 2
      (fun o => sub (bytes_of_string "banana") o 2 = bytes_of_string "an") r.
Proof.
  intros mem.
  assert (Hv : valid_buffer mem 4096 (bytes_of_string "banana"))
    by (apply valid_bufferb_sound; vm_compute; reflexivity).
  assert (Hn : valid_buffer mem 8192 (bytes_of_string "an"))
    by (apply valid_bufferb_sound; vm_compute; reflexivity).
  assert (Hl : (0 < length (bytes_of_string "an"))%nat) by (vm_compute; lia).
  split; [exact Hv|]. split; [exact Hn|]. split; [exact Hl|].
  exact (proj2 (proj2 (proj2 (proj2 (proj2 (proj2 (proj2
    (C10_results_in_bounds mem 4096 (bytes_of_string "banana")
       8192 (bytes_of_string "an") 8192 (bytes_of_string "an")
       Hv Hn Hn Hl)))))))).
Defined.

(** * Further properties of the code *)

Ltac view_holds :=
  split; [apply valid_bufferb_sound; vm_compute; reflexivity | reflexivity].

Ltac shows_holds := split; vm_compute; reflexivity.

(** ** Comparison of views *)

Lemma lex_compare_eq xs : forall ys, lex_compare xs ys = Eq <-> xs = ys.
Proof.
  induction xs as [|x xs IH]; intros [|y ys]; simpl; try (split; congruence).
  destruct (x =? y) eqn:E.
  - apply Z.eqb_eq in E. subst y. rewrite IH. split; congruence.
  - apply Z.eqb_neq in E. destruct (x <? y); split; congruence.
Qed.

Lemma lex_compare_antisym xs : forall ys,
  lex_compare ys xs = CompOpp (lex_compare xs ys).
Proof.
  induction xs as [|x xs IH]; intros [|y ys]; simpl; try reflexivity.
  rewrite (Z.eqb_sym y x). destruct (x =? y) eqn:E; [apply IH|].
  apply Z.eqb_neq in E.
  destruct (x <? y) eqn:L, (y <? x) eqn:L'; try reflexivity;
    rewrite ?Z.ltb_lt, ?Z.ltb_ge in *; lia.
Qed.

Lemma lex_compare_lt_trans xs : forall ys zs,
  lex_compare xs ys = Lt -> lex_compare ys zs = Lt -> lex_compare xs zs = Lt.
Proof.
  induction xs as [|x xs IH]; intros [|y ys] [|z zs]; simpl; try congruence.
  destruct (Z.eqb_spec x y) as [Exy|Nxy], (Z.eqb_spec y z) as [Eyz|Nyz],
           (Z.eqb_spec x z) as [Exz|Nxz]; try lia; intros H1 H2.
  - eapply IH; eassumption.
  - subst x. exact H2.
  - subst z. exact H1.
  - destruct (Z.ltb_spec x y), (Z.ltb_spec y z); try discriminate. lia.
  - destruct (Z.ltb_spec x y), (Z.ltb_spec y z); try discriminate.
    destruct (Z.ltb_spec x z); [reflexivity | lia].
Qed.

(** What the operators compute from [memcmp] over the common length and the
    two sizes is the lexicographic comparison. *)
Lemma compare_bytes_lex xs : forall ys,
  let k := Nat.min (length xs) (length ys) in
  let c := compare_bytes (firstn k xs) (firstn k ys) in
  lex_compare xs ys
  = if c =? 0 then Nat.compare (length xs) (length ys)
    else if c <? 0 then Lt else Gt.
Proof.
  induction xs as [|x xs IH]; intros [|y ys]; try reflexivity.
  cbn [length Nat.min firstn compare_bytes lex_compare].
  destruct (x =? y) eqn:E.
  - rewrite IH. cbv zeta. reflexivity.
  - destruct (x <? y); reflexivity.
Qed.

Section ViewCompare.

Variables (mem : memory) (a b : StringView) (A B : list char).
Hypothesis Ha : view_of mem a A.
Hypothesis Hb : view_of mem b B.

Lemma memcmp_common :
  memcmp mem (_data a) (_data b) (Z.min (_size a) (_size b))
  = (Val (compare_bytes (firstn (Nat.min (length A) (length B)) A)
                        (firstn (Nat.min (length A) (length B)) B)),
     [Memcmp (_data a) (_data b) (Z.min (_size a) (_size b))]).
Proof.
  destruct Ha as [HvA HsA], Hb as [HvB HsB].
  pose proof (valid_buffer_mapped _ _ _ HvA) as HmA.
  pose proof (valid_buffer_mapped _ _ _ HvB) as HmB.
  set (k := Nat.min (length A) (length B)).
  assert (Hk : Z.min (_size a) (_size b) = Z.of_nat k) by (unfold k; lia).
  pose proof (mapped_sub mem _ A 0 k HmA ltac:(unfold k; lia)) as H1.
  pose proof (mapped_sub mem _ B 0 k HmB ltac:(unfold k; lia)) as H2.
  change (Z.of_nat 0) with 0 in H1, H2. rewrite Z.add_0_r in H1, H2.
  unfold sub in H1, H2. cbn [skipn] in H1, H2.
  pose proof (peek_mapped mem _ _ H1) as P1.
  pose proof (peek_mapped mem _ _ H2) as P2.
  rewrite length_firstn in P1, P2.
  replace (Nat.min k (length A)) with k in P1 by (unfold k; lia).
  replace (Nat.min k (length B)) with k in P2 by (unfold k; lia).
  unfold memcmp. rewrite Hk, Nat2Z.id, P1, P2. reflexivity.
Qed.

Lemma operator_lt_spec :
  result (operator_lt mem a b)
  = Val (match lex_compare A B with Lt => true | _ => false end).
Proof.
  unfold operator_lt. cbv zeta. rewrite (bind_val _ _ _ _ memcmp_common).
  rewrite compare_bytes_lex. cbv zeta.
  destruct Ha as [_ HsA], Hb as [_ HsB]. rewrite HsA, HsB.
  set (c := compare_bytes _ _).
  destruct (c =? 0) eqn:E; cbn [negb result fst].
  - destruct (Nat.compare_spec (length A) (length B)) as [H|H|H];
      (destruct (Z.of_nat (length A) <? Z.of_nat (length B)) eqn:L;
       rewrite ?Z.ltb_lt, ?Z.ltb_ge in L; try lia; reflexivity).
  - destruct (c <? 0); reflexivity.
Qed.

Lemma operator_le_spec :
  result (operator_le mem a b)
  = Val (match lex_compare A B with Gt => false | _ => true end).
Proof.
  unfold operator_le. cbv zeta. rewrite (bind_val _ _ _ _ memcmp_common).
  rewrite compare_bytes_lex. cbv zeta.
  destruct Ha as [_ HsA], Hb as [_ HsB]. rewrite HsA, HsB.
  set (c := compare_bytes _ _).
  destruct (c =? 0) eqn:E; cbn [negb result fst].
  - destruct (Nat.compare_spec (length A) (length B)) as [H|H|H];
      (destruct (Z.of_nat (length A) <=? Z.of_nat (length B)) eqn:L;
       rewrite ?Z.leb_le, ?Z.leb_gt in L; try lia; reflexivity).
  - destruct (c <? 0); reflexivity.
Qed.

Lemma compare_bytes_sign xs : forall ys,
  compare_bytes xs ys = 0 \/ compare_bytes xs ys = -1 \/ compare_bytes xs ys = 1.
Proof.
  induction xs as [|x xs IH]; intros [|y ys]; simpl; auto.
  destruct (x =? y); [apply IH|]. destruct (x <? y); auto.
Qed.

Lemma operator_gt_spec :
  result (operator_gt mem a b)
  = Val (match lex_compare A B with Gt => true | _ => false end).
Proof.
  unfold operator_gt. cbv zeta. rewrite (bind_val _ _ _ _ memcmp_common).
  rewrite compare_bytes_lex. cbv zeta.
  destruct Ha as [_ HsA], Hb as [_ HsB]. rewrite HsA, HsB.
  set (c := compare_bytes _ _).
  destruct (compare_bytes_sign (firstn (Nat.min (length A) (length B)) A)
              (firstn (Nat.min (length A) (length B)) B)) as [H|[H|H]];
    fold c in H; rewrite H; cbn [Z.eqb negb result fst Z.gtb Z.ltb Z.compare].
  - rewrite Z.gtb_ltb.
    destruct (Nat.compare_spec (length A) (length B)) as [H'|H'|H'];
      (destruct (Z.of_nat (length B) <? Z.of_nat (length A)) eqn:L;
       rewrite ?Z.ltb_lt, ?Z.ltb_ge in L; try lia; reflexivity).
  - reflexivity.
  - reflexivity.
Qed.

Lemma operator_ge_spec :
  result (operator_ge mem a b)
  = Val (match lex_compare A B with Lt => false | _ => true end).
Proof.
  unfold operator_ge. cbv zeta. rewrite (bind_val _ _ _ _ memcmp_common).
  rewrite compare_bytes_lex. cbv zeta.
  destruct Ha as [_ HsA], Hb as [_ HsB]. rewrite HsA, HsB.
  set (c := compare_bytes _ _).
  destruct (compare_bytes_sign (firstn (Nat.min (length A) (length B)) A)
              (firstn (Nat.min (length A) (length B)) B)) as [H|[H|H]];
    fold c in H; rewrite H; cbn [Z.eqb negb result fst Z.gtb Z.ltb Z.compare].
  - rewrite Z.geb_leb.
    destruct (Nat.compare_spec (length A) (length B)) as [H'|H'|H'];
      (destruct (Z.of_nat (length B) <=? Z.of_nat (length A)) eqn:L;
       rewrite ?Z.leb_le, ?Z.leb_gt in L; try lia; reflexivity).
  - reflexivity.
  - reflexivity.
Qed.

Lemma memcmp_same_size :
  length A = length B ->
  memcmp mem (_data a) (_data b) (_size a)
  = (Val (compare_bytes A B), [Memcmp (_data a) (_data b) (_size a)]).
Proof.
  intros Hl. pose proof memcmp_common as H.
  destruct Ha as [_ HsA], Hb as [_ HsB].
  replace (Z.min (_size a) (_size b)) with (_size a) in H by lia.
  rewrite <- Hl, Nat.min_id, firstn_all in H.
  rewrite Hl, firstn_all in H. exact H.
Qed.

Lemma operator_eq_spec :
  result (operator_eq mem a b)
  = Val (match lex_compare A B with Eq => true | _ => false end).
Proof.
  unfold operator_eq. cbv zeta.
  destruct Ha as [_ HsA], Hb as [_ HsB].
  destruct (_size a =? _size b) eqn:E.
  - apply Z.eqb_eq in E. assert (Hl : length A = length B) by lia.
    rewrite (bind_val _ _ _ _ (memcmp_same_size Hl)). cbn [result fst ret].
    pose proof (compare_bytes_eq A B Hl) as Hc.
    pose proof (lex_compare_eq A B) as Hx.
    destruct (compare_bytes A B =? 0).
    + rewrite (proj2 Hx (proj1 Hc eq_refl)). reflexivity.
    + destruct (lex_compare A B); try reflexivity.
      assert (A = B) by (apply Hx; reflexivity).
      assert (false = true) by (apply Hc; assumption). discriminate.
  - apply Z.eqb_neq in E. cbn [result fst ret].
    destruct (lex_compare A B) eqn:L; try reflexivity.
    apply lex_compare_eq in L. subst B. lia.
Qed.

Lemma operator_ne_spec :
  result (operator_ne mem a b)
  = Val (match lex_compare A B with Eq => false | _ => true end).
Proof.
  unfold operator_ne. cbv zeta.
  destruct Ha as [_ HsA], Hb as [_ HsB].
  destruct (_size a =? _size b) eqn:E; cbn [negb].
  - apply Z.eqb_eq in E. assert (Hl : length A = length B) by lia.
    rewrite (bind_val _ _ _ _ (memcmp_same_size Hl)). cbn [result fst ret].
    pose proof (compare_bytes_eq A B Hl) as Hc.
    pose proof (lex_compare_eq A B) as Hx.
    destruct (compare_bytes A B =? 0).
    + rewrite (proj2 Hx (proj1 Hc eq_refl)). reflexivity.
    + destruct (lex_compare A B); try reflexivity.
      assert (A = B) by (apply Hx; reflexivity).
      assert (false = true) by (apply Hc; assumption). discriminate.
  - apply Z.eqb_neq in E. cbn [result fst ret].
    destruct (lex_compare A B) eqn:L; try reflexivity.
    apply lex_compare_eq in L. subst B. lia.
Qed.

End ViewCompare.

Lemma lex_compare_lt_iff xs : forall ys,
  lex_compare xs ys = Lt <->
  (exists r, r <> [] /\ ys = xs ++ r) \/
  (exists p x y rx ry, xs = p ++ x :: rx /\ ys = p ++ y :: ry /\ x < y).
Proof.
  induction xs as [|x xs IH]; intros [|y ys]; simpl.
  - split; [discriminate|].
    intros [(r & Hr & E)|(p & x & y & rx & ry & E & _)].
    + simpl in E. congruence.
    + destruct p; discriminate.
  - split; [|reflexivity]. intros _. left. exists (y :: ys). split; [discriminate | reflexivity].
  - split; [discriminate|].
    intros [(r & Hr & E)|(p & x' & y & rx & ry & _ & E & _)].
    + discriminate.
    + destruct p; discriminate.
  - destruct (Z.eqb_spec x y) as [->|Ne].
    + rewrite IH. split.
      * intros [(r & Hr & E)|(p & x' & y' & rx & ry & E1 & E2 & L)].
        -- left. exists r. split; [assumption | congruence].
        -- right. exists (y :: p), x', y', rx, ry. simpl. repeat split; congruence.
      * intros [(r & Hr & E)|(p & x' & y' & rx & ry & E1 & E2 & L)].
        -- left. exists r. split; [assumption|]. inversion E. reflexivity.
        -- destruct p as [|q p]; simpl in *.
           ++ inversion E1; inversion E2; subst. lia.
           ++ inversion E1; inversion E2; subst.
              right. exists p, x', y', rx, ry. auto.
    + destruct (Z.ltb_spec x y) as [L|L]; split; try discriminate.
      * intros _. right. exists [], x, y, xs, ys. auto.
      * reflexivity.
      * intros [(r & Hr & E)|(p & x' & y' & rx & ry & E1 & E2 & L')].
        -- inversion E. congruence.
        -- destruct p as [|q p]; simpl in *; inversion E1; inversion E2; subst.
           ++ lia.
           ++ congruence.
Qed.

(** ** Properties of the comparison operators *)

(** X1. Two views compare equal exactly when they view the same bytes, and
    [!=] is the negation of [==]. *)
Theorem X1_views_equal_iff_same_bytes mem a b A B :
  view_of mem a A -> view_of mem b B ->
  exists e,
    result (operator_eq mem a b) = Val e /\
    result (operator_ne mem a b) = Val (negb e) /\
    (e = true <-> A = B).
Proof.
  intros Ha Hb.
  rewrite (operator_eq_spec mem a b A B Ha Hb), (operator_ne_spec mem a b A B Ha Hb).
  eexists. split; [reflexivity|].
  pose proof (lex_compare_eq A B) as Hx.
  destruct (lex_compare A B); (split; [reflexivity|]); split; intros H;
    try reflexivity; try discriminate; try (apply Hx; reflexivity);
    apply Hx in H; discriminate.
Qed.

(** X2. [a < b] holds exactly when the bytes of [a] come before the bytes of
    [b] in dictionary order: [a] is a proper prefix of [b], or at the first
    position where they differ the byte of [a] is the smaller one. *)
Theorem X2_less_is_lexicographic mem a b A B :
  view_of mem a A -> view_of mem b B ->
  exists r,
    result (operator_lt mem a b) = Val r /\
    (r = true <->
     (exists rest, rest <> [] /\ B = A ++ rest) \/
     (exists p x y ra rb, A = p ++ x :: ra /\ B = p ++ y :: rb /\ x < y)).
Proof.
  intros Ha Hb. rewrite (operator_lt_spec mem a b A B Ha Hb).
  eexists. split; [reflexivity|].
  rewrite <- lex_compare_lt_iff.
  destruct (lex_compare A B); split; congruence.
Qed.

(** X3. The six operators are consistent with each other: of [a < b],
    [a == b], [a > b] exactly one holds; [a <= b] is "not [a > b]",
    [a >= b] is "not [a < b]"; and swapping the operands turns [<] into [>]
    and [<=] into [>=]. *)
Theorem X3_comparison_operators_consistent mem a b A B :
  view_of mem a A -> view_of mem b B ->
  exists lt eq gt,
    result (operator_lt mem a b) = Val lt /\
    result (operator_eq mem a b) = Val eq /\
    result (operator_gt mem a b) = Val gt /\
    ((lt = true /\ eq = false /\ gt = false) \/
     (lt = false /\ eq = true /\ gt = false) \/
     (lt = false /\ eq = false /\ gt = true)) /\
    result (operator_le mem a b) = Val (negb gt) /\
    result (operator_ge mem a b) = Val (negb lt) /\
    result (operator_gt mem b a) = Val lt /\
    result (operator_ge mem b a) = Val (negb gt).
Proof.
  intros Ha Hb.
  rewrite (operator_lt_spec mem a b A B Ha Hb), (operator_eq_spec mem a b A B Ha Hb),
    (operator_gt_spec mem a b A B Ha Hb), (operator_le_spec mem a b A B Ha Hb),
    (operator_ge_spec mem a b A B Ha Hb), (operator_gt_spec mem b a B A Hb Ha),
    (operator_ge_spec mem b a B A Hb Ha), (lex_compare_antisym A B).
  do 3 eexists. repeat (split; [reflexivity|]).
  destruct (lex_compare A B); cbn; auto 10.
Qed.

(** X4. [<] is transitive. *)
Theorem X4_less_transitive mem a b c A B C :
  view_of mem a A -> view_of mem b B -> view_of mem c C ->
  result (operator_lt mem a b) = Val true ->
  result (operator_lt mem b c) = Val true ->
  result (operator_lt mem a c) = Val true.
Proof.
  intros Ha Hb Hc.
  rewrite (operator_lt_spec mem a b A B Ha Hb), (operator_lt_spec mem b c B C Hb Hc),
    (operator_lt_spec mem a c A C Ha Hc).
  intros H1 H2.
  destruct (lex_compare A B) eqn:E1; try discriminate.
  destruct (lex_compare B C) eqn:E2; try discriminate.
  rewrite (lex_compare_lt_trans A B C E1 E2). reflexivity.
Qed.

(** X5. [<=] is total and antisymmetric: one of [a <= b], [b <= a] always
    holds, and when both hold the views hold the same bytes. *)
Theorem X5_less_equal_total_antisymmetric mem a b A B :
  view_of mem a A -> view_of mem b B ->
  exists ab ba,
    result (operator_le mem a b) = Val ab /\
    result (operator_le mem b a) = Val ba /\
    (ab = true \/ ba = true) /\
    (ab = true -> ba = true -> A = B).
Proof.
  intros Ha Hb.
  rewrite (operator_le_spec mem a b A B Ha Hb), (operator_le_spec mem b a B A Hb Ha),
    (lex_compare_antisym A B).
  do 2 eexists. repeat (split; [reflexivity|]).
  pose proof (lex_compare_eq A B) as Hx.
  destruct (lex_compare A B); cbn; split; auto; try discriminate.
  intros _ _. apply Hx. reflexivity.
Qed.

Lemma X1_views_equal_iff_same_bytes_witness :
  view_of two_texts (view_at 4096 banana) banana /\
  view_of two_texts (view_at 8192 band) band /\
  exists e,
    result (operator_eq two_texts (view_at 4096 banana) (view_at 8192 band))
    = Val e /\
    result (operator_ne two_texts (view_at 4096 banana) (view_at 8192 band))
    = Val (negb e) /\
    (e = true <-> banana = band).
Proof.
  assert (Ha : view_of two_texts (view_at 4096 banana) banana) by view_holds.
  assert (Hb : view_of two_texts (view_at 8192 band) band) by view_holds.
  split; [exact Ha|]. split; [exact Hb|].
  exact (X1_views_equal_iff_same_bytes _ _ _ _ _ Ha Hb).
Defined.

Lemma X2_less_is_lexicographic_witness :
  view_of two_texts (view_at 4096 banana) banana /\
  view_of two_texts (view_at 8192 band) band /\
  exists r,
    result (operator_lt two_texts (view_at 4096 banana) (view_at 8192 band))
    = Val r /\
    (r = true <->
     (exists rest, rest <> [] /\ band = banana ++ rest) \/
     (exists p x y ra rb,
        banana = p ++ x :: ra /\ band = p ++ y :: rb /\ x < y)).
Proof.
  assert (Ha : view_of two_texts (view_at 4096 banana) banana) by view_holds.
  assert (Hb : view_of two_texts (view_at 8192 band) band) by view_holds.
  split; [exact Ha|]. split; [exact Hb|].
  exact (X2_less_is_lexicographic _ _ _ _ _ Ha Hb).
Defined.

Lemma X3_comparison_operators_consistent_witness :
  view_of two_texts (view_at 4096 banana) banana /\
  view_of two_texts (view_at 8192 band) band /\
  exists lt eq gt,
    result (operator_lt two_texts (view_at 4096 banana) (view_at 8192 band))
    = Val lt /\
    result (operator_eq two_texts (view_at 4096 banana) (view_at 8192 band))
    = Val eq /\
    result (operator_gt two_texts (view_at 4096 banana) (view_at 8192 band))
    = Val gt /\
    ((lt = true /\ eq = false /\ gt = false) \/
     (lt = false /\ eq = true /\ gt = false) \/
     (lt = false /\ eq = false /\ gt = true)).
Proof.
  assert (Ha : view_of two_texts (view_at 4096 banana) banana) by view_holds.
  assert (Hb : view_of two_texts (view_at 8192 band) band) by view_holds.
  split; [exact Ha|]. split; [exact Hb|].
  destruct (X3_comparison_operators_consistent _ _ _ _ _ Ha Hb)
    as (lt & eq & gt & H1 & H2 & H3 & H4 & _).
  exists lt, eq, gt. split; [exact H1|]. split; [exact H2|].
  split; [exact H3 | exact H4].
Defined.

Lemma X4_less_transitive_witness :
  view_of two_texts (view_at 4096 ban) ban /\
  view_of two_texts (view_at 4096 banana) banana /\
  view_of two_texts (view_at 8192 band) band /\
  result (operator_lt two_texts (view_at 4096 ban) (view_at 4096 banana))
  = Val true /\
  result (operator_lt two_texts (view_at 4096 banana) (view_at 8192 band))
  = Val true /\
  result (operator_lt two_texts (view_at 4096 ban) (view_at 8192 band))
  = Val true.
Proof.
  assert (Ha : view_of two_texts (view_at 4096 ban) ban) by view_holds.
  assert (Hb : view_of two_texts (view_at 4096 banana) banana) by view_holds.
  assert (Hc : view_of two_texts (view_at 8192 band) band) by view_holds.
  assert (Hab : result (operator_lt two_texts (view_at 4096 ban)
                          (view_at 4096 banana)) = Val true)
    by (vm_compute; reflexivity).
  assert (Hbc : result (operator_lt two_texts (view_at 4096 banana)
                          (view_at 8192 band)) = Val true)
    by (vm_compute; reflexivity).
  split; [exact Ha|]. split; [exact Hb|]. split; [exact Hc|].
  split; [exact Hab|]. split; [exact Hbc|].
  exact (X4_less_transitive _ _ _ _ _ _ _ Ha Hb Hc Hab Hbc).
Defined.

Lemma X5_less_equal_total_antisymmetric_witness :
  view_of two_texts (view_at 4096 banana) banana /\
  view_of two_texts (view_at 8192 band) band /\
  exists ab ba,
    result (operator_le two_texts (view_at 4096 banana) (view_at 8192 band))
    = Val ab /\
    result (operator_le two_texts (view_at 8192 band) (view_at 4096 banana))
    = Val ba /\
    (ab = true \/ ba = true) /\
    (ab = true -> ba = true -> banana = band).
Proof.
  assert (Ha : view_of two_texts (view_at 4096 banana) banana) by view_holds.
  assert (Hb : view_of two_texts (view_at 8192 band) band) by view_holds.
  split; [exact Ha|]. split; [exact Hb|].
  exact (X5_less_equal_total_antisymmetric _ _ _ _ _ Ha Hb).
Defined.

(** ** Prefix and suffix tests *)

Section PrefixSuffix.

Variables (mem : memory) (this other : StringView) (T P : list char).
Hypothesis Hthis : view_of mem this T.
Hypothesis Hother : view_of mem other P.

Lemma hasPrefix_spec :
  exists r, result (hasPrefix mem this other) = Val r /\
            (r = true <-> exists rest, T = P ++ rest).
Proof.
  destruct Hthis as [HvS HsS], Hother as [HvP HsP].
  unfold hasPrefix. cbv zeta. rewrite HsS, HsP.
  destruct (Z.ltb_spec (Z.of_nat (length T)) (Z.of_nat (length P))) as [L|L].
  - exists false. split; [reflexivity|]. split; [discriminate|].
    intros [rest E]. subst T. rewrite length_app in L. lia.
  - pose proof (memcmp_at mem _ _ T P (valid_buffer_mapped _ _ _ HvS)
                  (valid_buffer_mapped _ _ _ HvP) 0 ltac:(lia)) as Hm.
    change (Z.of_nat 0) with 0 in Hm. rewrite Z.add_0_r in Hm.
    rewrite (bind_val _ _ _ _ Hm). cbn [result fst ret].
    eexists. split; [reflexivity|].
    rewrite compare_bytes_eq by (apply length_sub; lia).
    unfold sub. cbn [skipn]. split.
    + intros E. exists (skipn (length P) T).
      rewrite <- E at 1. symmetry. apply firstn_skipn.
    + intros [rest E]. subst T.
      rewrite firstn_app, Nat.sub_diag, firstn_all. cbn [firstn].
      apply app_nil_r.
Qed.

Lemma hasSuffix_spec :
  exists r, result (hasSuffix mem this other) = Val r /\
            (r = true <-> exists rest, T = rest ++ P).
Proof.
  destruct Hthis as [HvS HsS], Hother as [HvP HsP].
  unfold hasSuffix. cbv zeta. rewrite HsS, HsP.
  destruct (Z.ltb_spec (Z.of_nat (length T)) (Z.of_nat (length P))) as [L|L].
  - exists false. split; [reflexivity|]. split; [discriminate|].
    intros [rest E]. subst T. rewrite length_app in L. lia.
  - pose proof (memcmp_at mem _ _ T P (valid_buffer_mapped _ _ _ HvS)
                  (valid_buffer_mapped _ _ _ HvP) (length T - length P)
                  ltac:(lia)) as Hm.
    replace (_data this + Z.of_nat (length T) - Z.of_nat (length P))
      with (_data this + Z.of_nat (length T - length P)) by lia.
    rewrite (bind_val _ _ _ _ Hm). cbn [result fst ret].
    eexists. split; [reflexivity|].
    rewrite compare_bytes_eq by (apply length_sub; lia).
    unfold sub. rewrite firstn_all2 by (rewrite length_skipn; lia). split.
    + intros E. exists (firstn (length T - length P) T).
      rewrite <- E at 2. symmetry. apply firstn_skipn.
    + intros [rest E]. subst T. rewrite length_app.
      replace (length rest + length P - length P)%nat with (length rest) by lia.
      rewrite skipn_app, Nat.sub_diag, skipn_all. reflexivity.
Qed.

Lemma hasPrefix_char_spec c :
  exists r, result (hasPrefix_char mem this c) = Val r /\
            (r = true <-> exists rest, T = c :: rest).
Proof.
  destruct Hthis as [HvS HsS].
  unfold hasPrefix_char. cbv zeta. rewrite HsS.
  destruct T as [|x T'].
  - exists false. split; [reflexivity|]. split; [discriminate|].
    intros [rest E]. discriminate.
  - cbn [length]. replace (Z.of_nat (S (length T')) =? 0) with false
      by (symmetry; apply Z.eqb_neq; lia).
    cbn [negb].
    destruct (mapped_cons mem _ _ _ (valid_buffer_mapped _ _ _ HvS)) as [Hx _].
    rewrite (bind_val _ _ _ _ (load8_mapped mem _ _ Hx)). cbn [result fst ret].
    eexists. split; [reflexivity|]. rewrite Z.eqb_eq. split.
    + intros ->. exists T'. reflexivity.
    + intros [rest E]. congruence.
Qed.

Lemma hasSuffix_char_spec c :
  exists r, result (hasSuffix_char mem this c) = Val r /\
            (r = true <-> exists rest, T = rest ++ [c]).
Proof.
  destruct Hthis as [HvS HsS].
  unfold hasSuffix_char. cbv zeta. rewrite HsS.
  induction T as [|x T' _] using rev_ind.
  - exists false. split; [reflexivity|]. split; [discriminate|].
    intros [rest E]. destruct rest; discriminate.
  - rewrite length_app. cbn [length].
    replace (Z.of_nat (length T' + 1) =? 0) with false
      by (symmetry; apply Z.eqb_neq; lia).
    cbn [negb].
    destruct (mapped_snoc mem _ _ _ (valid_buffer_mapped _ _ _ HvS)) as [_ Hx].
    replace (_data this + Z.of_nat (length T' + 1) - 1)
      with (_data this + Z.of_nat (length T')) by lia.
    rewrite (bind_val _ _ _ _ (load8_mapped mem _ _ Hx)). cbn [result fst ret].
    eexists. split; [reflexivity|]. rewrite Z.eqb_eq. split.
    + intros ->. exists T'. reflexivity.
    + intros [rest E]. apply app_inj_tail in E. tauto.
Qed.

End PrefixSuffix.

(** X6. [hasPrefix] answers whether the bytes of the view start with the
    bytes of the given prefix (every view has the empty prefix and itself as
    a prefix); the single-character overload answers whether the view is
    non-empty and starts with that character. *)
Theorem X6_hasPrefix_iff_starts_with mem this prefix T P c :
  view_of mem this T -> view_of mem prefix P ->
  (exists r, result (hasPrefix mem this prefix) = Val r /\
             (r = true <-> exists rest, T = P ++ rest)) /\
  (exists r, result (hasPrefix_char mem this c) = Val r /\
             (r = true <-> exists rest, T = c :: rest)).
Proof.
  intros Ht Hp. split.
  - apply (hasPrefix_spec mem this prefix T P Ht Hp).
  - apply (hasPrefix_char_spec mem this T Ht).
Qed.

(** X7. [hasSuffix] answers whether the bytes of the view end with the bytes
    of the given suffix; the single-character overload answers whether the
    view is non-empty and ends with that character. *)
Theorem X7_hasSuffix_iff_ends_with mem this suffix T P c :
  view_of mem this T -> view_of mem suffix P ->
  (exists r, result (hasSuffix mem this suffix) = Val r /\
             (r = true <-> exists rest, T = rest ++ P)) /\
  (exists r, result (hasSuffix_char mem this c) = Val r /\
             (r = true <-> exists rest, T = rest ++ [c])).
Proof.
  intros Ht Hp. split.
  - apply (hasSuffix_spec mem this suffix T P Ht Hp).
  - apply (hasSuffix_char_spec mem this T Ht).
Qed.

Lemma X6_hasPrefix_iff_starts_with_witness :
  view_of two_texts (view_at 4096 banana) banana /\
  view_of two_texts (view_at 8192 ban) ban /\
  exists r,
    result (hasPrefix two_texts (view_at 4096 banana) (view_at 8192 ban))
    = Val r /\
    (r = true <-> exists rest, banana = ban ++ rest).
Proof.
  assert (Ha : view_of two_texts (view_at 4096 banana) banana) by view_holds.
  assert (Hb : view_of two_texts (view_at 8192 ban) ban) by view_holds.
  split; [exact Ha|]. split; [exact Hb|].
  exact (proj1 (X6_hasPrefix_iff_starts_with _ _ _ _ _ 98 Ha Hb)).
Defined.

Lemma X7_hasSuffix_iff_ends_with_witness :
  view_of two_texts (view_at 4096 banana) banana /\
  view_of two_texts (view_at 8192 ban) ban /\
  exists r,
    result (hasSuffix two_texts (view_at 4096 banana) (view_at 8192 ban))
    = Val r /\
    (r = true <-> exists rest, banana = rest ++ ban).
Proof.
  assert (Ha : view_of two_texts (view_at 4096 banana) banana) by view_holds.
  assert (Hb : view_of two_texts (view_at 8192 ban) ban) by view_holds.
  split; [exact Ha|]. split; [exact Hb|].
  exact (proj1 (X7_hasSuffix_iff_ends_with _ _ _ _ _ 97 Ha Hb)).
Defined.

(** ** Splitting *)

Lemma spans_found p l : forall start len k,
  find_first p l = Some k ->
  spans p l start len
  = (start, len + k)%nat :: spans p (skipn (S k) l) (start + len + k + 1) 0.
Proof.
  induction l as [|x l IH]; intros start len k H; simpl in H; [discriminate|].
  cbn [spans]. destruct (p x).
  - inversion H; subst. cbn [skipn].
    rewrite !Nat.add_0_r. reflexivity.
  - destruct (find_first p l) as [k'|] eqn:E; simpl in H; inversion H; subst.
    rewrite (IH start (S len) k' eq_refl). cbn [skipn].
    replace (S len + k')%nat with (len + S k')%nat by lia.
    replace (start + S len + k' + 1)%nat with (start + len + S k' + 1)%nat by lia.
    reflexivity.
Qed.

Lemma spans_none p l : forall start len,
  find_first p l = None ->
  spans p l start len = [(start, len + length l)%nat].
Proof.
  induction l as [|x l IH]; intros start len H; simpl in H.
  - simpl. rewrite Nat.add_0_r. reflexivity.
  - cbn [spans]. destruct (p x); [discriminate|].
    destruct (find_first p l) eqn:E; [discriminate|].
    rewrite (IH start (S len) eq_refl). cbn [length]. do 2 f_equal. lia.
Qed.

Lemma spans_in_range p l : forall start len,
  Forall (fun sn => (fst sn + snd sn <= start + len + length l)%nat)
         (spans p l start len).
Proof.
  induction l as [|x l IH]; intros start len; cbn [spans length].
  - constructor; [simpl; lia | constructor].
  - destruct (p x).
    + constructor; [simpl; lia|].
      eapply Forall_impl; [|apply IH]. simpl. intros; lia.
    + eapply Forall_impl; [|apply IH]. simpl. intros; lia.
Qed.

Lemma spans_ext p q l :
  (forall x, p x = q x) ->
  forall start len, spans p l start len = spans q l start len.
Proof.
  intros H. induction l as [|x l IH]; intros start len; cbn [spans];
    [reflexivity|].
  rewrite <- H. destruct (p x); rewrite IH; reflexivity.
Qed.

Lemma chunks_nonempty p l : chunks p l <> [].
Proof.
  destruct l as [|x l]; cbn [chunks]; [discriminate|].
  destruct (p x); [discriminate|]. destruct (chunks p l); discriminate.
Qed.

Lemma sub_middle (pre0 cur rest : list char) :
  sub (pre0 ++ cur ++ rest) (length pre0) (length cur) = cur.
Proof.
  unfold sub. rewrite skipn_app, Nat.sub_diag, skipn_all. cbn [skipn app].
  rewrite firstn_app, Nat.sub_diag, firstn_all. cbn [firstn].
  apply app_nil_r.
Qed.

Lemma spans_contents p l : forall pre0 cur,
  map (fun sn => sub (pre0 ++ cur ++ l) (fst sn) (snd sn))
      (spans p l (length pre0) (length cur))
  = match chunks p l with
    | c :: cs => (cur ++ c) :: cs
    | [] => []
    end.
Proof.
  induction l as [|x l IH]; intros pre0 cur; cbn [spans chunks map fst snd].
  - rewrite sub_middle, app_nil_r. reflexivity.
  - destruct (p x).
    + cbn [map fst snd]. rewrite sub_middle, app_nil_r. f_equal.
      specialize (IH (pre0 ++ cur ++ [x]) []).
      rewrite !length_app in IH. cbn [length app] in IH.
      replace (length pre0 + (length cur + 1))%nat
        with (length pre0 + length cur + 1)%nat in IH by lia.
      rewrite <- !app_assoc in IH. cbn [app] in IH.
      rewrite IH. pose proof (chunks_nonempty p l).
      destruct (chunks p l); [contradiction | reflexivity].
    + specialize (IH pre0 (cur ++ [x])).
      rewrite length_app in IH. cbn [length] in IH.
      rewrite Nat.add_1_r in IH. rewrite <- !app_assoc in IH.
      cbn [app] in IH. rewrite IH.
      pose proof (chunks_nonempty p l).
      destruct (chunks p l); [contradiction|].
      rewrite <- app_assoc. reflexivity.
Qed.

Lemma intercalate_cons sep c rest :
  rest <> [] -> intercalate sep (c :: rest) = c ++ sep ++ intercalate sep rest.
Proof. destruct rest; [congruence | reflexivity]. Qed.

Lemma chunks_intercalate d l : intercalate [d] (chunks (is_char d) l) = l.
Proof.
  induction l as [|x l IH]; [reflexivity|]. cbn [chunks].
  pose proof (chunks_nonempty (is_char d) l) as Hne.
  unfold is_char at 1. destruct (Z.eqb_spec x d) as [->|Ne].
  - rewrite intercalate_cons by assumption. rewrite IH. reflexivity.
  - destruct (chunks (is_char d) l) as [|c cs]; [contradiction|].
    destruct cs as [|c' cs].
    + simpl in *. congruence.
    + rewrite intercalate_cons in * by discriminate.
      rewrite <- IH. reflexivity.
Qed.

Lemma chunks_clean p l :
  Forall (fun c => forall x, In x c -> p x = false) (chunks p l).
Proof.
  induction l as [|x l IH]; cbn [chunks].
  - constructor; [intros ? []| constructor].
  - destruct (p x) eqn:E.
    + constructor; [intros ? [] | exact IH].
    + destruct (chunks p l) as [|c cs]; [constructor; [|constructor]|].
      * intros y [<-|[]]. exact E.
      * inversion IH; subst. constructor; [|assumption].
        intros y [<-|Hy]; [exact E | auto].
Qed.


Lemma mapped_app_r mem p pre rest :
  mapped mem p (pre ++ rest) -> mapped mem (p + Z.of_nat (length pre)) rest.
Proof.
  intros H k Hk. specialize (H (length pre + k)%nat).
  rewrite app_nth2, Nat.add_comm, Nat.add_sub in H by lia.
  replace (p + Z.of_nat (length pre) + Z.of_nat k)
    with (p + Z.of_nat (k + length pre)) by lia.
  apply H. rewrite length_app. lia.
Qed.

Lemma valid_buffer_app_r mem p pre rest :
  valid_buffer mem p (pre ++ rest) ->
  valid_buffer mem (p + Z.of_nat (length pre)) rest.
Proof.
  intros (H0 & Hnn & Hend & Hm). rewrite length_app in Hend.
  split; [lia|]. split; [|split; [lia | exact (mapped_app_r mem p pre rest Hm)]].
  intros Hr. assert (pre ++ rest <> []) by (destruct pre, rest; simpl; congruence).
  specialize (Hnn H). lia.
Qed.

Lemma filter_span_view data l :
  filter nonempty_view (map (span_view data) l)
  = map (span_view data) (filter nonempty_span l).
Proof.
  induction l as [|[s n] l IH]; [reflexivity|].
  cbn [map filter]. unfold nonempty_view at 1, nonempty_span at 1.
  cbn [span_view _size snd].
  replace (Z.of_nat n =? 0) with (n =? 0)%nat.
  - destruct (n =? 0)%nat; cbn [negb map]; rewrite IH; reflexivity.
  - destruct (Nat.eqb_spec n 0), (Z.eqb_spec (Z.of_nat n) 0); try reflexivity; lia.
Qed.

Section SplitProofs.

Variables (mem : memory) (this : StringView) (bytes : list char).
Hypothesis Hview : view_of mem this bytes.

Let data := _data this.
Let end_ := _data this + _size this.

Lemma end_is : end_ = data + Z.of_nat (length bytes).
Proof. unfold end_, data. destruct Hview as [_ ->]. reflexivity. Qed.

Lemma data_pos : bytes <> [] -> 0 < data.
Proof. destruct Hview as [(_ & Hnn & _) _]. exact Hnn. Qed.

Lemma slice_ok pre k rest :
  bytes = pre ++ rest -> (k <= length rest)%nat ->
  slice this (data + Z.of_nat (length pre))
    (data + Z.of_nat (length pre) + Z.of_nat k)
  = ret (span_view data (length pre, k)).
Proof.
  intros E Hk. unfold slice. fold data.
  destruct Hview as [_ Hs]. rewrite Hs, E, length_app.
  replace ((data <=? data + Z.of_nat (length pre))
           && (data + Z.of_nat (length pre)
               <=? data + Z.of_nat (length pre) + Z.of_nat k)
           && (data + Z.of_nat (length pre) + Z.of_nat k
               <=? data + Z.of_nat (length pre + length rest)))
    with true
    by (symmetry; rewrite !andb_true_iff, !Z.leb_le; lia).
  cbn [assert]. unfold bind, ret, span_view. cbn [fst snd app].
  do 3 f_equal. lia.
Qed.

Lemma memchr_rest d pre rest :
  bytes = pre ++ rest ->
  result (memchr mem (data + Z.of_nat (length pre)) d
            (end_ - (data + Z.of_nat (length pre))))
  = Val (at_offset (data + Z.of_nat (length pre))
           (find_first (is_char d) rest)).
Proof.
  intros E. rewrite end_is, E, length_app.
  replace (data + Z.of_nat (length pre + length rest)
           - (data + Z.of_nat (length pre)))
    with (Z.of_nat (length rest)) by lia.
  apply memchr_spec, mapped_app_r.
  rewrite <- E. apply valid_buffer_mapped, Hview.
Qed.

Lemma loop_condition pre rest :
  bytes = pre ++ rest ->
  (data + Z.of_nat (length pre) <? end_) = negb (length rest =? 0)%nat.
Proof.
  intros E. rewrite end_is, E, length_app.
  destruct (Nat.eqb_spec (length rest) 0); cbn [negb];
    [apply Z.ltb_ge | apply Z.ltb_lt]; lia.
Qed.

Lemma split_loop_spec d : forall fuel rest pre parts,
  bytes = pre ++ rest -> (length rest <= fuel)%nat ->
  exists oldpos' parts',
    result (split_loop mem fuel this d end_ (data + Z.of_nat (length pre)) parts)
    = Val (oldpos', parts') /\
    data <= oldpos' <= end_ /\
    parts' ++ [{| _data := oldpos'; _size := end_ - oldpos' |}]
    = parts ++ map (span_view data) (spans (is_char d) rest (length pre) 0).
Proof.
  induction fuel as [|fuel IH]; intros rest pre parts E Hf.
  - destruct rest; [|simpl in Hf; lia].
    cbn [split_loop]. rewrite (loop_condition pre [] E). cbn.
    do 2 eexists. split; [reflexivity|].
    rewrite end_is, E, length_app. cbn [length].
    split; [lia|]. do 2 f_equal. unfold span_view. cbn. f_equal. lia.
  - cbn [split_loop]. rewrite (loop_condition pre rest E).
    destruct rest as [|x rest'].
    + cbn. do 2 eexists. split; [reflexivity|].
      rewrite end_is, E, length_app. cbn [length].
      split; [lia|]. do 2 f_equal. unfold span_view. cbn. f_equal. lia.
    + cbn [length Nat.eqb negb].
      rewrite (result_bind _ _ _ (memchr_rest d pre (x :: rest') E)).
      assert (Hne : bytes <> []) by (rewrite E; destruct pre; discriminate).
      pose proof (data_pos Hne) as Hpos.
      destruct (find_first (is_char d) (x :: rest')) as [k|] eqn:F.
      * destruct (find_first_Some _ _ _ F) as (Hk & _).
        cbn [at_offset].
        replace (data + Z.of_nat (length pre) + Z.of_nat k =? nullptr)
          with false by (symmetry; apply Z.eqb_neq; unfold nullptr; lia).
        cbn [negb].
        rewrite (slice_ok pre k (x :: rest') E ltac:(lia)).
        rewrite (result_bind _ _ (span_view data (length pre, k)))
          by reflexivity.
        specialize (IH (skipn (S k) (x :: rest'))
                       (pre ++ firstn (S k) (x :: rest'))
                       (parts ++ [span_view data (length pre, k)])).
        rewrite length_app, length_firstn, length_skipn in IH.
        replace (Nat.min (S k) (length (x :: rest'))) with (S k) in IH by lia.
        replace (data + Z.of_nat (length pre) + Z.of_nat k + 1)
          with (data + Z.of_nat (length pre + S k)) by lia.
        destruct IH as (o' & p' & Hr & Hb & Hp).
        { rewrite <- app_assoc, firstn_skipn. exact E. }
        { cbn [length] in *. lia. }
        exists o', p'. split; [exact Hr|]. split; [exact Hb|].
        rewrite Hp, (spans_found _ _ (length pre) 0 k F).
        rewrite <- app_assoc. cbn [map app Nat.add].
        replace (length pre + 0 + k + 1)%nat with (length pre + S k)%nat by lia.
        reflexivity.
      * cbn [at_offset nullptr Z.eqb negb result fst ret].
        do 2 eexists. split; [reflexivity|].
        rewrite end_is, E, length_app. split; [lia|].
        rewrite (spans_none _ _ (length pre) 0 F). cbn [map Nat.add].
        do 2 f_equal. unfold span_view. cbn [fst snd]. f_equal. lia.
Qed.

Lemma suffix_ok o :
  _data this <= o <= _data this + _size this ->
  suffix this o
  = ret {| _data := o; _size := _data this + _size this - o |}.
Proof.
  intros H. unfold suffix, slice.
  replace ((_data this <=? o) && (o <=? _data this + _size this)
           && (_data this + _size this <=? _data this + _size this))
    with true by (symmetry; rewrite !andb_true_iff, !Z.leb_le; lia).
  reflexivity.
Qed.

Lemma split_spec d :
  result (split mem this d)
  = Val (match bytes with
         | [] => []
         | _ => map (span_view data) (spans (is_char d) bytes 0 0)
         end).
Proof.
  unfold split. cbv zeta. fold end_ data.
  destruct (split_loop_spec d (Z.to_nat (_size this)) bytes [] [] eq_refl)
    as (o' & p' & Hr & Hb & Hp).
  { destruct Hview as [_ ->]. lia. }
  cbn [length app] in Hr, Hp. change (Z.of_nat 0) with 0 in Hr.
  rewrite Z.add_0_r in Hr.
  rewrite (result_bind _ _ _ Hr). unfold isEmpty.
  destruct Hview as [_ Hs].
  destruct bytes as [|x bs] eqn:Eb.
  - rewrite Hs. cbn [length Z.of_nat Z.eqb negb].
    cbn [spans map] in Hp.
    destruct p' as [|? [|? ?]]; cbn in Hp; try discriminate. reflexivity.
  - replace (_size this =? 0) with false
      by (symmetry; apply Z.eqb_neq; rewrite Hs; cbn [length]; lia).
    cbn [negb]. rewrite suffix_ok by (unfold data, end_ in Hb; lia).
    rewrite (result_bind _ _ {| _data := o'; _size := end_ - o' |}) by reflexivity.
    cbn [result fst ret]. rewrite Hp. reflexivity.
Qed.

End SplitProofs.

Section SplitProofs2.

Variables (mem : memory) (this : StringView) (bytes : list char).
Hypothesis Hview : view_of mem this bytes.

Let data := _data this.
Let end_ := _data this + _size this.

Lemma splitWithoutEmptyParts_loop_done d fuel e oldpos parts :
  e <= oldpos ->
  splitWithoutEmptyParts_loop mem fuel this d e oldpos parts = ret parts.
Proof.
  intros H. destruct fuel; cbn [splitWithoutEmptyParts_loop];
    (replace (oldpos <? e) with false by (symmetry; apply Z.ltb_ge; lia));
    reflexivity.
Qed.

Lemma splitWithoutEmptyParts_loop_spec d : forall fuel rest pre parts,
  bytes = pre ++ rest -> (length rest <= fuel)%nat ->
  result (splitWithoutEmptyParts_loop mem fuel this d end_
            (data + Z.of_nat (length pre)) parts)
  = Val (parts ++ map (span_view data)
                    (filter nonempty_span (spans (is_char d) rest (length pre) 0))).
Proof.
  induction fuel as [|fuel IH]; intros rest pre parts E Hf.
  - destruct rest; [|simpl in Hf; lia].
    rewrite splitWithoutEmptyParts_loop_done.
    + cbn. rewrite app_nil_r. reflexivity.
    + unfold end_, data. rewrite (end_is mem this bytes Hview), E, length_app.
      cbn [length]. lia.
  - destruct rest as [|x rest'].
    + rewrite splitWithoutEmptyParts_loop_done.
      * cbn. rewrite app_nil_r. reflexivity.
      * unfold end_, data. rewrite (end_is mem this bytes Hview), E, length_app.
        cbn [length]. lia.
    + cbn [splitWithoutEmptyParts_loop]. unfold end_, data.
      rewrite (loop_condition mem this bytes Hview pre (x :: rest') E).
      cbn [length Nat.eqb negb].
      rewrite (result_bind _ _ _ (memchr_rest mem this bytes Hview d pre
                                    (x :: rest') E)).
      fold data end_.
      assert (Hne : bytes <> []) by (rewrite E; destruct pre; discriminate).
      pose proof (data_pos mem this bytes Hview Hne) as Hpos. fold data in Hpos.
      assert (Hend : end_ = data + Z.of_nat (length pre)
                            + Z.of_nat (length (x :: rest'))).
      { unfold end_, data. rewrite (end_is mem this bytes Hview), E, length_app.
        lia. }
      change (data + _size this) with end_.
      destruct (find_first (is_char d) (x :: rest')) as [k|] eqn:F.
      * destruct (find_first_Some _ _ _ F) as (Hk & _).
        cbn [at_offset].
        replace (data + Z.of_nat (length pre) + Z.of_nat k =? nullptr)
          with false by (symmetry; apply Z.eqb_neq; unfold nullptr; lia).
        rewrite (spans_found _ _ (length pre) 0 k F).
        cbn [filter Nat.add]. unfold nonempty_span at 1. cbn [snd].
        specialize (IH (skipn (S k) (x :: rest'))
                       (pre ++ firstn (S k) (x :: rest'))).
        rewrite length_app, length_firstn, length_skipn in IH.
        replace (Nat.min (S k) (length (x :: rest'))) with (S k) in IH by lia.
        replace (data + Z.of_nat (length pre) + Z.of_nat k + 1)
          with (data + Z.of_nat (length pre + S k)) by lia.
        replace (length pre + 0 + k + 1)%nat with (length pre + S k)%nat by lia.
        replace (0 + k)%nat with k by lia.
        destruct (Nat.eqb_spec k 0) as [->|Hk0]; cbn [negb].
        -- rewrite Z.add_0_r, Z.eqb_refl. cbn [negb].
           apply IH; [rewrite <- app_assoc, firstn_skipn; exact E|].
           cbn [length] in *. lia.
        -- replace (data + Z.of_nat (length pre) + Z.of_nat k
                    =? data + Z.of_nat (length pre))
             with false by (symmetry; apply Z.eqb_neq; lia).
           cbn [negb].
           unfold data at 1 2.
           rewrite (slice_ok mem this bytes Hview pre k (x :: rest') E ltac:(lia)).
           rewrite (result_bind _ _ (span_view data (length pre, k)))
             by reflexivity.
           rewrite IH; [| rewrite <- app_assoc, firstn_skipn; exact E
                        | cbn [length] in *; lia].
           rewrite <- app_assoc. reflexivity.
      * cbn [at_offset nullptr Z.eqb].
        rewrite (spans_none _ _ (length pre) 0 F).
        cbn [filter Nat.add]. unfold nonempty_span. cbn [snd length Nat.eqb negb].
        replace (end_ =? data + Z.of_nat (length pre)) with false
          by (symmetry; apply Z.eqb_neq; rewrite Hend; cbn [length]; lia).
        cbn [negb]. rewrite Hend. unfold data at 1 2.
        rewrite (slice_ok mem this bytes Hview pre (length (x :: rest'))
                   (x :: rest') E ltac:(lia)).
        rewrite (result_bind _ _ (span_view data (length pre, length (x :: rest'))))
          by reflexivity.
        rewrite splitWithoutEmptyParts_loop_done by lia.
        reflexivity.
Qed.

Lemma splitWithoutEmptyParts_spec d :
  result (splitWithoutEmptyParts mem this d)
  = Val (map (span_view data)
           (filter nonempty_span (spans (is_char d) bytes 0 0))).
Proof.
  unfold splitWithoutEmptyParts. cbv zeta. fold end_ data.
  pose proof (splitWithoutEmptyParts_loop_spec d (Z.to_nat (_size this))
                bytes [] [] eq_refl) as H.
  cbn [length app] in H. change (Z.of_nat 0) with 0 in H.
  rewrite Z.add_0_r in H. apply H.
  destruct Hview as [_ ->]. lia.
Qed.

End SplitProofs2.

Section SplitProofs3.

Variables (mem : memory) (this delimiters : StringView) (bytes chars : list char).
Hypothesis Hview : view_of mem this bytes.
Hypothesis Hdelims : view_of mem delimiters chars.

Let data := _data this.
Let end_ := _data this + _size this.

Lemma splitOnAnyWithoutEmptyParts_loop_done fuel e oldpos parts :
  e <= oldpos ->
  splitOnAnyWithoutEmptyParts_loop mem fuel this (_data delimiters)
    (_size delimiters) e oldpos parts = ret parts.
Proof.
  intros H. destruct fuel; cbn [splitOnAnyWithoutEmptyParts_loop];
    (replace (oldpos <? e) with false by (symmetry; apply Z.ltb_ge; lia));
    reflexivity.
Qed.

Lemma stringFindAny_rest pre rest :
  bytes = pre ++ rest ->
  result (stringFindAny mem (data + Z.of_nat (length pre))
            (end_ - (data + Z.of_nat (length pre)))
            (_data delimiters) (_size delimiters))
  = Val (at_offset (data + Z.of_nat (length pre))
           (find_first (in_set chars) rest)).
Proof.
  intros E. unfold end_, data.
  rewrite (end_is mem this bytes Hview), E, length_app.
  replace (_data this + Z.of_nat (length pre + length rest)
           - (_data this + Z.of_nat (length pre)))
    with (Z.of_nat (length rest)) by lia.
  destruct Hdelims as [Hvc ->].
  apply stringFindAny_spec; [|exact Hvc].
  apply valid_buffer_app_r. rewrite <- E. apply Hview.
Qed.

Lemma splitOnAnyWithoutEmptyParts_loop_spec : forall fuel rest pre parts,
  bytes = pre ++ rest -> (length rest <= fuel)%nat ->
  result (splitOnAnyWithoutEmptyParts_loop mem fuel this (_data delimiters)
            (_size delimiters) end_ (data + Z.of_nat (length pre)) parts)
  = Val (parts ++ map (span_view data)
                    (filter nonempty_span (spans (in_set chars) rest (length pre) 0))).
Proof.
  induction fuel as [|fuel IH]; intros rest pre parts E Hf.
  - destruct rest; [|simpl in Hf; lia].
    rewrite splitOnAnyWithoutEmptyParts_loop_done.
    + cbn. rewrite app_nil_r. reflexivity.
    + unfold end_, data. rewrite (end_is mem this bytes Hview), E, length_app.
      cbn [length]. lia.
  - destruct rest as [|x rest'].
    + rewrite splitOnAnyWithoutEmptyParts_loop_done.
      * cbn. rewrite app_nil_r. reflexivity.
      * unfold end_, data. rewrite (end_is mem this bytes Hview), E, length_app.
        cbn [length]. lia.
    + cbn [splitOnAnyWithoutEmptyParts_loop]. unfold end_ at 1, data at 1.
      rewrite (loop_condition mem this bytes Hview pre (x :: rest') E).
      cbn [length Nat.eqb negb].
      rewrite (result_bind _ _ _ (stringFindAny_rest pre (x :: rest') E)).
      assert (Hne : bytes <> []) by (rewrite E; destruct pre; discriminate).
      pose proof (data_pos mem this bytes Hview Hne) as Hpos. fold data in Hpos.
      assert (Hend : end_ = data + Z.of_nat (length pre)
                            + Z.of_nat (length (x :: rest'))).
      { unfold end_, data. rewrite (end_is mem this bytes Hview), E, length_app.
        lia. }
      destruct (find_first (in_set chars) (x :: rest')) as [k|] eqn:F.
      * destruct (find_first_Some _ _ _ F) as (Hk & _).
        cbn [at_offset].
        replace (data + Z.of_nat (length pre) + Z.of_nat k =? nullptr)
          with false by (symmetry; apply Z.eqb_neq; unfold nullptr; lia).
        rewrite (spans_found _ _ (length pre) 0 k F).
        cbn [filter Nat.add]. unfold nonempty_span at 1. cbn [snd].
        specialize (IH (skipn (S k) (x :: rest'))
                       (pre ++ firstn (S k) (x :: rest'))).
        rewrite length_app, length_firstn, length_skipn in IH.
        replace (Nat.min (S k) (length (x :: rest'))) with (S k) in IH by lia.
        replace (data + Z.of_nat (length pre) + Z.of_nat k + 1)
          with (data + Z.of_nat (length pre + S k)) by lia.
        replace (length pre + 0 + k + 1)%nat with (length pre + S k)%nat by lia.
        replace (0 + k)%nat with k by lia.
        destruct (Nat.eqb_spec k 0) as [->|Hk0]; cbn [negb].
        -- rewrite Z.add_0_r, Z.eqb_refl. cbn [negb].
           apply IH; [rewrite <- app_assoc, firstn_skipn; exact E|].
           cbn [length] in *. lia.
        -- replace (data + Z.of_nat (length pre) + Z.of_nat k
                    =? data + Z.of_nat (length pre))
             with false by (symmetry; apply Z.eqb_neq; lia).
           cbn [negb].
           unfold data at 1 2.
           rewrite (slice_ok mem this bytes Hview pre k (x :: rest') E ltac:(lia)).
           rewrite (result_bind _ _ (span_view data (length pre, k)))
             by reflexivity.
           rewrite IH; [| rewrite <- app_assoc, firstn_skipn; exact E
                        | cbn [length] in *; lia].
           rewrite <- app_assoc. reflexivity.
      * cbn [at_offset nullptr Z.eqb negb].
        rewrite (spans_none _ _ (length pre) 0 F).
        cbn [filter Nat.add]. unfold nonempty_span. cbn [snd length Nat.eqb negb].
        rewrite Hend. unfold data at 1 2.
        rewrite (slice_ok mem this bytes Hview pre (length (x :: rest'))
                   (x :: rest') E ltac:(lia)).
        reflexivity.
Qed.

Lemma splitOnAnyWithoutEmptyParts_spec :
  result (splitOnAnyWithoutEmptyParts mem this delimiters)
  = Val (map (span_view data)
           (filter nonempty_span (spans (in_set chars) bytes 0 0))).
Proof.
  unfold splitOnAnyWithoutEmptyParts. cbv zeta. fold end_ data.
  pose proof (splitOnAnyWithoutEmptyParts_loop_spec (Z.to_nat (_size this))
                bytes [] [] eq_refl) as H.
  cbn [length app] in H. change (Z.of_nat 0) with 0 in H.
  rewrite Z.add_0_r in H. apply H.
  destruct Hview as [_ ->]. lia.
Qed.

End SplitProofs3.

(** Reading the bytes under the views the split routines return. *)
Lemma view_bytes_span mem this bytes sn :
  view_of mem this bytes ->
  (fst sn + snd sn <= length bytes)%nat ->
  view_bytes mem (span_view (_data this) sn) = Some (sub bytes (fst sn) (snd sn)).
Proof.
  intros [Hv _] H. unfold view_bytes, span_view. cbn [_data _size].
  rewrite Nat2Z.id.
  rewrite <- (length_sub bytes (fst sn) (snd sn) H) at 1.
  apply peek_mapped, mapped_sub; [apply valid_buffer_mapped, Hv | exact H].
Qed.

Lemma view_bytes_spans mem this bytes p :
  view_of mem this bytes ->
  map (view_bytes mem) (map (span_view (_data this)) (spans p bytes 0 0))
  = map Some (chunks p bytes).
Proof.
  intros Hv. pose proof (spans_in_range p bytes 0 0) as Hr.
  pose proof (spans_contents p bytes [] []) as Hc. cbn [app length] in Hc.
  pose proof (chunks_nonempty p bytes).
  assert (Hc' : map (fun sn => sub bytes (fst sn) (snd sn)) (spans p bytes 0 0)
                = chunks p bytes)
    by (rewrite Hc; destruct (chunks p bytes); [contradiction | reflexivity]).
  rewrite <- Hc', !map_map. apply map_ext_in. intros sn Hin.
  rewrite Forall_forall in Hr. specialize (Hr sn Hin). cbn in Hr.
  apply (view_bytes_span mem this bytes sn Hv). lia.
Qed.

Lemma in_set_iff chars x : in_set chars x = true <-> In x chars.
Proof.
  unfold in_set, is_char. rewrite existsb_exists. split.
  - intros (y & Hy & E). apply Z.eqb_eq in E. subst. exact Hy.
  - intros H. exists x. split; [exact H | apply Z.eqb_refl].
Qed.





(** ** Properties of the split routines *)

(** X8. Splitting an empty view gives no parts. Splitting a non-empty view
    on a character gives parts that do not contain that character and that,
    joined again with it, give back the bytes of the view; every part is a
    sub-view of the view split. *)
Theorem X8_split_parts_rejoin mem this bytes d :
  view_of mem this bytes ->
  exists parts,
    result (split mem this d) = Val parts /\
    (bytes = [] -> parts = []) /\
    (bytes <> [] ->
     exists contents,
       map (view_bytes mem) parts = map Some contents /\
       intercalate [d] contents = bytes /\
       Forall (fun c => ~ In d c) contents) /\
    Forall (fun v => _data this <= _data v /\ 0 <= _size v /\
                     _data v + _size v <= _data this + _size this) parts.
Proof.
  intros Hv. rewrite (split_spec mem this bytes Hv).
  eexists. split; [reflexivity|]. split; [|split].
  - intros ->. reflexivity.
  - intros Hne. exists (chunks (is_char d) bytes).
    destruct bytes as [|x bs] eqn:E; [congruence|]. rewrite <- E in *.
    split; [apply view_bytes_spans, Hv|].
    split; [apply chunks_intercalate|].
    eapply Forall_impl; [|apply chunks_clean].
    intros c Hc Hin. specialize (Hc d Hin). unfold is_char in Hc.
    rewrite Z.eqb_refl in Hc. discriminate.
  - destruct bytes as [|x bs] eqn:E; [constructor|]. rewrite <- E in *.
    apply Forall_map.
    eapply Forall_impl; [|apply (spans_in_range (is_char d) bytes 0 0)].
    intros [s n] H. cbn in *. destruct Hv as [_ ->]. lia.
Qed.

(** X9. [splitWithoutEmptyParts(char)] returns the parts [split(char)]
    returns, without the empty ones. *)
Theorem X9_splitWithoutEmptyParts_filters_split mem this bytes d :
  view_of mem this bytes ->
  exists parts,
    result (split mem this d) = Val parts /\
    result (splitWithoutEmptyParts mem this d)
    = Val (filter (fun v => negb (isEmpty v)) parts).
Proof.
  intros Hv. rewrite (split_spec mem this bytes Hv),
    (splitWithoutEmptyParts_spec mem this bytes Hv).
  eexists. split; [reflexivity|].
  destruct bytes as [|x bs] eqn:E; [reflexivity|].
  rewrite <- (filter_span_view (_data this)). reflexivity.
Qed.


(** X11. Splitting on a set of one character is splitting on that
    character without empty parts. *)
Theorem X11_splitOnAny_single_delimiter mem this delimiters bytes d :
  view_of mem this bytes -> view_of mem delimiters [d] ->
  result (splitOnAnyWithoutEmptyParts mem this delimiters)
  = result (splitWithoutEmptyParts mem this d).
Proof.
  intros Hv Hd.
  rewrite (splitOnAnyWithoutEmptyParts_spec mem this delimiters bytes [d] Hv Hd),
    (splitWithoutEmptyParts_spec mem this bytes Hv).
  rewrite (spans_ext (in_set [d]) (is_char d)); [reflexivity|].
  intros x. unfold in_set, is_char. cbn [existsb].
  rewrite orb_false_r. apply Z.eqb_sym.
Qed.


Lemma X8_split_parts_rejoin_witness :
  view_of two_texts (view_at 4096 banana) banana /\
  exists parts,
    result (split two_texts (view_at 4096 banana) 110) = Val parts /\
    (banana <> [] ->
     exists contents,
       map (view_bytes two_texts) parts = map Some contents /\
       intercalate [110] contents = banana /\
       Forall (fun c => ~ In 110 c) contents).
Proof.
  assert (Ha : view_of two_texts (view_at 4096 banana) banana) by view_holds.
  split; [exact Ha|].
  destruct (X8_split_parts_rejoin _ _ _ 110 Ha) as (parts & H1 & _ & H2 & _).
  exists parts. split; [exact H1 | exact H2].
Defined.

Lemma X9_splitWithoutEmptyParts_filters_split_witness :
  view_of two_texts (view_at 4096 banana) banana /\
  exists parts,
    result (split two_texts (view_at 4096 banana) 97) = Val parts /\
    result (splitWithoutEmptyParts two_texts (view_at 4096 banana) 97)
    = Val (filter (fun v => negb (isEmpty v)) parts).
Proof.
  assert (Ha : view_of two_texts (view_at 4096 banana) banana) by view_holds.
  split; [exact Ha|].
  exact (X9_splitWithoutEmptyParts_filters_split _ _ _ 97 Ha).
Defined.


Lemma X11_splitOnAny_single_delimiter_witness :
  view_of two_texts (view_at 4096 banana) banana /\
  view_of two_texts (view_at 4098 [110]) [110] /\
  result (splitOnAnyWithoutEmptyParts two_texts (view_at 4096 banana)
            (view_at 4098 [110]))
  = result (splitWithoutEmptyParts two_texts (view_at 4096 banana) 110).
Proof.
  assert (Ha : view_of two_texts (view_at 4096 banana) banana) by view_holds.
  assert (Hb : view_of two_texts (view_at 4098 [110]) [110]) by view_holds.
  split; [exact Ha|]. split; [exact Hb|].
  exact (X11_splitOnAny_single_delimiter _ _ _ _ _ Ha Hb).
Defined.


(** ** Building strings *)

Lemma view_of_shows mem v c : view_of mem v c -> shows mem v c.
Proof.
  intros [Hv Hs]. split; [|exact Hs]. unfold view_bytes.
  rewrite Hs, Nat2Z.id. apply peek_mapped, valid_buffer_mapped, Hv.
Qed.

Lemma set_cell_next (w : list char) k b :
  set_cell (map Some w ++ repeat None (S k)) (length w) b
  = map Some (w ++ [b]) ++ repeat None k.
Proof.
  unfold set_cell.
  rewrite firstn_app, skipn_app, length_map, Nat.sub_diag.
  rewrite firstn_all2, skipn_all2 by (rewrite length_map; lia).
  cbn [firstn skipn app repeat]. rewrite app_nil_r, map_app, <- app_assoc.
  reflexivity.
Qed.

Lemma write_at_append bs : forall (w : list char) k,
  (length bs <= k)%nat ->
  write_at (map Some w ++ repeat None k) (length w) bs
  = map Some (w ++ bs) ++ repeat None (k - length bs).
Proof.
  induction bs as [|b bs IH]; intros w k Hk; cbn [write_at length].
  - rewrite app_nil_r, Nat.sub_0_r. reflexivity.
  - destruct k as [|k]; [simpl in Hk; lia|].
    rewrite set_cell_next.
    replace (S (length w)) with (length (w ++ [b]))
      by (rewrite length_app; simpl; lia).
    rewrite IH by (simpl in Hk; lia).
    rewrite <- app_assoc. reflexivity.
Qed.

Lemma memcpy_into_append mem v c (w : list char) k :
  shows mem v c -> (length c <= k)%nat ->
  memcpy_into mem (map Some w ++ repeat None k) (Z.of_nat (length w))
    (_data v) (_size v)
  = ret (map Some (w ++ c) ++ repeat None (k - length c)).
Proof.
  intros [Hb Hs] Hk. unfold memcpy_into. unfold view_bytes in Hb.
  rewrite Hb, Nat2Z.id, write_at_append by exact Hk. reflexivity.
Qed.

Lemma length_intercalate_cons sep c cs :
  cs <> [] ->
  length (intercalate sep (c :: cs))
  = (length c + length sep + length (intercalate sep cs))%nat.
Proof.
  intros H. rewrite intercalate_cons by exact H. rewrite !length_app. lia.
Qed.

Lemma length_intercalate sep cs :
  cs <> [] ->
  Z.of_nat (length (intercalate sep cs))
  = (Z.of_nat (length cs) - 1) * Z.of_nat (length sep)
    + Z.of_nat (length (concat cs)).
Proof.
  induction cs as [|c cs IH]; [congruence|]. intros _.
  destruct cs as [|c' cs].
  - cbn. rewrite app_nil_r. lia.
  - rewrite length_intercalate_cons by discriminate.
    cbn [concat length]. rewrite !length_app.
    specialize (IH ltac:(discriminate)). cbn [length concat] in IH.
    rewrite !length_app in IH. nia.
Qed.

Lemma sum_sizes mem strings : forall cs t0,
  Forall2 (shows mem) strings cs ->
  0 <= t0 -> t0 + Z.of_nat (length (concat cs)) < 2 ^ 64 ->
  fold_left (fun total s => to_size_t (total + _size s)) strings t0
  = t0 + Z.of_nat (length (concat cs)).
Proof.
  induction strings as [|s strings IH]; intros cs t0 H H0 Hb;
    inversion H as [|? c ? cs' [_ Hs] Hrest]; subst; cbn [fold_left concat length].
  - lia.
  - cbn [concat] in Hb. rewrite length_app in *.
    unfold to_size_t at 2. rewrite Z.mod_small by lia.
    rewrite (IH cs' _ Hrest) by lia. lia.
Qed.

Section JoinProofs.

Variables (mem : memory) (this : StringView) (D : list char).
Hypothesis Hdelim : shows mem this D.

(** One round: the string is written, and the delimiter after it unless the
    string filled the output. *)
Lemma join_step_spec s c (w : list char) k :
  shows mem s c ->
  (length c <= k)%nat -> (k <> length c -> length c + length D <= k)%nat ->
  let D' := if (k =? length c)%nat then [] else D in
  join_step mem this (_size this) (Z.of_nat (length w + k)) s
    (map Some w ++ repeat None k, Z.of_nat (length w))
  = ret (map Some (w ++ c ++ D') ++ repeat None (k - length c - length D'),
         Z.of_nat (length (w ++ c ++ D'))).
Proof.
  intros Hsc Hk Hmore D'. unfold join_step. cbv beta iota zeta.
  assert (S1 : (if negb (_size s =? 0)
                then buf' <- memcpy_into mem (map Some w ++ repeat None k)
                               (Z.of_nat (length w)) (_data s) (_size s) ;;
                     ret (buf', Z.of_nat (length w) + _size s)
                else ret (map Some w ++ repeat None k, Z.of_nat (length w)))
               = ret (map Some (w ++ c) ++ repeat None (k - length c),
                      Z.of_nat (length (w ++ c)))).
  { destruct Hsc as [Hb Hs]. rewrite length_app.
    destruct (Z.eqb_spec (_size s) 0) as [E|E]; cbn [negb].
    - assert (c = []) by (destruct c; [reflexivity | simpl in Hs; lia]).
      subst c. cbn [length]. rewrite app_nil_r, Nat.sub_0_r, Nat.add_0_r.
      reflexivity.
    - rewrite (memcpy_into_append mem s c w k (conj Hb Hs) Hk).
      unfold bind, ret. cbn [fst snd app].
      rewrite Hs, <- Nat2Z.inj_add. reflexivity. }
  rewrite S1. unfold bind at 1, ret at 1. cbv beta iota zeta.
  destruct Hdelim as [Hdb Hds]. subst D'.
  destruct (Nat.eqb_spec k (length c)) as [->|Hne].
  - rewrite length_app, Z.eqb_refl, andb_false_r.
    unfold ret. cbn [app length]. rewrite !app_nil_r, Nat.sub_0_r, length_app.
    reflexivity.
  - specialize (Hmore Hne).
    destruct (Z.eqb_spec (_size this) 0) as [E|E]; cbn [negb andb].
    + assert (D = []) by (destruct D; [reflexivity | simpl in Hds; lia]).
      subst D. unfold ret. cbn [app length].
      rewrite !app_nil_r, Nat.sub_0_r. reflexivity.
    + replace (Z.of_nat (length (w ++ c)) =? Z.of_nat (length w + k)) with false
        by (symmetry; apply Z.eqb_neq; rewrite length_app; lia).
      cbn [negb].
      rewrite (memcpy_into_append mem this D (w ++ c) _ (conj Hdb Hds)) by lia.
      unfold bind, ret. cbn [app].
      rewrite <- app_assoc, Hds, <- Nat2Z.inj_add, <- length_app, <- app_assoc.
      reflexivity.
Qed.

Lemma join_loop_spec : forall strings cs (w : list char),
  Forall2 (shows mem) strings cs ->
  result (join_loop mem this (_size this)
            (Z.of_nat (length w + length (intercalate D cs))) strings
            (map Some w ++ repeat None (length (intercalate D cs)),
             Z.of_nat (length w)))
  = Val (map Some (w ++ intercalate D cs),
         Z.of_nat (length w + length (intercalate D cs))).
Proof.
  induction strings as [|s strings IH]; intros cs w H;
    inversion H as [|? c ? cs' Hsc Hrest]; subst.
  - cbn. rewrite !app_nil_r, Nat.add_0_r. reflexivity.
  - cbn [join_loop].
    destruct cs' as [|c' cs''].
    + inversion Hrest; subst. cbn [intercalate].
      rewrite (join_step_spec s c w (length c) Hsc ltac:(lia) ltac:(lia)).
      rewrite Nat.eqb_refl. cbn [length]. rewrite !app_nil_r, Nat.sub_0_r, Nat.sub_diag.
      cbn. rewrite app_nil_r, length_app. reflexivity.
    + pose proof (length_intercalate_cons D c (c' :: cs'') ltac:(discriminate))
        as HP.
      set (P' := intercalate D (c' :: cs'')) in *.
      set (k := length (intercalate D (c :: c' :: cs''))) in *.
      rewrite (join_step_spec s c w k Hsc ltac:(lia) ltac:(lia)).
      assert (HD' : (if (k =? length c)%nat then [] else D) = D).
      { destruct (Nat.eqb_spec k (length c)); [|reflexivity].
        destruct D; [reflexivity | simpl in *; lia]. }
      rewrite HD'.
      rewrite (result_bind _ _
                 (map Some (w ++ c ++ D)
                    ++ repeat None (k - length c - length D),
                  Z.of_nat (length (w ++ c ++ D)))) by reflexivity.
      specialize (IH (c' :: cs'') (w ++ c ++ D) Hrest). fold P' in IH.
      replace (k - length c - length D)%nat with (length P') by lia.
      replace (length w + k)%nat with (length (w ++ c ++ D) + length P')%nat
        by (rewrite !length_app; lia).
      rewrite IH. unfold k.
      rewrite (intercalate_cons D c (c' :: cs'')) by discriminate. fold P'.
      rewrite <- !app_assoc. reflexivity.
Qed.

Lemma join_spec strings cs :
  Forall2 (shows mem) strings cs ->
  Z.of_nat (length (intercalate D cs)) < 2 ^ 64 ->
  result (join mem this strings) = Val (map Some (intercalate D cs)).
Proof.
  intros H Hfit. unfold join. cbv zeta.
  assert (Htotal :
    fold_left (fun total s => to_size_t (total + _size s)) strings
      match strings with
      | [] => 0
      | _ :: _ => to_size_t ((Z.of_nat (length strings) - 1) * _size this)
      end
    = Z.of_nat (length (intercalate D cs))).
  { destruct Hdelim as [_ Hds].
    destruct strings as [|s strings'] eqn:Es.
    - inversion H; subst. reflexivity.
    - rewrite <- Es in *.
      assert (Hcs : cs <> []) by (subst strings; inversion H; discriminate).
      pose proof (length_intercalate D cs Hcs) as HL.
      rewrite <- (Forall2_length H) in HL. rewrite <- Hds in HL.
      assert (0 <= (Z.of_nat (length strings) - 1) * _size this).
      { apply Z.mul_nonneg_nonneg; [subst strings; cbn [length]; lia | lia]. }
      unfold to_size_t at 2. rewrite Z.mod_small by lia.
      rewrite (sum_sizes mem strings cs _ H) by lia. lia. }
  rewrite Htotal, Nat2Z.id.
  pose proof (join_loop_spec strings cs [] H) as HJ.
  cbn [length app map Nat.add] in HJ. change (Z.of_nat 0) with 0 in HJ.
  rewrite (result_bind _ _ _ HJ). rewrite Z.eqb_refl. reflexivity.
Qed.

End JoinProofs.

Lemma bind_ext {A B} (m : M A) (k k' : A -> M B) :
  (forall a, k a = k' a) -> bind m k = bind m k'.
Proof.
  intros H. destruct m as [[a|f] t]; [|reflexivity]. simpl. rewrite H.
  reflexivity.
Qed.

Lemma joinWithoutEmptyParts_loop_filter mem d ds e strings : forall st,
  joinWithoutEmptyParts_loop mem d ds e strings st
  = join_loop mem d ds e (filter (fun v => negb (isEmpty v)) strings) st.
Proof.
  induction strings as [|s strings IH]; intros st; [reflexivity|].
  cbn [joinWithoutEmptyParts_loop filter].
  destruct (isEmpty s); cbn [negb]; [apply IH|].
  cbn [join_loop]. apply bind_ext. exact IH.
Qed.

Lemma shows_filter_nonempty mem strings cs :
  Forall2 (shows mem) strings cs ->
  Forall2 (shows mem) (filter (fun v => negb (isEmpty v)) strings)
          (filter (fun c => negb (length c =? 0)%nat) cs).
Proof.
  induction 1 as [|s c strings cs Hsc _ IH]; [constructor|].
  cbn [filter]. unfold isEmpty at 1. destruct Hsc as [Hb Hs]. rewrite Hs.
  destruct c as [|x c']; cbn [length Nat.eqb negb Z.of_nat Z.eqb].
  - exact IH.
  - replace (Z.of_nat (S (length c')) =? 0) with false
      by (symmetry; apply Z.eqb_neq; lia).
    cbn [negb]. constructor; [split; assumption | exact IH].
Qed.

Lemma sum_sizes_nonempty mem (dsize : Z) strings : forall cs t0,
  Forall2 (shows mem) strings cs ->
  0 <= dsize -> 0 <= t0 ->
  let fcs := filter (fun c => negb (length c =? 0)%nat) cs in
  t0 + Z.of_nat (length (concat fcs)) + Z.of_nat (length fcs) * dsize < 2 ^ 64 ->
  fold_left (fun total s =>
               if isEmpty s then total
               else to_size_t (total + to_size_t (_size s + dsize)))
            strings t0
  = t0 + Z.of_nat (length (concat fcs)) + Z.of_nat (length fcs) * dsize.
Proof.
  induction strings as [|s strings IH]; intros cs t0 H Hd H0 fcs Hb;
    inversion H as [|? c ? cs' [_ Hs] Hrest]; subst; subst fcs;
    cbn [fold_left filter] in *.
  - cbn. lia.
  - assert (Hie : isEmpty s = (length c =? 0)%nat).
    { unfold isEmpty. rewrite Hs.
      destruct c; [reflexivity|]. cbn [length Nat.eqb]. apply Z.eqb_neq. lia. }
    rewrite Hie.
    destruct c as [|x c']; cbn [length Nat.eqb negb] in *.
    + apply IH; assumption.
    + cbn [concat length filter] in Hb |- *. rewrite length_app in Hb |- *.
      cbn [length] in Hb |- *.
      assert (0 <= Z.of_nat (length
                (filter (fun c => negb (length c =? 0)%nat) cs')) * dsize)
        by (apply Z.mul_nonneg_nonneg; lia).
      replace (to_size_t (t0 + to_size_t (_size s + dsize)))
        with (t0 + (Z.of_nat (S (length c')) + dsize)).
      2:{ rewrite Hs. unfold to_size_t.
          rewrite (Z.mod_small (Z.of_nat (S (length c')) + dsize)) by lia.
          rewrite Z.mod_small by lia. reflexivity. }
      rewrite (IH cs' _ Hrest) by lia. lia.
Qed.

Section JoinProofs2.

Variables (mem : memory) (this : StringView) (D : list char).
Hypothesis Hdelim : shows mem this D.

Lemma joinWithoutEmptyParts_spec strings cs :
  Forall2 (shows mem) strings cs ->
  let fcs := filter (fun c => negb (length c =? 0)%nat) cs in
  Z.of_nat (length (concat fcs)) + Z.of_nat (length fcs) * Z.of_nat (length D)
    < 2 ^ 64 ->
  result (joinWithoutEmptyParts mem this strings)
  = Val (map Some (intercalate D fcs)).
Proof.
  intros H fcs Hfit. unfold joinWithoutEmptyParts. cbv zeta.
  destruct Hdelim as [_ Hds].
  rewrite (sum_sizes_nonempty mem (_size this) strings cs 0 H)
    by (rewrite ?Hds; fold fcs; lia).
  fold fcs. rewrite Hds. rewrite Z.add_0_l.
  assert (Htotal :
    (if negb (Z.of_nat (length (concat fcs))
              + Z.of_nat (length fcs) * Z.of_nat (length D) =? 0)
     then to_size_t (Z.of_nat (length (concat fcs))
                     + Z.of_nat (length fcs) * Z.of_nat (length D)
                     - Z.of_nat (length D))
     else Z.of_nat (length (concat fcs))
          + Z.of_nat (length fcs) * Z.of_nat (length D))
    = Z.of_nat (length (intercalate D fcs))).
  { destruct fcs as [|c fcs'] eqn:E.
    - reflexivity.
    - assert (Hc : c <> []).
      { assert (Hin : In c (filter (fun c => negb (length c =? 0)%nat) cs))
          by (fold fcs; rewrite E; left; reflexivity).
        apply filter_In in Hin. destruct Hin as [_ Hl].
        destruct c; [discriminate | discriminate]. }
      rewrite (length_intercalate D (c :: fcs')) by discriminate.
      assert (0 < Z.of_nat (length (concat (c :: fcs'))))
        by (destruct c; [congruence | cbn; lia]).
      assert (0 <= Z.of_nat (length (c :: fcs')) * Z.of_nat (length D))
        by (apply Z.mul_nonneg_nonneg; lia).
      replace (Z.of_nat (length (concat (c :: fcs')))
               + Z.of_nat (length (c :: fcs')) * Z.of_nat (length D) =? 0)
        with false by (symmetry; apply Z.eqb_neq; lia).
      cbn [negb]. unfold to_size_t. rewrite Z.mod_small.
      + lia.
      + cbn [length] in *. nia. }
  rewrite Htotal, Nat2Z.id.
  rewrite joinWithoutEmptyParts_loop_filter.
  pose proof (join_loop_spec mem this D Hdelim _ fcs []
                (shows_filter_nonempty mem strings cs H)) as HJ.
  cbn [length app map Nat.add] in HJ. change (Z.of_nat 0) with 0 in HJ.
  rewrite <- Hds.
  rewrite (result_bind _ _ _ HJ). rewrite Z.eqb_refl. reflexivity.
Qed.

End JoinProofs2.

Lemma concat_repeat_snoc (A : list char) n :
  concat (repeat A n) ++ A = concat (repeat A (S n)).
Proof.
  induction n as [|n IH]; cbn [repeat concat].
  - rewrite app_nil_r. reflexivity.
  - rewrite <- app_assoc, IH. reflexivity.
Qed.

Lemma length_concat_repeat (A : list char) n :
  length (concat (repeat A n)) = (n * length A)%nat.
Proof.
  induction n as [|n IH]; [reflexivity|]. cbn [repeat concat].
  rewrite length_app, IH. lia.
Qed.

Section ConcatProofs.

Variables (mem : memory) (a : StringView) (A : list char).
Hypothesis Ha : shows mem a A.

Lemma operator_plus_spec b B :
  shows mem b B ->
  Z.of_nat (length A) + Z.of_nat (length B) < 2 ^ 64 ->
  result (operator_plus mem a b) = Val (map Some (A ++ B)).
Proof.
  intros Hb Hfit. unfold operator_plus. cbv zeta.
  pose proof Ha as [_ HsA]. pose proof Hb as [_ HsB]. rewrite HsA, HsB.
  unfold to_size_t. rewrite Z.mod_small by lia.
  rewrite <- Nat2Z.inj_add, Nat2Z.id.
  assert (R1 : (if negb (Z.of_nat (length A) =? 0)
                then memcpy_into mem (repeat None (length A + length B)) 0
                       (_data a) (Z.of_nat (length A))
                else ret (repeat None (length A + length B)))
               = ret (map Some A ++ repeat None (length B))).
  { destruct (Z.eqb_spec (Z.of_nat (length A)) 0) as [E|E]; cbn [negb].
    - destruct A; [reflexivity | simpl in E; lia].
    - pose proof (memcpy_into_append mem a A [] (length A + length B) Ha
                    ltac:(lia)) as H.
      cbn [map app length] in H. change (Z.of_nat 0) with 0 in H.
      rewrite HsA in H. rewrite H.
      replace (length A + length B - length A)%nat with (length B) by lia.
      reflexivity. }
  rewrite (result_bind _ _ (map Some A ++ repeat None (length B)))
    by (rewrite R1; reflexivity).
  destruct (Z.eqb_spec (Z.of_nat (length B)) 0) as [E|E]; cbn [negb].
  - destruct B; [|simpl in E; lia]. cbn. rewrite !app_nil_r. reflexivity.
  - pose proof (memcpy_into_append mem b B A (length B) Hb ltac:(lia)) as H.
    rewrite HsB in H. rewrite H, Nat.sub_diag. cbn. rewrite app_nil_r.
    reflexivity.
Qed.

Lemma operator_times_loop_spec : forall todo done,
  Z.of_nat ((done + todo) * length A) < 2 ^ 64 ->
  result (operator_times_loop mem a (_size a) todo (Z.of_nat done)
            (map Some (concat (repeat A done))
             ++ repeat None (todo * length A)))
  = Val (map Some (concat (repeat A (done + todo)))).
Proof.
  induction todo as [|todo IH]; intros done Hfit.
  - cbn. rewrite app_nil_r, Nat.add_0_r. reflexivity.
  - cbn [operator_times_loop]. pose proof Ha as [_ HsA].
    assert (Hoff : to_size_t (Z.of_nat done * _size a)
                   = Z.of_nat (length (concat (repeat A done)))).
    { rewrite length_concat_repeat, HsA. unfold to_size_t.
      rewrite Z.mod_small by nia. lia. }
    rewrite Hoff.
    rewrite (memcpy_into_append mem a A _ (S todo * length A) Ha)
      by (cbn; lia).
    rewrite (result_bind _ _ (map Some (concat (repeat A done) ++ A)
                              ++ repeat None (S todo * length A - length A)))
      by reflexivity.
    rewrite concat_repeat_snoc.
    replace (S todo * length A - length A)%nat with (todo * length A)%nat
      by (cbn; lia).
    replace (Z.of_nat done + 1) with (Z.of_nat (S done)) by lia.
    rewrite IH by (replace (S done + todo)%nat with (done + S todo)%nat by lia;
                   exact Hfit).
    replace (S done + todo)%nat with (done + S todo)%nat by lia.
    reflexivity.
Qed.

Lemma operator_times_spec count :
  Z.of_nat (count * length A) < 2 ^ 64 ->
  result (operator_times mem a (Z.of_nat count))
  = Val (map Some (concat (repeat A count))).
Proof.
  intros Hfit. unfold operator_times. cbv zeta. pose proof Ha as [_ HsA].
  replace (to_size_t (_size a * Z.of_nat count))
    with (Z.of_nat (count * length A))
    by (rewrite HsA; unfold to_size_t; rewrite Z.mod_small by nia; lia).
  replace (_size a =? 0) with (Z.of_nat (length A) =? 0)
    by (rewrite HsA; reflexivity).
  rewrite !Nat2Z.id.
  destruct (Z.eqb_spec (Z.of_nat (length A)) 0) as [E|E]; cbn [negb].
  - assert (A = []) by (destruct A; [reflexivity | simpl in E; lia]).
    rewrite H. cbn [length]. rewrite Nat.mul_0_r.
    replace (concat (repeat [] count)) with (@nil Z); [reflexivity|].
    clear. induction count; [reflexivity | exact IHcount].
  - pose proof (operator_times_loop_spec count 0 Hfit) as H.
    cbn [repeat concat map app Nat.add] in H. change (Z.of_nat 0) with 0 in H.
    exact H.
Qed.

End ConcatProofs.

(** ** Properties of the building routines *)

Lemma shows_spans mem this bytes sps :
  view_of mem this bytes ->
  Forall (fun sn => (fst sn + snd sn <= length bytes)%nat) sps ->
  Forall2 (shows mem) (map (span_view (_data this)) sps)
          (map (fun sn => sub bytes (fst sn) (snd sn)) sps).
Proof.
  intros Hv. induction 1 as [|sn sps Hsn _ IH]; cbn [map]; constructor.
  - split; [apply view_bytes_span; assumption|].
    cbn [span_view _size]. rewrite length_sub by exact Hsn. reflexivity.
  - exact IH.
Qed.

Lemma shows_split_parts mem this bytes p :
  view_of mem this bytes ->
  Forall2 (shows mem) (map (span_view (_data this)) (spans p bytes 0 0))
          (chunks p bytes).
Proof.
  intros Hv. pose proof (spans_contents p bytes [] []) as Hc.
  cbn [app length] in Hc. pose proof (chunks_nonempty p bytes).
  assert (Hc' : map (fun sn => sub bytes (fst sn) (snd sn)) (spans p bytes 0 0)
                = chunks p bytes)
    by (rewrite Hc; destruct (chunks p bytes); [contradiction | reflexivity]).
  rewrite <- Hc'. apply shows_spans; [exact Hv|].
  eapply Forall_impl; [|apply (spans_in_range p bytes 0 0)].
  cbv beta. intros; lia.
Qed.

Lemma length_intercalate_le sep cs :
  Z.of_nat (length (intercalate sep cs))
  <= Z.of_nat (length (concat cs)) + Z.of_nat (length cs) * Z.of_nat (length sep).
Proof.
  destruct cs as [|c cs]; [simpl; lia|].
  rewrite length_intercalate by discriminate. nia.
Qed.

Lemma length_concat_filter (p : list char -> bool) cs :
  (length (concat (filter p cs)) <= length (concat cs))%nat.
Proof.
  induction cs as [|c cs IH]; [simpl; lia|]. cbn [filter concat].
  destruct (p c); cbn [concat]; rewrite !length_app; lia.
Qed.

(** X13. [join] of the views [strings], called on a delimiter view, returns
    a string holding exactly the contents of the views in order with the
    delimiter's bytes between neighbours: every byte of the uninitialised
    buffer is written and the routine's final size assertion passes. *)
Theorem X13_join_intercalates mem this D strings cs :
  shows mem this D ->
  Forall2 (shows mem) strings cs ->
  Z.of_nat (length (intercalate D cs)) < 2 ^ 64 ->
  result (join mem this strings) = Val (map Some (intercalate D cs)) /\
  (cs = [] -> result (join mem this strings) = Val []) /\
  (forall c, cs = [c] -> result (join mem this strings) = Val (map Some c)).
Proof.
  intros Hd Hs Hfit.
  pose proof (join_spec mem this D Hd strings cs Hs Hfit) as E.
  split; [exact E|]. split.
  - intros ->. exact E.
  - intros c ->. exact E.
Qed.

(** X14. [joinWithoutEmptyParts] gives what [join] gives on the non-empty
    views alone: empty views contribute neither bytes nor a delimiter. *)
Theorem X14_joinWithoutEmptyParts_skips_empty mem this D strings cs :
  shows mem this D ->
  Forall2 (shows mem) strings cs ->
  Z.of_nat (length (concat cs)) + Z.of_nat (length cs) * Z.of_nat (length D)
    < 2 ^ 64 ->
  result (joinWithoutEmptyParts mem this strings)
  = result (join mem this (filter (fun v => negb (isEmpty v)) strings)) /\
  result (joinWithoutEmptyParts mem this strings)
  = Val (map Some
           (intercalate D (filter (fun c => negb (length c =? 0)%nat) cs))).
Proof.
  intros Hd Hs Hfit.
  set (fcs := filter (fun c => negb (length c =? 0)%nat) cs).
  assert (Hl : (length fcs <= length cs)%nat) by apply filter_length_le.
  pose proof (length_concat_filter (fun c => negb (length c =? 0)%nat) cs) as Hc.
  fold fcs in Hc.
  assert (Hfit' : Z.of_nat (length (concat fcs))
                  + Z.of_nat (length fcs) * Z.of_nat (length D) < 2 ^ 64) by nia.
  pose proof (joinWithoutEmptyParts_spec mem this D Hd strings cs Hs Hfit') as E.
  split; [|exact E]. rewrite E. symmetry.
  apply (join_spec mem this D Hd); [apply shows_filter_nonempty, Hs|].
  fold fcs. pose proof (length_intercalate_le D fcs). lia.
Qed.

(** X15. Splitting a view on a character and joining the parts with a
    one-character delimiter view of that character gives back the bytes of
    the view. *)
Theorem X15_join_of_split_round_trip mem this delimiter bytes d :
  view_of mem this bytes ->
  shows mem delimiter [d] ->
  exists parts,
    result (split mem this d) = Val parts /\
    result (join mem delimiter parts) = Val (map Some bytes).
Proof.
  intros Hv Hd. eexists. split; [apply (split_spec mem this bytes Hv)|].
  destruct bytes as [|x bytes'] eqn:Eb.
  - apply (join_spec mem delimiter [d] Hd [] []); [constructor | simpl; lia].
  - rewrite <- Eb in *.
    rewrite <- (chunks_intercalate d bytes) at 2.
    apply (join_spec mem delimiter [d] Hd).
    + apply shows_split_parts, Hv.
    + rewrite chunks_intercalate.
      destruct Hv as [(H0 & _ & Hfit & _) _]. unfold uintptr_bits in Hfit. lia.
Qed.

(** X16. [a + b] holds the bytes of [a] followed by the bytes of [b]. *)
Theorem X16_operator_plus_concatenates mem a b A B :
  shows mem a A -> shows mem b B ->
  Z.of_nat (length A) + Z.of_nat (length B) < 2 ^ 64 ->
  result (operator_plus mem a b) = Val (map Some (A ++ B)).
Proof. intros Ha Hb Hfit. apply (operator_plus_spec mem a A Ha b B Hb Hfit). Qed.

(** X17. [a * count] holds the bytes of [a] repeated [count] times; with a
    count of zero or an empty view the result is empty. *)
Theorem X17_operator_times_repeats mem a A count :
  shows mem a A ->
  Z.of_nat (count * length A) < 2 ^ 64 ->
  result (operator_times mem a (Z.of_nat count))
  = Val (map Some (concat (repeat A count))) /\
  (count = O \/ A = [] ->
   result (operator_times mem a (Z.of_nat count)) = Val []).
Proof.
  intros Ha Hfit.
  pose proof (operator_times_spec mem a A Ha count Hfit) as E.
  split; [exact E|]. intros [-> | ->]; rewrite E; [reflexivity|].
  clear. induction count as [|n IH]; [reflexivity | exact IH].
Qed.

Lemma X13_join_intercalates_witness :
  shows two_texts (view_at 8192 band) band /\
  Forall2 (shows two_texts) [view_at 4096 banana; view_at 4096 ban]
          [banana; ban] /\
  Z.of_nat (length (intercalate band [banana; ban])) < 2 ^ 64 /\
  result (join two_texts (view_at 8192 band)
            [view_at 4096 banana; view_at 4096 ban])
  = Val (map Some (intercalate band [banana; ban])).
Proof.
  assert (Hd : shows two_texts (view_at 8192 band) band) by shows_holds.
  assert (Hs : Forall2 (shows two_texts)
                 [view_at 4096 banana; view_at 4096 ban] [banana; ban])
    by (repeat constructor; vm_compute; reflexivity).
  assert (Hfit : Z.of_nat (length (intercalate band [banana; ban])) < 2 ^ 64)
    by (vm_compute; reflexivity).
  split; [exact Hd|]. split; [exact Hs|]. split; [exact Hfit|].
  exact (proj1 (X13_join_intercalates _ _ _ _ _ Hd Hs Hfit)).
Defined.

Lemma X14_joinWithoutEmptyParts_skips_empty_witness :
  shows two_texts (view_at 8192 band) band /\
  Forall2 (shows two_texts)
          [view_at 4096 banana; view_at 4096 []; view_at 4096 ban]
          [banana; []; ban] /\
  Z.of_nat (length (concat [banana; []; ban]))
  + Z.of_nat (length [banana; []; ban]) * Z.of_nat (length band) < 2 ^ 64 /\
  result (joinWithoutEmptyParts two_texts (view_at 8192 band)
            [view_at 4096 banana; view_at 4096 []; view_at 4096 ban])
  = Val (map Some (intercalate band [banana; ban])).
Proof.
  assert (Hd : shows two_texts (view_at 8192 band) band) by shows_holds.
  assert (Hs : Forall2 (shows two_texts)
                 [view_at 4096 banana; view_at 4096 []; view_at 4096 ban]
                 [banana; []; ban])
    by (repeat constructor; vm_compute; reflexivity).
  assert (Hfit : Z.of_nat (length (concat [banana; []; ban]))
                 + Z.of_nat (length [banana; []; ban])
                   * Z.of_nat (length band) < 2 ^ 64)
    by (vm_compute; reflexivity).
  split; [exact Hd|]. split; [exact Hs|]. split; [exact Hfit|].
  exact (proj2 (X14_joinWithoutEmptyParts_skips_empty _ _ _ _ _ Hd Hs Hfit)).
Defined.

Lemma X15_join_of_split_round_trip_witness :
  view_of two_texts (view_at 4096 banana) banana /\
  shows two_texts (view_at 4098 [110]) [110] /\
  exists parts,
    result (split two_texts (view_at 4096 banana) 110) = Val parts /\
    result (join two_texts (view_at 4098 [110]) parts) = Val (map Some banana).
Proof.
  assert (Ha : view_of two_texts (view_at 4096 banana) banana) by view_holds.
  assert (Hd : shows two_texts (view_at 4098 [110]) [110]) by shows_holds.
  split; [exact Ha|]. split; [exact Hd|].
  exact (X15_join_of_split_round_trip _ _ _ _ _ Ha Hd).
Defined.

Lemma X16_operator_plus_concatenates_witness :
  shows two_texts (view_at 4096 banana) banana /\
  shows two_texts (view_at 8192 band) band /\
  Z.of_nat (length banana) + Z.of_nat (length band) < 2 ^ 64 /\
  result (operator_plus two_texts (view_at 4096 banana) (view_at 8192 band))
  = Val (map Some (banana ++ band)).
Proof.
  assert (Ha : shows two_texts (view_at 4096 banana) banana) by shows_holds.
  assert (Hb : shows two_texts (view_at 8192 band) band) by shows_holds.
  assert (Hfit : Z.of_nat (length banana) + Z.of_nat (length band) < 2 ^ 64)
    by (vm_compute; reflexivity).
  split; [exact Ha|]. split; [exact Hb|]. split; [exact Hfit|].
  exact (X16_operator_plus_concatenates _ _ _ _ _ Ha Hb Hfit).
Defined.

Lemma X17_operator_times_repeats_witness :
  shows two_texts (view_at 8192 band) band /\
  Z.of_nat (3 * length band) < 2 ^ 64 /\
  result (operator_times two_texts (view_at 8192 band) (Z.of_nat 3))
  = Val (map Some (concat (repeat band 3))).
Proof.
  assert (Ha : shows two_texts (view_at 8192 band) band) by shows_holds.
  assert (Hfit : Z.of_nat (3 * length band) < 2 ^ 64)
    by (vm_compute; reflexivity).
  split; [exact Ha|]. split; [exact Hfit|].
  exact (proj1 (X17_operator_times_repeats _ _ _ 3%nat Ha Hfit)).
Defined.

(** ** Stripping a prefix or a suffix *)

Section StripProofs.

Variables (mem : memory) (this other : StringView) (T P : list char).
Hypothesis Hthis : view_of mem this T.
Hypothesis Hother : view_of mem other P.

Lemma exceptPrefix_view_spec :
  (forall rest, T = P ++ rest ->
     exists v, result (exceptPrefix_view mem this other) = Val v /\
               shows mem v rest /\ _data v = _data this + _size other) /\
  ((forall rest, T <> P ++ rest) ->
     result (exceptPrefix_view mem this other) = Fault AssertFailed).
Proof.
  destruct (hasPrefix_spec mem this other T P Hthis Hother) as (r & Hr & Hiff).
  unfold exceptPrefix_view. rewrite (result_bind _ _ r Hr).
  destruct Hthis as [HvT HsT], Hother as [HvP HsP]. split.
  - intros rest E.
    assert (r = true) as -> by (apply Hiff; exists rest; exact E).
    unfold assert, exceptPrefix, slice, assert. cbn [bind ret result fst].
    subst T. rewrite HsT, HsP, length_app.
    replace ((_data this <=? _data this + Z.of_nat (length P))
             && (_data this + Z.of_nat (length P)
                 <=? _data this + Z.of_nat (length P + length rest))
             && (_data this + Z.of_nat (length P + length rest)
                 <=? _data this + Z.of_nat (length P + length rest)))
      with true
      by (symmetry; repeat (apply andb_true_intro; split); apply Z.leb_le; lia).
    cbn [bind ret result fst]. eexists. split; [reflexivity|].
    split; [|reflexivity]. split; cbn [_data _size]; [|lia].
    unfold view_bytes. cbn [_data _size].
    replace (Z.to_nat (_data this + Z.of_nat (length P + length rest)
                       - (_data this + Z.of_nat (length P))))
      with (length rest) by lia.
    apply peek_mapped, mapped_app_r, valid_buffer_mapped, HvT.
  - intros Hno. destruct r.
    + destruct Hiff as [[rest E] _]; [reflexivity|]. destruct (Hno rest E).
    + reflexivity.
Qed.

Lemma exceptSuffix_view_spec :
  (forall rest, T = rest ++ P ->
     exists v, result (exceptSuffix_view mem this other) = Val v /\
               shows mem v rest /\ _data v = _data this) /\
  ((forall rest, T <> rest ++ P) ->
     result (exceptSuffix_view mem this other) = Fault AssertFailed).
Proof.
  destruct (hasSuffix_spec mem this other T P Hthis Hother) as (r & Hr & Hiff).
  unfold exceptSuffix_view. rewrite (result_bind _ _ r Hr).
  destruct Hthis as [HvT HsT], Hother as [HvP HsP]. split.
  - intros rest E.
    assert (r = true) as -> by (apply Hiff; exists rest; exact E).
    unfold assert, exceptSuffix, slice, assert. cbn [bind ret result fst].
    subst T. rewrite HsT, HsP, length_app.
    replace ((_data this <=? _data this)
             && (_data this
                 <=? _data this + Z.of_nat (length rest + length P)
                     - Z.of_nat (length P))
             && (_data this + Z.of_nat (length rest + length P)
                 - Z.of_nat (length P)
                 <=? _data this + Z.of_nat (length rest + length P)))
      with true
      by (symmetry; repeat (apply andb_true_intro; split); apply Z.leb_le; lia).
    cbn [bind ret result fst]. eexists. split; [reflexivity|].
    split; [|reflexivity]. split; cbn [_data _size]; [|lia].
    unfold view_bytes. cbn [_data _size].
    replace (Z.to_nat (_data this + Z.of_nat (length rest + length P)
                       - Z.of_nat (length P) - _data this))
      with (length rest) by lia.
    apply peek_mapped. apply valid_buffer_mapped in HvT.
    intros k Hk. rewrite (HvT k) by (rewrite length_app; lia).
    rewrite app_nth1 by exact Hk. reflexivity.
  - intros Hno. destruct r.
    + destruct Hiff as [[rest E] _]; [reflexivity|]. destruct (Hno rest E).
    + reflexivity.
Qed.

End StripProofs.

(** X18. [exceptPrefix(StringView)] returns the view of what follows the
    prefix when the string begins with it, and fails its assertion
    otherwise; [exceptSuffix(StringView)] likewise returns the view of
    what precedes the suffix, and fails when the string does not end
    with it. *)
Theorem X18_except_prefix_suffix_strip mem this other T P :
  view_of mem this T -> view_of mem other P ->
  (forall rest, T = P ++ rest ->
     exists v, result (exceptPrefix_view mem this other) = Val v /\
               shows mem v rest /\ _data v = _data this + _size other) /\
  ((forall rest, T <> P ++ rest) ->
     result (exceptPrefix_view mem this other) = Fault AssertFailed) /\
  (forall rest, T = rest ++ P ->
     exists v, result (exceptSuffix_view mem this other) = Val v /\
               shows mem v rest /\ _data v = _data this) /\
  ((forall rest, T <> rest ++ P) ->
     result (exceptSuffix_view mem this other) = Fault AssertFailed).
Proof.
  intros Ht Hp.
  destruct (exceptPrefix_view_spec mem this other T P Ht Hp) as [A B].
  destruct (exceptSuffix_view_spec mem this other T P Ht Hp) as [C D].
  split; [exact A|]. split; [exact B|]. split; [exact C | exact D].
Qed.

Lemma X18_except_prefix_suffix_strip_witness :
  view_of two_texts (view_at 4096 banana) banana /\
  view_of two_texts (view_at 8192 ban) ban /\
  (exists v,
     result (exceptPrefix_view two_texts (view_at 4096 banana)
               (view_at 8192 ban)) = Val v /\
     shows two_texts v (bytes_of_string "ana")) /\
  result (exceptSuffix_view two_texts (view_at 4096 banana) (view_at 8192 ban))
  = Fault AssertFailed.
Proof.
  assert (Ha : view_of two_texts (view_at 4096 banana) banana) by view_holds.
  assert (Hb : view_of two_texts (view_at 8192 ban) ban) by view_holds.
  split; [exact Ha|]. split; [exact Hb|].
  destruct (X18_except_prefix_suffix_strip _ _ _ _ _ Ha Hb)
    as (Pre & _ & _ & Suf).
  split.
  - destruct (Pre (bytes_of_string "ana") eq_refl) as (v & Hr & Hs & _).
    exists v. split; [exact Hr | exact Hs].
  - apply Suf. intros rest E.
    apply (f_equal (fun l => nth 0 (rev l) 0)) in E.
    rewrite rev_app_distr in E. vm_compute in E. discriminate E.
Defined.

(** ** Case conversion and replacement in place *)

Lemma lowercase_char_byte b :
  is_byte b ->
  lowercase_char b = if (65 <=? b) && (b <=? 90) then b + 32 else b.
Proof.
  intros Hb. unfold is_byte in Hb. unfold lowercase_char, to_uint8.
  change (byte_of_ascii "A") with 65.
  destruct (Z.leb_spec 65 b) as [H1|H1]; cbn [andb].
  - rewrite (Z.mod_small (b - 65)) by lia.
    destruct (Z.leb_spec b 90) as [H2|H2].
    + replace (b - 65 <? 26) with true by (symmetry; apply Z.ltb_lt; lia).
      change (Z.shiftl (Z.b2z true) 5) with 32. apply Z.mod_small. lia.
    + replace (b - 65 <? 26) with false by (symmetry; apply Z.ltb_ge; lia).
      change (Z.shiftl (Z.b2z false) 5) with 0. rewrite Z.add_0_r.
      apply Z.mod_small. lia.
  - replace ((b - 65) mod 256) with (b - 65 + 256)
      by (apply Z.mod_unique with (q := -1); lia).
    replace (b - 65 + 256 <? 26) with false by (symmetry; apply Z.ltb_ge; lia).
    change (Z.shiftl (Z.b2z false) 5) with 0. rewrite Z.add_0_r.
    apply Z.mod_small. lia.
Qed.

Lemma uppercase_char_byte b :
  is_byte b ->
  uppercase_char b = if (97 <=? b) && (b <=? 122) then b - 32 else b.
Proof.
  intros Hb. unfold is_byte in Hb. unfold uppercase_char, to_uint8.
  change (byte_of_ascii "a") with 97.
  destruct (Z.leb_spec 97 b) as [H1|H1]; cbn [andb].
  - rewrite (Z.mod_small (b - 97)) by lia.
    destruct (Z.leb_spec b 122) as [H2|H2].
    + replace (b - 97 <? 26) with true by (symmetry; apply Z.ltb_lt; lia).
      change (Z.shiftl (Z.b2z true) 5) with 32. apply Z.mod_small. lia.
    + replace (b - 97 <? 26) with false by (symmetry; apply Z.ltb_ge; lia).
      change (Z.shiftl (Z.b2z false) 5) with 0. rewrite Z.sub_0_r.
      apply Z.mod_small. lia.
  - replace ((b - 97) mod 256) with (b - 97 + 256)
      by (apply Z.mod_unique with (q := -1); lia).
    replace (b - 97 + 256 <? 26) with false by (symmetry; apply Z.ltb_ge; lia).
    change (Z.shiftl (Z.b2z false) 5) with 0. rewrite Z.sub_0_r.
    apply Z.mod_small. lia.
Qed.

Lemma store8_same mem p b : store8 mem p b p = Some b.
Proof. unfold store8. rewrite Z.eqb_refl. reflexivity. Qed.

Lemma store8_other mem p b a : a <> p -> store8 mem p b a = mem a.
Proof. intros H. unfold store8. apply Z.eqb_neq in H. rewrite H. reflexivity. Qed.

(** A loop that visits the bytes of a view in order and leaves [f x] where
    it found [x]. *)
Section InPlace.

Variable f : char -> char.
Variable loop : memory -> nat -> ptr -> M memory.
Hypothesis loop_O : forall mem p, loop mem O p = ret mem.
Hypothesis loop_S : forall mem n p x, mem p = Some x ->
  exists mem1, result (loop mem (S n) p) = result (loop mem1 n (p + 1)) /\
               mem1 p = Some (f x) /\ forall a, a <> p -> mem1 a = mem a.

Lemma in_place_spec : forall bytes mem p,
  mapped mem p bytes ->
  exists mem',
    result (loop mem (length bytes) p) = Val mem' /\
    mapped mem' p (map f bytes) /\
    forall a, a < p \/ p + Z.of_nat (length bytes) <= a -> mem' a = mem a.
Proof.
  induction bytes as [|x bytes IH]; intros mem p Hm.
  - exists mem. cbn [length]. rewrite loop_O. split; [reflexivity|].
    split; [|reflexivity]. intros k Hk. simpl in Hk. lia.
  - destruct (mapped_cons _ _ _ _ Hm) as [Hx Hrest].
    destruct (loop_S mem (length bytes) p x Hx) as (mem1 & Hr & H1 & Hsame).
    assert (Hm1 : mapped mem1 (p + 1) bytes).
    { intros k Hk. rewrite Hsame by lia. apply Hrest, Hk. }
    destruct (IH mem1 (p + 1) Hm1) as (mem' & Hr' & Hm' & Hout).
    exists mem'. cbn [length]. rewrite Hr, Hr'. split; [reflexivity|]. split.
    + intros [|k] Hk; cbn [map nth].
      * rewrite Z.add_0_r, Hout by lia. exact H1.
      * replace (p + Z.of_nat (S k)) with (p + 1 + Z.of_nat k) by lia.
        rewrite length_map in Hk. simpl in Hk.
        apply Hm'. rewrite length_map. lia.
    + intros a Ha. rewrite Hout by lia. apply Hsame. lia.
Qed.

Lemma in_place_view (string : StringView) mem bytes :
  view_of mem string bytes ->
  exists mem',
    result (loop mem (Z.to_nat (_size string)) (_data string)) = Val mem' /\
    view_of mem' string (map f bytes) /\
    forall a, a < _data string \/ _data string + _size string <= a ->
              mem' a = mem a.
Proof.
  intros [Hv Hs]. rewrite Hs, Nat2Z.id.
  destruct (in_place_spec bytes mem (_data string) (valid_buffer_mapped _ _ _ Hv))
    as (mem' & Hr & Hm & Hout).
  exists mem'. split; [exact Hr|]. split; [|exact Hout].
  destruct Hv as (H0 & Hne & Hfit & _).
  split; [|rewrite length_map; exact Hs].
  split; [exact H0|]. split.
  - intros Hn. apply Hne. intros ->. apply Hn. reflexivity.
  - split; [rewrite length_map; exact Hfit | exact Hm].
Qed.

End InPlace.

Lemma lowercaseInPlace_spec mem string bytes :
  view_of mem string bytes ->
  exists mem',
    result (lowercaseInPlace mem string) = Val mem' /\
    view_of mem' string (map lowercase_char bytes) /\
    forall a, a < _data string \/ _data string + _size string <= a ->
              mem' a = mem a.
Proof.
  apply (in_place_view lowercase_char lowercaseInPlace_loop); [reflexivity|].
  intros m n p x Hx. exists (store8 m p (lowercase_char x)).
  cbn [lowercaseInPlace_loop].
  rewrite (result_bind _ _ x)
    by (rewrite (load8_mapped _ _ _ Hx); reflexivity).
  split; [reflexivity|].
  split; [apply store8_same | intros a Ha; apply store8_other, Ha].
Qed.

Lemma uppercaseInPlace_spec mem string bytes :
  view_of mem string bytes ->
  exists mem',
    result (uppercaseInPlace mem string) = Val mem' /\
    view_of mem' string (map uppercase_char bytes) /\
    forall a, a < _data string \/ _data string + _size string <= a ->
              mem' a = mem a.
Proof.
  apply (in_place_view uppercase_char uppercaseInPlace_loop); [reflexivity|].
  intros m n p x Hx. exists (store8 m p (uppercase_char x)).
  cbn [uppercaseInPlace_loop].
  rewrite (result_bind _ _ x)
    by (rewrite (load8_mapped _ _ _ Hx); reflexivity).
  split; [reflexivity|].
  split; [apply store8_same | intros a Ha; apply store8_other, Ha].
Qed.

Lemma replaceAllInPlace_spec mem string bytes search replace :
  view_of mem string bytes ->
  exists mem',
    result (replaceAllInPlace mem string search replace) = Val mem' /\
    view_of mem' string
      (map (fun c => if c =? search then replace else c) bytes) /\
    forall a, a < _data string \/ _data string + _size string <= a ->
              mem' a = mem a.
Proof.
  apply (in_place_view (fun c => if c =? search then replace else c)
           (fun m n p => replaceAllInPlace_loop m n p search replace));
    [reflexivity|].
  intros m n p x Hx. cbn [replaceAllInPlace_loop].
  rewrite (result_bind _ _ x) by (rewrite (load8_mapped _ _ _ Hx); reflexivity).
  destruct (x =? search).
  - exists (store8 m p replace). split; [reflexivity|].
    split; [apply store8_same | intros a Ha; apply store8_other, Ha].
  - exists m. split; [reflexivity|]. split; [exact Hx | reflexivity].
Qed.

(** ** Number sequences *)

Lemma fill_range_bounds : forall count start,
  0 <= start -> start + Z.of_nat count <= 2 ^ 32 ->
  Forall (fun n => start <= n < start + Z.of_nat count) (fill_range count start).
Proof.
  induction count as [|count IH]; intros start H0 Hfit; cbn [fill_range];
    constructor.
  - lia.
  - destruct count as [|count']; [constructor|].
    assert (E : to_uint32 (start + 1) = start + 1)
      by (unfold to_uint32; apply Z.mod_small; lia).
    rewrite E. eapply Forall_impl; [|apply IH; lia].
    cbv beta. intros n Hn. lia.
Qed.

Section ParseProofs.

Variables (mem : memory) (min max : Z).
Hypothesis Hmin : 0 <= min < 2 ^ 32.
Hypothesis Hmax : 0 <= max < 2 ^ 32.

Lemma no_range_value : no_range = 2 ^ 32 - 1.
Proof. reflexivity. Qed.

Lemma at_delimiter_inv s : parse_inv min max s -> parse_inv min max (at_delimiter min max s).
Proof.
  intros (Ho & Hn & Hr). unfold at_delimiter, parse_inv.
  destruct (overflow s); cbn [out number rangeStart].
  { split; [exact Ho|]. split; [lia | exact Hr]. }
  destruct (Z.eqb_spec (rangeStart s) no_range) as [E|E]; cbn [negb].
  - destruct (hasNumber s && (number s >=? min) && (number s <? max)) eqn:C;
      cbn [out number rangeStart]; (split; [|split; [lia | exact Hr]]);
      [|exact Ho].
    apply andb_prop in C. destruct C as [C C2]. apply andb_prop in C.
    destruct C as [_ C1]. apply Z.geb_le in C1. apply Z.ltb_lt in C2.
    apply Forall_app. split; [exact Ho|]. constructor; [lia | constructor].
  - cbn [out number rangeStart]. rewrite no_range_value in *.
    split; [|split; lia].
    set (rangeEnd := if hasNumber s && (number s <? max)
                     then to_uint32 (number s + 1) else max).
    assert (Hend : rangeEnd <= max /\ 0 <= rangeEnd).
    { subst rangeEnd. destruct (hasNumber s && (number s <? max)) eqn:C; [|lia].
      apply andb_prop in C. destruct C as [_ C]. apply Z.ltb_lt in C.
      unfold to_uint32. rewrite Z.mod_small by lia. lia. }
    destruct (Z.gtb_spec rangeEnd (rangeStart s)) as [G|G]; [|exact Ho].
    apply Forall_app. split; [exact Ho|].
    unfold to_uint32 at 1. rewrite Z.mod_small by lia.
    eapply Forall_impl;
      [|apply (fill_range_bounds (Z.to_nat (rangeEnd - rangeStart s))
                 (rangeStart s)); lia].
    cbv beta. intros n Hn'. lia.
Qed.

Lemma at_digit_inv c s : parse_inv min max s -> parse_inv min max (at_digit c s).
Proof.
  intros (Ho & Hn & Hr). unfold at_digit, parse_inv. cbv zeta.
  cbn [out number rangeStart]. split; [exact Ho|]. split; [|exact Hr].
  unfold to_uint32. apply Z.mod_pos_bound. lia.
Qed.

Lemma at_dash_inv s : parse_inv min max s -> parse_inv min max (at_dash min s).
Proof.
  intros (Ho & Hn & Hr). unfold at_dash, parse_inv.
  cbn [out number rangeStart]. split; [exact Ho|]. split; [lia|].
  destruct (hasNumber s && (number s >=? min)) eqn:C; [|lia].
  apply andb_prop in C. destruct C as [_ C]. apply Z.geb_le in C. lia.
Qed.

Lemma parseNumberSequence_loop_spec : forall bytes p s,
  mapped mem p bytes -> parse_inv min max s ->
  exists r,
    result (parseNumberSequence_loop mem (length bytes) p min max s) = Val r /\
    (r = None <-> forallb sequence_char bytes = false) /\
    forall numbers, r = Some numbers ->
                    Forall (fun n => min <= n < max) numbers.
Proof.
  induction bytes as [|c bytes IH]; intros p s Hm Hs;
    cbn [length parseNumberSequence_loop forallb].
  - eexists. split; [reflexivity|]. split; [split; discriminate|].
    intros numbers E. injection E as <-. apply at_delimiter_inv, Hs.
  - destruct (mapped_cons _ _ _ _ Hm) as [Hc Hrest].
    rewrite (result_bind _ _ c) by (rewrite (load8_mapped _ _ _ Hc); reflexivity).
    unfold sequence_char at 1.
    destruct (is_sequence_delimiter c); cbn [orb andb].
    { apply IH; [exact Hrest | apply at_delimiter_inv, Hs]. }
    rewrite Z.geb_leb.
    destruct ((byte_of_ascii "0" <=? c) && (c <=? byte_of_ascii "9"));
      cbn [orb andb].
    { apply IH; [exact Hrest | apply at_digit_inv, Hs]. }
    destruct (c =? byte_of_ascii "-"); cbn [orb andb].
    { apply IH; [exact Hrest | apply at_dash_inv, Hs]. }
    exists None. split; [reflexivity|]. split; [split; reflexivity|].
    discriminate.
Qed.

Lemma parseNumberSequence_spec string bytes :
  view_of mem string bytes ->
  exists r,
    result (parseNumberSequence mem string min max) = Val r /\
    (r = None <-> forallb sequence_char bytes = false) /\
    forall numbers, r = Some numbers ->
                    Forall (fun n => min <= n < max) numbers.
Proof.
  intros [Hv Hsz]. unfold parseNumberSequence. rewrite Hsz, Nat2Z.id.
  apply parseNumberSequence_loop_spec; [apply valid_buffer_mapped, Hv|].
  unfold parse_inv. cbn [out number rangeStart]. rewrite no_range_value.
  split; [constructor | lia].
Qed.

End ParseProofs.

(** ** Properties of the [Utility::String] routines *)

Lemma map_ext_Forall {A B} (P : A -> Prop) (f g : A -> B) l :
  Forall P l -> (forall x, P x -> f x = g x) -> map f l = map g l.
Proof.
  intros H Hfg. induction H as [|x l Hx _ IH]; [reflexivity|].
  cbn [map]. rewrite (Hfg x Hx), IH. reflexivity.
Qed.

Lemma lowercase_char_is_byte b : is_byte (lowercase_char b).
Proof. unfold lowercase_char, to_uint8, is_byte. apply Z.mod_pos_bound. lia. Qed.

Lemma uppercase_char_is_byte b : is_byte (uppercase_char b).
Proof. unfold uppercase_char, to_uint8, is_byte. apply Z.mod_pos_bound. lia. Qed.

Lemma lowercase_after_uppercase b :
  is_byte b -> lowercase_char (uppercase_char b) = lowercase_char b.
Proof.
  intros Hb. rewrite (lowercase_char_byte (uppercase_char b))
    by apply uppercase_char_is_byte.
  rewrite (uppercase_char_byte b Hb), (lowercase_char_byte b Hb).
  unfold is_byte in Hb.
  destruct (Z.leb_spec 97 b), (Z.leb_spec b 122), (Z.leb_spec 65 b),
    (Z.leb_spec b 90); cbn [andb]; try lia;
  repeat match goal with
         | |- context [?x <=? ?y] => destruct (Z.leb_spec x y)
         end; cbn [andb]; lia.
Qed.

Lemma uppercase_after_lowercase b :
  is_byte b -> uppercase_char (lowercase_char b) = uppercase_char b.
Proof.
  intros Hb. rewrite (uppercase_char_byte (lowercase_char b))
    by apply lowercase_char_is_byte.
  rewrite (uppercase_char_byte b Hb), (lowercase_char_byte b Hb).
  unfold is_byte in Hb.
  destruct (Z.leb_spec 97 b), (Z.leb_spec b 122), (Z.leb_spec 65 b),
    (Z.leb_spec b 90); cbn [andb]; try lia;
  repeat match goal with
         | |- context [?x <=? ?y] => destruct (Z.leb_spec x y)
         end; cbn [andb]; lia.
Qed.

Lemma lowercase_twice b :
  is_byte b -> lowercase_char (lowercase_char b) = lowercase_char b.
Proof.
  intros Hb.
  rewrite <- (lowercase_after_uppercase (lowercase_char b))
    by apply lowercase_char_is_byte.
  rewrite uppercase_after_lowercase by exact Hb.
  apply lowercase_after_uppercase, Hb.
Qed.

Lemma uppercase_twice b :
  is_byte b -> uppercase_char (uppercase_char b) = uppercase_char b.
Proof.
  intros Hb.
  rewrite <- (uppercase_after_lowercase (uppercase_char b))
    by apply uppercase_char_is_byte.
  rewrite lowercase_after_uppercase by exact Hb.
  apply uppercase_after_lowercase, Hb.
Qed.

(** Two memories that show the same bytes under a view and agree with a
    third one elsewhere are equal at every address. *)
Lemma same_view_same_memory (m m1 m2 : memory) string bytes :
  view_of m1 string bytes -> view_of m2 string bytes ->
  (forall a, a < _data string \/ _data string + _size string <= a -> m1 a = m a) ->
  (forall a, a < _data string \/ _data string + _size string <= a -> m2 a = m a) ->
  forall a, m1 a = m2 a.
Proof.
  intros [(_ & _ & _ & H1) Hs] [(_ & _ & _ & H2) _] O1 O2 a.
  destruct (Z_lt_dec a (_data string)) as [L|L];
    [rewrite O1, O2 by lia; reflexivity|].
  destruct (Z_le_dec (_data string + _size string) a) as [G|G];
    [rewrite O1, O2 by lia; reflexivity|].
  replace a with (_data string + Z.of_nat (Z.to_nat (a - _data string))) by lia.
  rewrite H1, H2 by lia. reflexivity.
Qed.

(** X19. [lowercaseInPlace] adds 32 to the bytes 'A' to 'Z' of the view and
    [uppercaseInPlace] subtracts 32 from the bytes 'a' to 'z'; every other
    byte of the view, bytes above 127 included, and all memory outside the
    view stay as they were. *)
Theorem X19_case_conversion_in_place mem string bytes :
  view_of mem string bytes ->
  Forall is_byte bytes ->
  (exists mem',
     result (lowercaseInPlace mem string) = Val mem' /\
     view_of mem' string
       (map (fun b => if (65 <=? b) && (b <=? 90) then b + 32 else b) bytes) /\
     forall a, a < _data string \/ _data string + _size string <= a ->
               mem' a = mem a) /\
  (exists mem',
     result (uppercaseInPlace mem string) = Val mem' /\
     view_of mem' string
       (map (fun b => if (97 <=? b) && (b <=? 122) then b - 32 else b) bytes) /\
     forall a, a < _data string \/ _data string + _size string <= a ->
               mem' a = mem a).
Proof.
  intros Hv Hb. split.
  - destruct (lowercaseInPlace_spec mem string bytes Hv) as (mem' & Hr & Hv' & Ho).
    exists mem'. split; [exact Hr|]. split; [|exact Ho].
    rewrite <- (map_ext_Forall is_byte lowercase_char _ bytes Hb
                  lowercase_char_byte). exact Hv'.
  - destruct (uppercaseInPlace_spec mem string bytes Hv) as (mem' & Hr & Hv' & Ho).
    exists mem'. split; [exact Hr|]. split; [|exact Ho].
    rewrite <- (map_ext_Forall is_byte uppercase_char _ bytes Hb
                  uppercase_char_byte). exact Hv'.
Qed.

(** X20. The last case conversion wins: lowercasing after uppercasing leaves
    memory as lowercasing alone does, and uppercasing after lowercasing as
    uppercasing alone does. Converting twice is converting once. *)
Theorem X20_case_conversion_last_wins mem string bytes :
  view_of mem string bytes ->
  Forall is_byte bytes ->
  exists lower upper lower_upper upper_lower lower_lower upper_upper,
    result (lowercaseInPlace mem string) = Val lower /\
    result (uppercaseInPlace mem string) = Val upper /\
    result (lowercaseInPlace upper string) = Val lower_upper /\
    result (uppercaseInPlace lower string) = Val upper_lower /\
    result (lowercaseInPlace lower string) = Val lower_lower /\
    result (uppercaseInPlace upper string) = Val upper_upper /\
    (forall a, lower_upper a = lower a) /\
    (forall a, upper_lower a = upper a) /\
    (forall a, lower_lower a = lower a) /\
    (forall a, upper_upper a = upper a).
Proof.
  intros Hv Hb.
  destruct (lowercaseInPlace_spec mem string bytes Hv) as (lo & Hlo & Vlo & Olo).
  destruct (uppercaseInPlace_spec mem string bytes Hv) as (up & Hup & Vup & Oup).
  destruct (lowercaseInPlace_spec up string _ Vup) as (lu & Hlu & Vlu & Olu).
  destruct (uppercaseInPlace_spec lo string _ Vlo) as (ul & Hul & Vul & Oul).
  destruct (lowercaseInPlace_spec lo string _ Vlo) as (ll & Hll & Vll & Oll).
  destruct (uppercaseInPlace_spec up string _ Vup) as (uu & Huu & Vuu & Ouu).
  exists lo, up, lu, ul, ll, uu. repeat (split; [assumption|]).
  rewrite map_map in Vlu, Vul, Vll, Vuu.
  rewrite (map_ext_Forall is_byte _ lowercase_char bytes Hb
             lowercase_after_uppercase) in Vlu.
  rewrite (map_ext_Forall is_byte _ uppercase_char bytes Hb
             uppercase_after_lowercase) in Vul.
  rewrite (map_ext_Forall is_byte _ lowercase_char bytes Hb
             lowercase_twice) in Vll.
  rewrite (map_ext_Forall is_byte _ uppercase_char bytes Hb
             uppercase_twice) in Vuu.
  split; [|split; [|split]].
  - apply (same_view_same_memory mem lu lo string _ Vlu Vlo); [|exact Olo].
    intros a Ha. rewrite Olu, Oup by exact Ha. reflexivity.
  - apply (same_view_same_memory mem ul up string _ Vul Vup); [|exact Oup].
    intros a Ha. rewrite Oul, Olo by exact Ha. reflexivity.
  - apply (same_view_same_memory mem ll lo string _ Vll Vlo); [|exact Olo].
    intros a Ha. rewrite Oll, Olo by exact Ha. reflexivity.
  - apply (same_view_same_memory mem uu up string _ Vuu Vup); [|exact Oup].
    intros a Ha. rewrite Ouu, Oup by exact Ha. reflexivity.
Qed.

(** X21. [replaceAllInPlace] puts [replace] where the view held [search]
    and changes nothing else, inside or outside the view. If the two
    characters differ, a search for [search] in the view then finds
    nothing, at every instruction-set tier. *)
Theorem X21_replaceAllInPlace_removes_search mem string bytes search replace :
  view_of mem string bytes ->
  exists mem',
    result (replaceAllInPlace mem string search replace) = Val mem' /\
    view_of mem' string
      (map (fun c => if c =? search then replace else c) bytes) /\
    (forall a, a < _data string \/ _data string + _size string <= a ->
               mem' a = mem a) /\
    (search <> replace ->
     forall tier,
       result (stringFindCharacter mem' tier (_data string) (_size string) search)
       = Val nullptr).
Proof.
  intros Hv.
  destruct (replaceAllInPlace_spec mem string bytes search replace Hv)
    as (mem' & Hr & Hv' & Ho).
  exists mem'. split; [exact Hr|]. split; [exact Hv'|]. split; [exact Ho|].
  intros Hne tier. destruct Hv' as [Hb Hs]. rewrite Hs.
  rewrite (stringFindCharacter_spec mem' tier _ _ search Hb).
  rewrite find_first_absent; [reflexivity|].
  intros j Hj.
  rewrite (nth_indep _ 0 ((fun c => if c =? search then replace else c) 0) Hj).
  rewrite (map_nth (fun c => if c =? search then replace else c)).
  unfold is_char.
  destruct (Z.eqb_spec (nth j bytes 0) search) as [E|E]; apply Z.eqb_neq; congruence.
Qed.

Lemma bytes_of_string_is_byte s : Forall is_byte (bytes_of_string s).
Proof.
  unfold bytes_of_string. apply Forall_forall. intros b Hb.
  apply in_map_iff in Hb. destruct Hb as (x & <- & _).
  pose proof (Byte.to_N_bounded x). unfold is_byte. lia.
Qed.

Lemma X19_case_conversion_in_place_witness :
  view_of (mem_of 4096 greeting) (view_at 4096 greeting) greeting /\
  Forall is_byte greeting /\
  (exists mem',
     result (lowercaseInPlace (mem_of 4096 greeting) (view_at 4096 greeting))
     = Val mem' /\
     view_of mem' (view_at 4096 greeting) (bytes_of_string "hello, world")) /\
  (exists mem',
     result (uppercaseInPlace (mem_of 4096 greeting) (view_at 4096 greeting))
     = Val mem' /\
     view_of mem' (view_at 4096 greeting) (bytes_of_string "HELLO, WORLD")).
Proof.
  assert (Hv : view_of (mem_of 4096 greeting) (view_at 4096 greeting) greeting)
    by view_holds.
  assert (Hb : Forall is_byte greeting) by apply bytes_of_string_is_byte.
  split; [exact Hv|]. split; [exact Hb|].
  destruct (X19_case_conversion_in_place _ _ _ Hv Hb)
    as [(lo & Hlo & Vlo & _) (up & Hup & Vup & _)].
  split; [exists lo | exists up]; (split; [assumption|]); assumption.
Defined.

Lemma X20_case_conversion_last_wins_witness :
  view_of (mem_of 4096 greeting) (view_at 4096 greeting) greeting /\
  Forall is_byte greeting /\
  exists lower upper lower_upper,
    result (lowercaseInPlace (mem_of 4096 greeting) (view_at 4096 greeting))
    = Val lower /\
    result (uppercaseInPlace (mem_of 4096 greeting) (view_at 4096 greeting))
    = Val upper /\
    result (lowercaseInPlace upper (view_at 4096 greeting)) = Val lower_upper /\
    forall a, lower_upper a = lower a.
Proof.
  assert (Hv : view_of (mem_of 4096 greeting) (view_at 4096 greeting) greeting)
    by view_holds.
  assert (Hb : Forall is_byte greeting) by apply bytes_of_string_is_byte.
  split; [exact Hv|]. split; [exact Hb|].
  destruct (X20_case_conversion_last_wins _ _ _ Hv Hb)
    as (lo & up & lu & ul & ll & uu & H1 & H2 & H3 & _ & _ & _ & H6 & _).
  exists lo, up, lu. split; [exact H1|]. split; [exact H2|].
  split; [exact H3 | exact H6].
Defined.

Lemma X21_replaceAllInPlace_removes_search_witness :
  view_of two_texts (view_at 4096 banana) banana /\
  exists mem',
    result (replaceAllInPlace two_texts (view_at 4096 banana) 97 111)
    = Val mem' /\
    view_of mem' (view_at 4096 banana) (bytes_of_string "bonono") /\
    forall tier,
      result (stringFindCharacter mem' tier 4096 6 97) = Val nullptr.
Proof.
  assert (Hv : view_of two_texts (view_at 4096 banana) banana) by view_holds.
  split; [exact Hv|].
  destruct (X21_replaceAllInPlace_removes_search _ _ _ 97 111 Hv)
    as (mem' & Hr & Hv' & _ & Hfind).
  exists mem'. split; [exact Hr|]. split; [exact Hv'|].
  apply Hfind. discriminate.
Defined.

Lemma forallb_false_exists {A} (p : A -> bool) l :
  forallb p l = false <-> exists x, In x l /\ p x = false.
Proof.
  induction l as [|y l IH]; cbn [forallb].
  - split; [discriminate | intros (x & [] & _)].
  - rewrite andb_false_iff, IH. split.
    + intros [H | (x & Hin & Hx)];
        [exists y; split; [left; reflexivity | exact H]
        | exists x; split; [right; exact Hin | exact Hx]].
    + intros (x & [-> | Hin] & Hx); [left; exact Hx | right; exists x; tauto].
Qed.

(** X22. [parseNumberSequence] always returns, and it returns no value
    exactly when the string holds a character that is neither a decimal
    digit, nor a dash, nor one of the delimiters (comma, semicolon, space,
    tab, form feed, vertical tab, carriage return, newline); overflowing
    or out-of-bounds numbers never make it fail. *)
Theorem X22_parseNumberSequence_fails_on_unrecognized mem string bytes min max :
  view_of mem string bytes ->
  0 <= min < 2 ^ 32 -> 0 <= max < 2 ^ 32 ->
  exists r,
    result (parseNumberSequence mem string min max) = Val r /\
    (r = None <-> exists c, In c bytes /\ sequence_char c = false).
Proof.
  intros Hv Hmin Hmax.
  destruct (parseNumberSequence_spec mem min max Hmin Hmax string bytes Hv)
    as (r & Hr & Hnone & _).
  exists r. split; [exact Hr|]. rewrite Hnone. apply forallb_false_exists.
Qed.

(** X23. Every number [parseNumberSequence] returns lies in [[min, max)],
    whatever the string holds: numbers out of bounds are dropped and
    ranges are clamped. *)
Theorem X23_parseNumberSequence_within_bounds mem string bytes min max numbers :
  view_of mem string bytes ->
  0 <= min < 2 ^ 32 -> 0 <= max < 2 ^ 32 ->
  result (parseNumberSequence mem string min max) = Val (Some numbers) ->
  Forall (fun n => min <= n < max) numbers.
Proof.
  intros Hv Hmin Hmax E.
  destruct (parseNumberSequence_spec mem min max Hmin Hmax string bytes Hv)
    as (r & Hr & _ & Hb).
  apply Hb. rewrite Hr in E. injection E as ->. reflexivity.
Qed.

Lemma X22_parseNumberSequence_fails_on_unrecognized_witness :
  view_of (mem_of 4096 numbers_text) (view_at 4096 numbers_text) numbers_text /\
  0 <= 0 < 2 ^ 32 /\ 0 <= 12 < 2 ^ 32 /\
  exists r,
    result (parseNumberSequence (mem_of 4096 numbers_text)
              (view_at 4096 numbers_text) 0 12) = Val r /\
    (r = None <-> exists c, In c numbers_text /\ sequence_char c = false).
Proof.
  assert (Hv : view_of (mem_of 4096 numbers_text) (view_at 4096 numbers_text)
                 numbers_text) by view_holds.
  assert (Hmin : 0 <= 0 < 2 ^ 32) by lia.
  assert (Hmax : 0 <= 12 < 2 ^ 32) by lia.
  split; [exact Hv|]. split; [exact Hmin|]. split; [exact Hmax|].
  exact (X22_parseNumberSequence_fails_on_unrecognized _ _ _ 0 12 Hv Hmin Hmax).
Defined.

Lemma X23_parseNumberSequence_within_bounds_witness :
  view_of (mem_of 4096 numbers_text) (view_at 4096 numbers_text) numbers_text /\
  0 <= 0 < 2 ^ 32 /\ 0 <= 12 < 2 ^ 32 /\
  result (parseNumberSequence (mem_of 4096 numbers_text)
            (view_at 4096 numbers_text) 0 12) = Val (Some [1; 3; 4; 5]) /\
  Forall (fun n => 0 <= n < 12) [1; 3; 4; 5].
Proof.
  assert (Hv : view_of (mem_of 4096 numbers_text) (view_at 4096 numbers_text)
                 numbers_text) by view_holds.
  assert (Hmin : 0 <= 0 < 2 ^ 32) by lia.
  assert (Hmax : 0 <= 12 < 2 ^ 32) by lia.
  assert (Hr : result (parseNumberSequence (mem_of 4096 numbers_text)
                         (view_at 4096 numbers_text) 0 12)
               = Val (Some [1; 3; 4; 5])) by (vm_compute; reflexivity).
  split; [exact Hv|]. split; [exact Hmin|]. split; [exact Hmax|].
  split; [exact Hr|].
  exact (X23_parseNumberSequence_within_bounds _ _ _ 0 12 _ Hv Hmin Hmax Hr).
Defined.

(** ** Well-formed number sequences *)

Lemma fill_range_Zseq : forall count start,
  start + Z.of_nat count <= 2 ^ 32 -> 0 <= start ->
  fill_range count start = Zseq start count.
Proof.
  unfold Zseq. induction count as [|count IH]; intros start Hfit H0;
    [reflexivity|].
  cbn [fill_range seq map]. f_equal; [lia|].
  destruct count as [|count']; [reflexivity|].
  assert (E : to_uint32 (start + 1) = start + 1)
    by (unfold to_uint32; apply Z.mod_small; lia).
  rewrite E, IH by lia. rewrite <- seq_shift, map_map.
  apply map_ext. intros k. lia.
Qed.

Lemma digits_value_from_le ds : forall n,
  Forall (fun d => 0 <= d <= 9) ds -> 0 <= n -> n <= digits_value_from n ds.
Proof.
  unfold digits_value_from.
  induction ds as [|d ds IH]; intros n H Hn; [simpl; lia|].
  inversion H as [|? ? Hd Hds]; subst. cbn [fold_left].
  specialize (IH (n * 10 + d) Hds). lia.
Qed.

Lemma digit_not_delimiter d :
  0 <= d <= 9 -> is_sequence_delimiter (byte_of_ascii "0" + d) = false.
Proof.
  intros Hd. change (byte_of_ascii "0") with 48.
  assert (C : d = 0 \/ d = 1 \/ d = 2 \/ d = 3 \/ d = 4 \/ d = 5 \/ d = 6
              \/ d = 7 \/ d = 8 \/ d = 9) by lia.
  repeat (destruct C as [-> | C]; [reflexivity|]). subst d. reflexivity.
Qed.

Lemma sequence_chars_cons pc d ps last :
  sequence_chars ((pc, d) :: ps) last
  = piece_chars pc ++ d :: sequence_chars ps last.
Proof.
  unfold sequence_chars. cbn [map concat fst snd].
  rewrite <- !app_assoc. reflexivity.
Qed.

Section SequenceProofs.

Variables (mem : memory) (min max : Z).
Hypothesis Hmin : 0 <= min < 2 ^ 32.
Hypothesis Hmax : 0 <= max < 2 ^ 32.

Lemma parse_digits : forall ds rest p o h n r,
  mapped mem p (digit_chars ds ++ rest) ->
  Forall (fun d => 0 <= d <= 9) ds ->
  0 <= n -> digits_value_from n ds < 2 ^ 32 ->
  result (parseNumberSequence_loop mem (length (digit_chars ds ++ rest)) p
            min max
            {| out := o; hasNumber := h; number := n; overflow := false;
               rangeStart := r |})
  = result (parseNumberSequence_loop mem (length rest)
              (p + Z.of_nat (length ds)) min max
              {| out := o; hasNumber := h || negb (length ds =? 0)%nat;
                 number := digits_value_from n ds; overflow := false;
                 rangeStart := r |}).
Proof.
  induction ds as [|d ds IH]; intros rest p o h n r Hm Hd Hn Hv.
  - cbn [digit_chars map app length Nat.eqb negb].
    rewrite orb_false_r, Z.add_0_r. reflexivity.
  - inversion Hd as [|? ? Hd0 Hds]; subst.
    change (digit_chars (d :: ds) ++ rest)
      with ((byte_of_ascii "0" + d) :: (digit_chars ds ++ rest)) in *.
    destruct (mapped_cons _ _ _ _ Hm) as [Hc Hrest].
    cbn [length parseNumberSequence_loop].
    rewrite (result_bind _ _ (byte_of_ascii "0" + d))
      by (rewrite (load8_mapped _ _ _ Hc); reflexivity).
    rewrite (digit_not_delimiter d Hd0).
    change (byte_of_ascii "0") with 48. change (byte_of_ascii "9") with 57.
    replace ((48 + d >=? 48) && (48 + d <=? 57)) with true
      by (symmetry; apply andb_true_intro; split;
          [apply Z.geb_le | apply Z.leb_le]; lia).
    unfold digits_value_from in Hv. cbn [fold_left] in Hv.
    pose proof (digits_value_from_le ds (n * 10 + d) Hds) as Hle.
    unfold digits_value_from in Hle.
    unfold at_digit. cbv zeta. cbn [out hasNumber number overflow rangeStart].
    change (byte_of_ascii "0") with 48.
    replace ((n * 10 + (48 + d - 48)) mod 2 ^ 64) with (n * 10 + d)
      by (rewrite Z.mod_small by lia; lia).
    replace (to_uint32 (n * 10 + d)) with (n * 10 + d)
      by (unfold to_uint32; rewrite Z.mod_small by lia; lia).
    replace (n * 10 + d >? no_range) with false
      by (symmetry; rewrite Z.gtb_ltb; apply Z.ltb_ge;
          change no_range with (2 ^ 32 - 1); lia).
    rewrite (IH rest (p + 1) o true (n * 10 + d) r Hrest Hds)
      by (exact Hv || lia).
    cbn [length Nat.eqb negb orb]. rewrite orb_true_r.
    unfold digits_value_from. cbn [fold_left].
    replace (p + 1 + Z.of_nat (length ds)) with (p + Z.of_nat (S (length ds)))
      by lia.
    reflexivity.
Qed.

Lemma parse_piece pc rest p o :
  mapped mem p (piece_chars pc ++ rest) ->
  piece_ok min pc ->
  result (parseNumberSequence_loop mem (length (piece_chars pc ++ rest)) p
            min max (between_pieces o))
  = result (parseNumberSequence_loop mem (length rest)
              (p + Z.of_nat (length (piece_chars pc))) min max
              (after_piece min o pc)).
Proof.
  intros Hm Hok. destruct pc as [ds | a b]; cbn [piece_chars piece_ok] in *.
  - destruct Hok as [Hd Hv]. unfold between_pieces.
    rewrite (parse_digits ds rest p o false 0 no_range Hm Hd) by (exact Hv || lia).
    unfold digit_chars. rewrite length_map. reflexivity.
  - destruct Hok as ([Hda Hva] & [Hdb Hvb] & Hlo). unfold between_pieces.
    rewrite <- app_assoc in *.
    rewrite (parse_digits a _ p o false 0 no_range Hm Hda) by (exact Hva || lia).
    apply mapped_app_r in Hm. unfold digit_chars in Hm at 1.
    rewrite length_map in Hm.
    change ((byte_of_ascii "-" :: digit_chars b) ++ rest)
      with (byte_of_ascii "-" :: (digit_chars b ++ rest)) in *.
    destruct (mapped_cons _ _ _ _ Hm) as [Hc Hrest].
    cbn [length parseNumberSequence_loop].
    rewrite (result_bind _ _ (byte_of_ascii "-"))
      by (rewrite (load8_mapped _ _ _ Hc); reflexivity).
    change (is_sequence_delimiter (byte_of_ascii "-")) with false.
    change ((byte_of_ascii "-" >=? byte_of_ascii "0")
            && (byte_of_ascii "-" <=? byte_of_ascii "9")) with false.
    change (byte_of_ascii "-" =? byte_of_ascii "-") with true. cbv iota.
    unfold at_dash. cbn [out hasNumber number overflow rangeStart orb].
    rewrite (parse_digits b rest _ o false 0 _ Hrest Hdb) by (exact Hvb || lia).
    cbn [orb]. unfold after_piece.
    replace (p + Z.of_nat (length a) + 1 + Z.of_nat (length b))
      with (p + Z.of_nat (length (digit_chars a ++ byte_of_ascii "-"
                                   :: digit_chars b)))
      by (rewrite length_app; cbn [length]; unfold digit_chars;
          rewrite !length_map; lia).
    replace (if negb (length a =? 0)%nat && (digits_value_from 0 a >=? min)
             then digits_value_from 0 a else min)
      with (range_low min a); [reflexivity|].
    unfold range_low. fold (digits_value a).
    destruct a as [|d a']; [reflexivity|]. cbn [length Nat.eqb negb andb].
    destruct (Z.geb_spec (digits_value (d :: a')) min); lia.
Qed.

Lemma digits_value_nonneg ds :
  Forall (fun d => 0 <= d <= 9) ds -> 0 <= digits_value ds.
Proof. intros H. apply (digits_value_from_le ds 0 H). lia. Qed.

Lemma at_delimiter_after_piece pc o :
  piece_ok min pc ->
  at_delimiter min max (after_piece min o pc)
  = between_pieces (o ++ piece_numbers min max pc).
Proof.
  intros Hok. destruct pc as [ds | a b]; cbn [piece_ok] in Hok;
    unfold at_delimiter, after_piece, between_pieces;
    cbn [out hasNumber number overflow rangeStart].
  - rewrite Z.eqb_refl. cbn [negb]. unfold piece_numbers.
    destruct ds as [|d ds']; cbn [length Nat.eqb negb andb];
      [rewrite app_nil_r; reflexivity|].
    rewrite Z.geb_leb.
    destruct ((min <=? digits_value (d :: ds'))
              && (digits_value (d :: ds') <? max));
      [reflexivity | rewrite app_nil_r; reflexivity].
  - destruct Hok as ([Hda Hva] & [Hdb Hvb] & Hlo).
    change no_range with (2 ^ 32 - 1).
    replace (range_low min a =? 2 ^ 32 - 1) with false
      by (symmetry; apply Z.eqb_neq; exact Hlo).
    cbn [negb]. unfold piece_numbers.
    assert (Hlo0 : 0 <= range_low min a < 2 ^ 32).
    { unfold range_low. pose proof (digits_value_nonneg a Hda).
      destruct a; lia. }
    assert (Hend : (if negb (length b =? 0)%nat && (digits_value b <? max)
                    then to_uint32 (digits_value b + 1) else max)
                   = range_high max b).
    { unfold range_high. pose proof (digits_value_nonneg b Hdb).
      destruct b as [|d b']; [reflexivity|]. cbn [length Nat.eqb negb andb].
      destruct (Z.ltb_spec (digits_value (d :: b')) max).
      - unfold to_uint32. rewrite Z.mod_small by lia. lia.
      - lia. }
    rewrite Hend.
    assert (Hhi : range_high max b <= max).
    { unfold range_high. destruct b; lia. }
    destruct (Z.gtb_spec (range_high max b) (range_low min a)) as [G|G].
    + unfold to_uint32. rewrite Z.mod_small by lia.
      rewrite fill_range_Zseq by lia. reflexivity.
    + replace (Z.to_nat (range_high max b - range_low min a)) with O by lia.
      cbn [Zseq seq map]. rewrite app_nil_r. reflexivity.
Qed.

Lemma parse_pieces last : forall ps p o,
  mapped mem p (sequence_chars ps last) ->
  Forall (fun pd => piece_ok min (fst pd)
                    /\ is_sequence_delimiter (snd pd) = true) ps ->
  piece_ok min last ->
  result (parseNumberSequence_loop mem (length (sequence_chars ps last)) p
            min max (between_pieces o))
  = Val (Some (o ++ concat (map (piece_numbers min max)
                              (map fst ps ++ [last])))).
Proof.
  induction ps as [|[pc d] ps IH]; intros p o Hm Hps Hlast.
  - unfold sequence_chars in *. cbn [map concat app] in *.
    rewrite <- (app_nil_r (piece_chars last)) in Hm |- * .
    rewrite (parse_piece last [] p o Hm Hlast).
    cbn [length parseNumberSequence_loop result ret fst].
    rewrite at_delimiter_after_piece by exact Hlast.
    cbn [between_pieces out]. rewrite app_nil_r. reflexivity.
  - inversion Hps as [|? ? [Hpc Hd] Hps']; subst. cbn [fst snd] in *.
    rewrite sequence_chars_cons in *.
    rewrite (parse_piece pc _ p o Hm Hpc).
    apply mapped_app_r in Hm.
    destruct (mapped_cons _ _ _ _ Hm) as [Hc Hrest].
    cbn [length parseNumberSequence_loop].
    rewrite (result_bind _ _ d)
      by (rewrite (load8_mapped _ _ _ Hc); reflexivity).
    rewrite Hd. rewrite at_delimiter_after_piece by exact Hpc.
    rewrite (IH _ _ Hrest Hps' Hlast).
    cbn [map app concat]. rewrite app_assoc. reflexivity.
Qed.

Lemma parse_range_from_largest a b p :
  mapped mem p (piece_chars (Range a b)) ->
  digits_ok a -> digits_ok b -> digits_value a = 2 ^ 32 - 1 ->
  result (parseNumberSequence_loop mem (length (piece_chars (Range a b))) p
            min max (between_pieces []))
  = Val (Some (piece_numbers min max (Single b))).
Proof.
  intros Hm [Hda Hva] [Hdb Hvb] Ea. cbn [piece_chars] in *.
  unfold between_pieces.
  rewrite (parse_digits a _ p [] false 0 no_range Hm Hda) by (exact Hva || lia).
  apply mapped_app_r in Hm. unfold digit_chars in Hm at 1.
  rewrite length_map in Hm.
  destruct (mapped_cons _ _ _ _ Hm) as [Hc Hrest].
  cbn [length parseNumberSequence_loop].
  rewrite (result_bind _ _ (byte_of_ascii "-"))
    by (rewrite (load8_mapped _ _ _ Hc); reflexivity).
  change (is_sequence_delimiter (byte_of_ascii "-")) with false.
  change ((byte_of_ascii "-" >=? byte_of_ascii "0")
          && (byte_of_ascii "-" <=? byte_of_ascii "9")) with false.
  change (byte_of_ascii "-" =? byte_of_ascii "-") with true. cbv iota.
  unfold at_dash. cbn [out hasNumber number overflow rangeStart orb].
  fold (digits_value a). rewrite Ea.
  assert (Hne : negb (length a =? 0)%nat = true)
    by (destruct a; [discriminate Ea | reflexivity]).
  rewrite Hne.
  replace (2 ^ 32 - 1 >=? min) with true by (symmetry; apply Z.geb_le; lia).
  cbn [andb]. change (2 ^ 32 - 1) with no_range.
  rewrite <- (app_nil_r (digit_chars b)) in Hrest |- *.
  rewrite (parse_digits b [] _ [] false 0 no_range Hrest Hdb)
    by (exact Hvb || lia).
  cbn [length parseNumberSequence_loop result ret fst orb].
  change {| out := []; hasNumber := negb (length b =? 0)%nat;
            number := digits_value_from 0 b; overflow := false;
            rangeStart := no_range |}
    with (after_piece min [] (Single b)).
  rewrite at_delimiter_after_piece by (split; assumption).
  reflexivity.
Qed.

End SequenceProofs.

(** X24. On a well-formed sequence, that is pieces separated by delimiters,
    each piece a number, a range (either end optional) or empty, all
    numbers below 2^32 and no range starting at 2^32 - 1,
    [parseNumberSequence] returns the numbers of the pieces in order: a
    number if it lies in [[min, max)], a range from [Z.max min first] up
    to [Z.min max (last + 1)] exclusive. *)
Theorem X24_parseNumberSequence_well_formed mem string ps last min max :
  view_of mem string (sequence_chars ps last) ->
  0 <= min < 2 ^ 32 -> 0 <= max < 2 ^ 32 ->
  Forall (fun pd => piece_ok min (fst pd)
                    /\ is_sequence_delimiter (snd pd) = true) ps ->
  piece_ok min last ->
  result (parseNumberSequence mem string min max)
  = Val (Some (concat (map (piece_numbers min max) (map fst ps ++ [last])))).
Proof.
  intros [Hv Hs] Hmin Hmax Hps Hlast. unfold parseNumberSequence.
  rewrite Hs, Nat2Z.id.
  apply (parse_pieces mem min max Hmin Hmax last ps (_data string) []);
    [apply valid_buffer_mapped, Hv | exact Hps | exact Hlast].
Qed.

(** X25. A range written with 4294967295 as its first number is not read as
    a range: that value is what the parser keeps in [rangeStart] to mean
    that it is outside a range, so the result is the number after the dash
    alone, if there is one and it lies in [[min, max)]. *)
Theorem X25_parseNumberSequence_range_from_largest mem string a b min max :
  view_of mem string (piece_chars (Range a b)) ->
  0 <= min < 2 ^ 32 -> 0 <= max < 2 ^ 32 ->
  digits_ok a -> digits_ok b -> digits_value a = 2 ^ 32 - 1 ->
  result (parseNumberSequence mem string min max)
  = Val (Some (piece_numbers min max (Single b))).
Proof.
  intros [Hv Hs] Hmin Hmax Ha Hb Ea. unfold parseNumberSequence.
  rewrite Hs, Nat2Z.id.
  apply (parse_range_from_largest mem min max Hmin Hmax a b (_data string));
    [apply valid_buffer_mapped, Hv | exact Ha | exact Hb | exact Ea].
Qed.

Lemma X24_parseNumberSequence_well_formed_witness :
  let ps := [(Single [1], byte_of_ascii ","); (Range [3] [5], byte_of_ascii ";")] in
  let last := Single [7; 0] in
  view_of (mem_of 4096 numbers_text) (view_at 4096 numbers_text)
    (sequence_chars ps last) /\
  0 <= 0 < 2 ^ 32 /\ 0 <= 12 < 2 ^ 32 /\
  Forall (fun pd => piece_ok 0 (fst pd)
                    /\ is_sequence_delimiter (snd pd) = true) ps /\
  piece_ok 0 last /\
  result (parseNumberSequence (mem_of 4096 numbers_text)
            (view_at 4096 numbers_text) 0 12)
  = Val (Some (concat (map (piece_numbers 0 12) (map fst ps ++ [last])))).
Proof.
  intros ps last.
  assert (Hv : view_of (mem_of 4096 numbers_text) (view_at 4096 numbers_text)
                 (sequence_chars ps last)) by view_holds.
  assert (Hmin : 0 <= 0 < 2 ^ 32) by lia.
  assert (Hmax : 0 <= 12 < 2 ^ 32) by lia.
  assert (Hps : Forall (fun pd => piece_ok 0 (fst pd)
                                  /\ is_sequence_delimiter (snd pd) = true) ps).
  { constructor; [|constructor; [|constructor]]; cbn [fst snd piece_ok].
    - split; [|reflexivity]. split; [repeat constructor; lia|].
      vm_compute; reflexivity.
    - split; [|reflexivity]. split; [|split].
      + split; [repeat constructor; lia | vm_compute; reflexivity].
      + split; [repeat constructor; lia | vm_compute; reflexivity].
      + vm_compute. discriminate. }
  assert (Hlast : piece_ok 0 last)
    by (split; [repeat constructor; lia | vm_compute; reflexivity]).
  split; [exact Hv|]. split; [exact Hmin|]. split; [exact Hmax|].
  split; [exact Hps|]. split; [exact Hlast|].
  exact (X24_parseNumberSequence_well_formed _ _ ps last 0 12
           Hv Hmin Hmax Hps Hlast).
Defined.

Lemma X25_parseNumberSequence_range_from_largest_witness :
  let a := [4; 2; 9; 4; 9; 6; 7; 2; 9; 5] in
  let text := piece_chars (Range a [3]) in
  view_of (mem_of 4096 text) (view_at 4096 text) text /\
  0 <= 0 < 2 ^ 32 /\ 0 <= 12 < 2 ^ 32 /\
  digits_ok a /\ digits_ok [3] /\ digits_value a = 2 ^ 32 - 1 /\
  result (parseNumberSequence (mem_of 4096 text) (view_at 4096 text) 0 12)
  = Val (Some [3]).
Proof.
  intros a text.
  assert (Hv : view_of (mem_of 4096 text) (view_at 4096 text) text)
    by view_holds.
  assert (Hmin : 0 <= 0 < 2 ^ 32) by lia.
  assert (Hmax : 0 <= 12 < 2 ^ 32) by lia.
  assert (Ha : digits_ok a)
    by (split; [repeat constructor; lia | vm_compute; reflexivity]).
  assert (Hb : digits_ok [3])
    by (split; [repeat constructor; lia | vm_compute; reflexivity]).
  assert (Ea : digits_value a = 2 ^ 32 - 1) by (vm_compute; reflexivity).
  split; [exact Hv|]. split; [exact Hmin|]. split; [exact Hmax|].
  split; [exact Ha|]. split; [exact Hb|]. split; [exact Ea|].
  exact (X25_parseNumberSequence_range_from_largest _ _ a [3] 0 12
           Hv Hmin Hmax Ha Hb Ea).
Defined.

(** ** Trimming and partitioning of [std::string] *)

Lemma drop_while_skipn cs s :
  match find_first (not_in_set cs) s with
  | Some k => skipn k s = drop_while (in_set cs) s /\ (k < length s)%nat
  | None => drop_while (in_set cs) s = []
  end.
Proof.
  induction s as [|x s IH]; [reflexivity|].
  cbn [find_first drop_while]. unfold not_in_set at 1.
  destruct (in_set cs x); cbn [negb].
  - destruct (find_first (not_in_set cs) s) as [k|]; cbn [option_map].
    + destruct IH as [IH Hk]. split; [exact IH | simpl; lia].
    + exact IH.
  - split; [reflexivity | simpl; lia].
Qed.

Lemma drop_while_end_firstn cs s :
  rev (drop_while (in_set cs) (rev s))
  = match find_last (not_in_set cs) s with
    | Some k => firstn (S k) s
    | None => []
    end.
Proof.
  induction s as [|x s IH] using rev_ind; [reflexivity|].
  rewrite rev_app_distr, find_last_snoc. cbn [rev app drop_while].
  unfold not_in_set at 1. destruct (in_set cs x); cbn [negb].
  - rewrite IH. destruct (find_last (not_in_set cs) s) as [k|] eqn:E;
      [|reflexivity].
    destruct (find_last_Some _ _ _ E) as (Hk & _).
    rewrite firstn_app. replace (S k - length s)%nat with O by lia.
    cbn [firstn]. rewrite app_nil_r. reflexivity.
  - cbn [rev]. rewrite rev_involutive.
    rewrite firstn_all2 by (rewrite length_app; simpl; lia). reflexivity.
Qed.

Lemma drop_while_split p l :
  exists pre, l = pre ++ drop_while p l /\ forallb p pre = true.
Proof.
  induction l as [|x l (pre & E & Hp)]; [exists []; split; reflexivity|].
  cbn [drop_while]. destruct (p x) eqn:Hx.
  - exists (x :: pre). split; [cbn [app]; rewrite <- E; reflexivity|].
    cbn [forallb]. rewrite Hx, Hp. reflexivity.
  - exists []. split; reflexivity.
Qed.

Lemma drop_while_head p l x rest : drop_while p l = x :: rest -> p x = false.
Proof.
  induction l as [|y l IH]; [discriminate|]. cbn [drop_while].
  destruct (p y) eqn:Hy; [exact IH|]. intros E. injection E as -> _. exact Hy.
Qed.

Lemma drop_while_fixed p l :
  (forall x rest, l = x :: rest -> p x = false) -> drop_while p l = l.
Proof.
  destruct l as [|x l]; [reflexivity|]. intros H. cbn [drop_while].
  rewrite (H x l eq_refl). reflexivity.
Qed.

Lemma length_drop_while p l : (length (drop_while p l) <= length l)%nat.
Proof.
  induction l as [|x l IH]; [simpl; lia|]. cbn [drop_while].
  destruct (p x); simpl in *; lia.
Qed.

Lemma ltrimInPlace_spec string characters :
  Std.size string < Std.npos ->
  ltrimInPlace string characters
  = Some (drop_while (in_set characters) string).
Proof.
  unfold Std.size. change Std.npos with (2 ^ 64 - 1). intros Hs.
  unfold ltrimInPlace, Std.erase, Std.find_first_not_of, Std.size.
  replace (0 >? Z.of_nat (length string)) with false
    by (symmetry; rewrite Z.gtb_ltb; apply Z.ltb_ge; lia).
  cbv zeta. cbn [Z.to_nat firstn app]. f_equal.
  pose proof (drop_while_skipn characters string) as H.
  destruct (find_first (not_in_set characters) string) as [k|].
  - destruct H as [H Hk]. rewrite <- H. f_equal. lia.
  - rewrite H. change Std.npos with (2 ^ 64 - 1).
    apply skipn_all2. lia.
Qed.

Lemma rtrimInPlace_spec string characters :
  Std.size string < Std.npos ->
  rtrimInPlace string characters
  = Some (rev (drop_while (in_set characters) (rev string))).
Proof.
  unfold Std.size. change Std.npos with (2 ^ 64 - 1). intros Hs.
  rewrite drop_while_end_firstn.
  unfold rtrimInPlace, Std.erase, Std.find_last_not_of, Std.size.
  destruct (find_last (not_in_set characters) string) as [k|] eqn:E.
  - destruct (find_last_Some _ _ _ E) as (Hk & _).
    unfold to_size_t. rewrite Z.mod_small by lia.
    replace (Z.of_nat k + 1 >? Z.of_nat (length string)) with false
      by (symmetry; rewrite Z.gtb_ltb; apply Z.ltb_ge; lia).
    cbv zeta. change Std.npos with (2 ^ 64 - 1).
    rewrite skipn_all2 by lia. rewrite app_nil_r. f_equal. f_equal. lia.
  - change (to_size_t (Std.npos + 1)) with 0.
    replace (0 >? Z.of_nat (length string)) with false
      by (symmetry; rewrite Z.gtb_ltb; apply Z.ltb_ge; lia).
    cbv zeta. change Std.npos with (2 ^ 64 - 1).
    rewrite skipn_all2 by lia. reflexivity.
Qed.

Lemma trimInPlace_spec string characters :
  Std.size string < Std.npos ->
  trimInPlace string characters
  = Some (drop_while (in_set characters)
            (rev (drop_while (in_set characters) (rev string)))).
Proof.
  intros Hs. unfold trimInPlace. rewrite rtrimInPlace_spec by exact Hs.
  apply ltrimInPlace_spec. unfold Std.size in *. rewrite length_rev.
  pose proof (length_drop_while (in_set characters) (rev string)) as H.
  rewrite length_rev in H. lia.
Qed.

(** X26. [ltrimInPlace] removes the longest prefix made of the given
    characters, [rtrimInPlace] the longest such suffix and [trimInPlace]
    both; a string made only of those characters becomes empty (the
    "not found" position [npos] erases everything on the left, and wraps
    to position 0 on the right). *)
Theorem X26_trim_in_place_drops string characters :
  Std.size string < Std.npos ->
  ltrimInPlace string characters
  = Some (drop_while (in_set characters) string) /\
  rtrimInPlace string characters
  = Some (rev (drop_while (in_set characters) (rev string))) /\
  trimInPlace string characters
  = Some (drop_while (in_set characters)
            (rev (drop_while (in_set characters) (rev string)))) /\
  (forallb (in_set characters) string = true ->
   ltrimInPlace string characters = Some [] /\
   rtrimInPlace string characters = Some [] /\
   trimInPlace string characters = Some []).
Proof.
  intros Hs.
  pose proof (ltrimInPlace_spec string characters Hs) as HL.
  pose proof (rtrimInPlace_spec string characters Hs) as HR.
  pose proof (trimInPlace_spec string characters Hs) as HT.
  split; [exact HL|]. split; [exact HR|]. split; [exact HT|].
  intros Hall.
  assert (D : forall l, forallb (in_set characters) l = true ->
                        drop_while (in_set characters) l = []).
  { induction l as [|x l IH]; [reflexivity|]. cbn [forallb drop_while].
    intros H. apply andb_prop in H. destruct H as [Hx Hl].
    rewrite Hx. exact (IH Hl). }
  assert (Hrev : forallb (in_set characters) (rev string) = true).
  { rewrite forallb_forall in *. intros x Hx. apply Hall, in_rev, Hx. }
  rewrite HL, HR, HT, (D _ Hall), (D _ Hrev). repeat split; reflexivity.
Qed.

(** X27. [trimInPlace] keeps a contiguous middle part of the string: what
    it cuts off on either side consists of the given characters only, what
    it keeps neither begins nor ends with one of them, and trimming the
    result again changes nothing. *)
Theorem X27_trim_in_place_middle string characters :
  Std.size string < Std.npos ->
  exists before kept after,
    trimInPlace string characters = Some kept /\
    string = before ++ kept ++ after /\
    Forall (fun c => In c characters) before /\
    Forall (fun c => In c characters) after /\
    (forall x rest, kept = x :: rest -> ~ In x characters) /\
    (forall rest x, kept = rest ++ [x] -> ~ In x characters) /\
    trimInPlace kept characters = Some kept.
Proof.
  intros Hs. set (p := in_set characters).
  assert (Hin : forall l, forallb p l = true ->
                          Forall (fun c => In c characters) l).
  { intros l H. apply Forall_forall. intros x Hx.
    rewrite forallb_forall in H. apply in_set_iff, H, Hx. }
  assert (Hnot : forall x, p x = false -> ~ In x characters).
  { intros x H Hx. apply in_set_iff in Hx. unfold p in H. congruence. }
  destruct (drop_while_split p (rev string)) as (post & Epost & Hpost).
  set (R := rev (drop_while p (rev string))) in *.
  destruct (drop_while_split p R) as (pre & Epre & Hpre).
  set (t := drop_while p R) in *.
  assert (Es : string = pre ++ t ++ rev post).
  { rewrite <- (rev_involutive string), Epost, rev_app_distr.
    fold R. rewrite Epre at 1. rewrite app_assoc. reflexivity. }
  assert (Hhead : forall x rest, t = x :: rest -> p x = false)
    by (intros x rest E; exact (drop_while_head p R x rest E)).
  assert (Hlast : forall rest x, t = rest ++ [x] -> p x = false).
  { intros rest x E.
    assert (ER : R = (pre ++ rest) ++ [x])
      by (rewrite Epre, E, app_assoc; reflexivity).
    unfold R in ER. apply (f_equal (@rev _)) in ER.
    rewrite rev_involutive, rev_app_distr in ER. cbn [rev app] in ER.
    exact (drop_while_head p _ _ _ ER). }
  exists pre, t, (rev post).
  split; [apply trimInPlace_spec, Hs|]. split; [exact Es|].
  split; [apply Hin, Hpre|]. split.
  { apply Hin. rewrite forallb_forall in *. intros x Hx.
    apply Hpost, in_rev, Hx. }
  split; [intros x rest E; exact (Hnot x (Hhead x rest E))|].
  split; [intros rest x E; exact (Hnot x (Hlast rest x E))|].
  rewrite trimInPlace_spec.
  - fold p. f_equal.
    assert (E1 : drop_while p (rev t) = rev t).
    { apply drop_while_fixed. intros x rest E.
      apply (Hlast (rev rest) x).
      rewrite <- (rev_involutive t), E. reflexivity. }
    rewrite E1, rev_involutive. apply drop_while_fixed, Hhead.
  - unfold Std.size in *. rewrite Es in Hs. rewrite !length_app in Hs. lia.
Qed.

Lemma X26_trim_in_place_drops_witness :
  Std.size (bytes_of_string "  ab c  ") < Std.npos /\
  ltrimInPlace (bytes_of_string "  ab c  ") (bytes_of_string " ")
  = Some (bytes_of_string "ab c  ") /\
  rtrimInPlace (bytes_of_string "  ab c  ") (bytes_of_string " ")
  = Some (bytes_of_string "  ab c") /\
  trimInPlace (bytes_of_string "  ab c  ") (bytes_of_string " ")
  = Some (bytes_of_string "ab c").
Proof.
  assert (Hs : Std.size (bytes_of_string "  ab c  ") < Std.npos)
    by (vm_compute; reflexivity).
  split; [exact Hs|].
  destruct (X26_trim_in_place_drops (bytes_of_string "  ab c  ")
              (bytes_of_string " ") Hs) as (HL & HR & HT & _).
  split; [exact HL|]. split; [exact HR | exact HT].
Defined.

Lemma X27_trim_in_place_middle_witness :
  Std.size (bytes_of_string "  ab c  ") < Std.npos /\
  exists before kept after,
    trimInPlace (bytes_of_string "  ab c  ") (bytes_of_string " ") = Some kept /\
    bytes_of_string "  ab c  " = before ++ kept ++ after /\
    trimInPlace kept (bytes_of_string " ") = Some kept.
Proof.
  assert (Hs : Std.size (bytes_of_string "  ab c  ") < Std.npos)
    by (vm_compute; reflexivity).
  split; [exact Hs|].
  destruct (X27_trim_in_place_middle (bytes_of_string "  ab c  ")
              (bytes_of_string " ") Hs)
    as (before & kept & after & H1 & H2 & _ & _ & _ & _ & H3).
  exists before, kept, after. split; [exact H1|]. split; [exact H2 | exact H3].
Defined.

Lemma split_at_sub (l : list char) o m :
  l = firstn o l ++ sub l o m ++ skipn (o + m) l.
Proof.
  unfold sub.
  transitivity (firstn o l ++ skipn o l); [symmetry; apply firstn_skipn|].
  f_equal.
  transitivity (firstn m (skipn o l) ++ skipn m (skipn o l));
    [symmetry; apply firstn_skipn|].
  f_equal. rewrite skipn_skipn. f_equal. lia.
Qed.

Lemma occurs_at_iff hay needle o :
  occurs_at hay needle o <->
  (o + length needle <= length hay)%nat /\ sub hay o (length needle) = needle.
Proof.
  unfold occurs_at, sub. split.
  - intros (b & a & -> & <-). split.
    + rewrite !length_app. lia.
    + rewrite skipn_app, Nat.sub_diag, skipn_all. cbn [skipn app].
      rewrite firstn_app, Nat.sub_diag, firstn_all. cbn [firstn].
      apply app_nil_r.
  - intros [Hl E]. exists (firstn o hay), (skipn (o + length needle) hay).
    split; [|rewrite length_firstn; lia].
    pose proof (split_at_sub hay o (length needle)) as H.
    unfold sub in H. rewrite E in H. exact H.
Qed.

Lemma occurs_at_matches hay needle o :
  occurs_at hay needle o <->
  (o < length hay + 1 - length needle)%nat /\ matches_at hay needle o = true.
Proof.
  rewrite occurs_at_iff. split.
  - intros [Hl E]. split; [lia|]. apply matches_at_iff; assumption.
  - intros [Hl E]. assert (Hl' : (o + length needle <= length hay)%nat) by lia.
    split; [exact Hl'|]. apply matches_at_iff; assumption.
Qed.

Section PartitionProofs.

Variables string separator : list char.
Hypothesis Hsize : Std.size string < Std.npos.

Lemma substr_at (o m : nat) :
  (o + m <= length string)%nat ->
  Std.substr string (Z.of_nat o) (Z.of_nat m) = Some (sub string o m).
Proof.
  intros H. unfold Std.substr, Std.size.
  replace (Z.of_nat o >? Z.of_nat (length string)) with false
    by (symmetry; rewrite Z.gtb_ltb; apply Z.ltb_ge; lia).
  rewrite Z.min_l by lia. rewrite !Nat2Z.id. reflexivity.
Qed.

Lemma substr_rest (o : nat) :
  (o <= length string)%nat ->
  Std.substr string (Z.of_nat o) Std.npos = Some (skipn o string).
Proof.
  intros H. unfold Std.substr, Std.size in *.
  change Std.npos with (2 ^ 64 - 1) in *.
  replace (Z.of_nat o >? Z.of_nat (length string)) with false
    by (symmetry; rewrite Z.gtb_ltb; apply Z.ltb_ge; lia).
  rewrite Z.min_r by lia. rewrite Nat2Z.id. unfold sub.
  rewrite firstn_all2 by (rewrite length_skipn; lia). reflexivity.
Qed.

Lemma pieces_at (k : nat) :
  occurs_at string separator k ->
  (Z.of_nat k =? Std.npos) = false /\
  Std.substr string 0 (Z.of_nat k) = Some (firstn k string) /\
  Std.substr string (Z.of_nat k) (Std.size separator) = Some separator /\
  Std.substr string (to_size_t (Z.of_nat k + Std.size separator)) Std.npos
  = Some (skipn (k + length separator) string) /\
  firstn k string ++ separator ++ skipn (k + length separator) string = string /\
  length (firstn k string) = k.
Proof.
  intros Hocc. apply occurs_at_iff in Hocc. destruct Hocc as [Hl E].
  pose proof Hsize as Hs. unfold Std.size in *.
  change Std.npos with (2 ^ 64 - 1) in Hs |- *.
  split; [apply Z.eqb_neq; lia|]. split.
  { exact (substr_at 0 k ltac:(lia)). }
  split; [rewrite substr_at by exact Hl; rewrite E; reflexivity|]. split.
  { unfold to_size_t. rewrite Z.mod_small by lia.
    rewrite <- Nat2Z.inj_add. apply substr_rest. lia. }
  split; [|rewrite length_firstn; lia].
  pose proof (split_at_sub string k (length separator)) as H.
  rewrite E in H. symmetry. exact H.
Qed.

Lemma partitionInternal_spec :
  exists a b c,
    partitionInternal string separator = Some (a, b, c) /\
    a ++ b ++ c = string /\
    ((b = separator /\ occurs_at string separator (length a) /\
      forall o, occurs_at string separator o -> (length a <= o)%nat) \/
     (a = string /\ b = [] /\ c = [] /\
      forall o, ~ occurs_at string separator o)).
Proof.
  unfold partitionInternal, Std.find. cbv zeta.
  destruct (first_from (matches_at string separator) 0
              (length string + 1 - length separator)) as [k|] eqn:E.
  - destruct (first_from_Some _ _ _ _ E) as (Hk & Hm & Hmin & _).
    assert (Hocc : occurs_at string separator k)
      by (apply occurs_at_matches; split; [lia | exact Hm]).
    destruct (pieces_at k Hocc) as (Hn & Ha & Hb & Hc & Hcat & Hlen).
    rewrite Hn, Ha, Hb, Hc. do 3 eexists. split; [reflexivity|].
    split; [exact Hcat|]. left. split; [reflexivity|]. rewrite Hlen.
    split; [exact Hocc|]. intros o Ho. apply occurs_at_matches in Ho.
    destruct Ho as [Ho1 Ho2]. destruct (Nat.le_gt_cases k o) as [L|L]; [exact L|].
    rewrite Hmin in Ho2 by lia. discriminate.
  - destruct (first_from_None _ _ _ E) as (Hnone & _).
    rewrite Z.eqb_refl.
    pose proof (substr_rest 0 ltac:(lia)) as Hall. cbn [Z.of_nat skipn] in Hall.
    rewrite Hall. do 3 eexists. split; [reflexivity|].
    split; [rewrite app_nil_r; reflexivity|]. right.
    repeat (split; [reflexivity|]). intros o Ho.
    apply occurs_at_matches in Ho. destruct Ho as [Ho1 Ho2].
    rewrite Hnone in Ho2 by lia. discriminate.
Qed.

Lemma rpartitionInternal_spec :
  exists a b c,
    rpartitionInternal string separator = Some (a, b, c) /\
    a ++ b ++ c = string /\
    ((b = separator /\ occurs_at string separator (length a) /\
      forall o, occurs_at string separator o -> (o <= length a)%nat) \/
     (a = [] /\ b = [] /\ c = string /\
      forall o, ~ occurs_at string separator o)).
Proof.
  unfold rpartitionInternal, Std.rfind. cbv zeta.
  destruct (last_below (matches_at string separator)
              (length string + 1 - length separator)) as [k|] eqn:E.
  - destruct (last_below_Some _ _ _ E) as (Hk & Hm & Hmax & _).
    assert (Hocc : occurs_at string separator k)
      by (apply occurs_at_matches; split; [lia | exact Hm]).
    destruct (pieces_at k Hocc) as (Hn & Ha & Hb & Hc & Hcat & Hlen).
    rewrite Hn, Ha, Hb, Hc. do 3 eexists. split; [reflexivity|].
    split; [exact Hcat|]. left. split; [reflexivity|]. rewrite Hlen.
    split; [exact Hocc|]. intros o Ho. apply occurs_at_matches in Ho.
    destruct Ho as [Ho1 Ho2]. destruct (Nat.le_gt_cases o k) as [L|L]; [exact L|].
    rewrite Hmax in Ho2 by lia. discriminate.
  - destruct (last_below_None _ _ E) as (Hnone & _).
    rewrite Z.eqb_refl.
    pose proof (substr_rest 0 ltac:(lia)) as Hall. cbn [Z.of_nat skipn] in Hall.
    rewrite Hall. do 3 eexists. split; [reflexivity|].
    split; [reflexivity|]. right.
    repeat (split; [reflexivity|]). intros o Ho.
    apply occurs_at_matches in Ho. destruct Ho as [Ho1 Ho2].
    rewrite Hnone in Ho2 by lia. discriminate.
Qed.

End PartitionProofs.

(** X28. [partitionInternal] cuts the string at the first occurrence of the
    separator: the three pieces together are the string, the middle one is
    the separator and no occurrence starts before it. Without an
    occurrence the first piece is the whole string and the others are
    empty. *)
Theorem X28_partitionInternal_first_occurrence string separator :
  Std.size string < Std.npos ->
  exists a b c,
    partitionInternal string separator = Some (a, b, c) /\
    a ++ b ++ c = string /\
    ((b = separator /\ occurs_at string separator (length a) /\
      forall o, occurs_at string separator o -> (length a <= o)%nat) \/
     (a = string /\ b = [] /\ c = [] /\
      forall o, ~ occurs_at string separator o)).
Proof. intros Hs. exact (partitionInternal_spec string separator Hs). Qed.

(** X29. [rpartitionInternal] cuts the string at the last occurrence of the
    separator: the three pieces together are the string, the middle one is
    the separator and no occurrence starts after it. Without an occurrence
    the last piece is the whole string and the others are empty. *)
Theorem X29_rpartitionInternal_last_occurrence string separator :
  Std.size string < Std.npos ->
  exists a b c,
    rpartitionInternal string separator = Some (a, b, c) /\
    a ++ b ++ c = string /\
    ((b = separator /\ occurs_at string separator (length a) /\
      forall o, occurs_at string separator o -> (o <= length a)%nat) \/
     (a = [] /\ b = [] /\ c = string /\
      forall o, ~ occurs_at string separator o)).
Proof. intros Hs. exact (rpartitionInternal_spec string separator Hs). Qed.

Lemma X28_partitionInternal_first_occurrence_witness :
  Std.size (bytes_of_string "a=b=c") < Std.npos /\
  exists a b c,
    partitionInternal (bytes_of_string "a=b=c") (bytes_of_string "=")
    = Some (a, b, c) /\
    a ++ b ++ c = bytes_of_string "a=b=c".
Proof.
  assert (Hs : Std.size (bytes_of_string "a=b=c") < Std.npos)
    by (vm_compute; reflexivity).
  split; [exact Hs|].
  destruct (X28_partitionInternal_first_occurrence (bytes_of_string "a=b=c")
              (bytes_of_string "=") Hs) as (a & b & c & H1 & H2 & _).
  exists a, b, c. split; [exact H1 | exact H2].
Defined.

Lemma X29_rpartitionInternal_last_occurrence_witness :
  Std.size (bytes_of_string "a=b=c") < Std.npos /\
  exists a b c,
    rpartitionInternal (bytes_of_string "a=b=c") (bytes_of_string "=")
    = Some (a, b, c) /\
    a ++ b ++ c = bytes_of_string "a=b=c".
Proof.
  assert (Hs : Std.size (bytes_of_string "a=b=c") < Std.npos)
    by (vm_compute; reflexivity).
  split; [exact Hs|].
  destruct (X29_rpartitionInternal_last_occurrence (bytes_of_string "a=b=c")
              (bytes_of_string "=") Hs) as (a & b & c & H1 & H2 & _).
  exists a, b, c. split; [exact H1 | exact H2].
Defined.
